(** * Invasion percolation: a shallow embedding of the two notebooks

    The repository holds two Jupyter notebooks with the same simulation:
    the first development of the program (module [Original] below) and
    the notebook that adds assertions and tests to it (module [Tested]).
    The functions [make_grid], [fill], [on_boundary], [calculate_density]
    and the text of [choose_next] are the same in both; [is_adjacent] and
    [percolation] differ.

    Python objects are modelled as follows.
    - A NumPy [int64] array of rank two is its shape and its row-major
      buffer ([ndarray]); cells are [Z] and the one arithmetic operation
      on cells, [1 + grid.max()], wraps around as NumPy scalars do.
    - A location is a pair of naturals: every location the program
      builds comes from [range] or from [size // 2] of an accepted size.
    - Exceptions are the [Raise] results of [res]; [OutOfFuel] is the
      result of a [while] loop cut short by its fuel.
    - The two random generators ([numpy.random] and [random]) are the
      two streams of an [entropy]; quantifying over every entropy covers
      every run.
    - [filled / grid.size] is IEEE binary64 division ([PrimFloat]).
    - Memory is unbounded: [make_grid] never fails for want of it. *)

From Stdlib Require Import ZArith QArith Qabs Lia List Bool Strings.String.
From Stdlib Require Import PrimFloat Uint63 SpecFloat FloatOps FloatAxioms.
From stdpp Require Import base list pretty.

Open Scope Z_scope.
Open Scope list_scope.

(** ** Exceptions and results *)

(** The exceptions the notebooks raise or handle, and those a test can
    raise past the handlers of [run_all_tests]. The first four derive
    from [Exception]; [SystemExit], [KeyboardInterrupt] and
    [GeneratorExit] derive from [BaseException] only, so
    [except Exception] lets them pass. *)
Inductive exn : Type :=
| AssertionError (msg : string)
| ValueError
| IndexError
| ZeroDivisionError (msg : string)
| SystemExit
| KeyboardInterrupt
| GeneratorExit.

(** [isinstance(ex, Exception)] *)
Definition is_exception (ex : exn) : bool :=
  match ex with
  | SystemExit | KeyboardInterrupt | GeneratorExit => false
  | _ => true
  end.

Inductive res (A : Type) : Type :=
| Ok (a : A)
| Raise (e : exn)
| OutOfFuel.

Arguments Ok {A} a.
Arguments Raise {A} e.
Arguments OutOfFuel {A}.

#[global] Instance res_ret : MRet res := fun A a => Ok a.

#[global] Instance res_bind : MBind res := fun A B k m =>
  match m with
  | Ok a => k a
  | Raise e => Raise e
  | OutOfFuel => OutOfFuel
  end.

(** Python's [for v in xs: body] over a state [S], stopping at the first
    exception. *)
Fixpoint for_each {A S} (xs : list A) (body : A -> S -> res S) (s : S) : res S :=
  match xs with
  | [] => Ok s
  | x :: xs' => s' ← body x s; for_each xs' body s'
  end.

(** [range(n)] *)
Definition range (n : nat) : list nat := seq 0 n.

(** [a and b], which evaluates [b] only when [a] holds. *)
Definition and_then (a : bool) (b : res bool) : res bool :=
  if a then b else Ok false.

(** ** NumPy integers *)

Definition int64_min : Z := - 2 ^ 63.
Definition int64_max : Z := 2 ^ 63 - 1.

Definition in_int64 (z : Z) : Prop := int64_min <= z <= int64_max.

(** Two's complement wrap-around of an [int64] result. *)
Definition wrap64 (z : Z) : Z := (z + 2 ^ 63) mod 2 ^ 64 - 2 ^ 63.

(** ** Arrays *)

Definition loc : Type := nat * nat.

Record ndarray : Type := mk_ndarray {
  dim_x : nat;
  dim_y : nat;
  buf : list Z
}.

(** What every NumPy [int64] array of rank two satisfies. *)
Definition well_formed (g : ndarray) : Prop :=
  length (buf g) = (dim_x g * dim_y g)%nat /\ Forall in_int64 (buf g).

(** [grid.shape] *)
Definition shape (g : ndarray) : nat * nat := (dim_x g, dim_y g).

(** [grid.size] *)
Definition size (g : ndarray) : nat := (dim_x g * dim_y g)%nat.

Definition offset (g : ndarray) (l : loc) : nat := (fst l * dim_y g + snd l)%nat.

Definition in_bounds (g : ndarray) (l : loc) : bool :=
  (fst l <? dim_x g)%nat && (snd l <? dim_y g)%nat.

(** [grid[x, y]] for non-negative [x] and [y]; out of range raises. *)
Definition getitem (g : ndarray) (l : loc) : res Z :=
  if in_bounds g l then
    match buf g !! offset g l with
    | Some v => Ok v
    | None => Raise IndexError
    end
  else Raise IndexError.

(** [grid[x, y] = v], returning the array after the assignment. *)
Definition setitem (g : ndarray) (l : loc) (v : Z) : res ndarray :=
  if in_bounds g l then
    Ok (mk_ndarray (dim_x g) (dim_y g) (<[offset g l := v]> (buf g)))
  else Raise IndexError.

(** [grid.max()]; the maximum of an empty array raises [ValueError]. *)
Definition amax (g : ndarray) : res Z :=
  match buf g with
  | [] => Raise ValueError
  | v :: vs => Ok (fold_left Z.max vs v)
  end.

(** [np.sum(grid == 0)] *)
Definition count_zero (g : ndarray) : nat :=
  length (filter (fun v => v = 0) (buf g)).

(** [np.array(rows)] for a list of rows of equal length. *)
Definition array (rows : list (list Z)) : ndarray :=
  mk_ndarray (length rows)
             (match rows with [] => 0%nat | r :: _ => length r end)
             (concat rows).

(** ** Randomness *)

(** The raw outputs of the two generators: [np_draw i] feeds the [i]th
    cell drawn by [numpy.random.randint], [py_draw k] the [k]th call of
    [random.choice]. *)
Record entropy : Type := mk_entropy {
  np_draw : nat -> nat;
  py_draw : nat -> nat
}.

(** [random.choice(seq)]: [seq[randbelow(len(seq))]], where the draw
    [raw] reduced below the length stands for [randbelow]; an empty
    sequence raises [IndexError]. *)
Definition random_choice {A} (raw : nat) (xs : list A) : res A :=
  match xs !! (raw mod length xs)%nat with
  | Some a => Ok a
  | None => Raise IndexError
  end.

(** ** The state of a run *)

(** What a run does to the world outside its return value. *)
Inductive event : Type :=
| EvAlloc (dx dy : nat)    (* numpy allocated the grid *)
| EvFill (l : loc).        (* a cell was set to 0 *)

(** The array every [grid] parameter refers to, the number of
    [random.choice] draws made so far, and the events so far. *)
Record world : Type := mk_world {
  arr : ndarray;
  draws : nat;
  trace : list event
}.

(** The locations filled during a run, in order. *)
Fixpoint fills (tr : list event) : list loc :=
  match tr with
  | [] => []
  | EvFill l :: tr' => l :: fills tr'
  | EvAlloc _ _ :: tr' => fills tr'
  end.

(** The conversion of a count to [float64]; exact below 2^53, far above
    the number of cells of any grid. *)
Definition float_of_nat (n : nat) : float :=
  PrimFloat.of_uint63 (Uint63.of_Z (Z.of_nat n)).

(** ** Functions the two notebooks share *)

(** [np.random.randint(low=1, high=spread+1, size=(size, size))]: a
    negative dimension raises [ValueError]; a shape without cells gives
    the empty array before the range is looked at; otherwise an empty
    range of values or a [high] beyond [int64] raises [ValueError], and
    each cell is drawn from [1..spread]. *)
Definition make_grid (size spread : Z) (e : entropy) : res ndarray :=
  if size <? 0 then Raise ValueError
  else if size =? 0 then Ok (mk_ndarray 0 0 [])
  else if (spread <? 1) || (int64_max <? spread) then Raise ValueError
  else
    let n := Z.to_nat size in
    Ok (mk_ndarray n n
          (map (fun i => 1 + Z.of_nat (np_draw e i) mod spread) (seq 0 (n * n)))).

(** [grid[loc] = 0] *)
Definition fill (l : loc) (w : world) : res unit * world :=
  match setitem (arr w) l 0 with
  | Ok g' => (Ok tt, mk_world g' (draws w) (trace w ++ [EvFill l]))
  | Raise e => (Raise e, w)
  | OutOfFuel => (OutOfFuel, w)
  end.

Definition on_boundary (grid : ndarray) (l : loc) : bool :=
  let '(grid_x, grid_y) := shape grid in
  let '(loc_x, loc_y) := l in
  (Z.of_nat loc_x =? 0) || (Z.of_nat loc_y =? 0)
  || (Z.of_nat loc_x =? Z.of_nat grid_x - 1)
  || (Z.of_nat loc_y =? Z.of_nat grid_y - 1).

Definition calculate_density (grid : ndarray) : float :=
  let filled := count_zero grid in
  PrimFloat.div (float_of_nat filled) (float_of_nat (size grid)).

(** [if c: return True], then the rest of the function. *)
Definition return_true_if (c : res bool) (rest : res bool) : res bool :=
  c ≫= fun b : bool => if b then Ok true else rest.

(** [grid[x, y] == 0] *)
Definition is_zero (grid : ndarray) (l : loc) : res bool :=
  v ← getitem grid l; Ok (v =? 0).

(** The four tests of [is_adjacent], in the order of the source. *)
Definition neighbour_tests (grid : ndarray) (l : loc) : res bool :=
  let '(x, y) := l in
  let '(max_x, max_y) := shape grid in
  return_true_if (and_then (0 <? Z.of_nat x) (is_zero grid ((x - 1)%nat, y)))
  (return_true_if (and_then (0 <? Z.of_nat y) (is_zero grid (x, (y - 1)%nat)))
  (return_true_if (and_then (Z.of_nat x <? Z.of_nat max_x - 1)
                            (is_zero grid ((x + 1)%nat, y)))
  (return_true_if (and_then (Z.of_nat y <? Z.of_nat max_y - 1)
                            (is_zero grid (x, (y + 1)%nat)))
  (Ok false)))).

Section ChooseNext.

(** The text of [choose_next], [percolation]'s loop and what follows
    it are the same in both notebooks; they call the [is_adjacent] of
    their own notebook. *)
Variable is_adjacent : ndarray -> loc -> res bool.

(** The body of the inner [for] of [choose_next], on the pair of
    [value] and [candidates]. *)
Definition scan_cell (grid : ndarray) (x y : nat) (st : Z * list loc)
  : res (Z * list loc) :=
  let '(value, candidates) := st in
  v ← getitem grid (x, y);
  if v =? 0 then Ok st
  else
    is_adjacent grid (x, y) ≫= fun adj : bool =>
    if adj then
      v1 ← getitem grid (x, y);
      if v1 <? value then
        v2 ← getitem grid (x, y);
        Ok (v2, [(x, y)])
      else
        v3 ← getitem grid (x, y);
        if v3 =? value then Ok (value, candidates ++ [(x, y)])
        else Ok st
    else Ok st.

(** [choose_next] up to its last line: the list [candidates]. *)
Definition scan (grid : ndarray) : res (list loc) :=
  m ← amax grid;
  let value := wrap64 (1 + m) in
  let '(dim_x, dim_y) := shape grid in
  st ← for_each (range dim_x)
         (fun x => for_each (range dim_y) (fun y => scan_cell grid x y))
         (value, []);
  Ok (snd st).

Variable e : entropy.

Definition choose_next (w : world) : res loc * world :=
  match scan (arr w) with
  | Ok candidates =>
      match random_choice (py_draw e (draws w)) candidates with
      | Ok l => (Ok l, mk_world (arr w) (S (draws w)) (trace w))
      | Raise ex => (Raise ex, w)
      | OutOfFuel => (OutOfFuel, w)
      end
  | Raise ex => (Raise ex, w)
  | OutOfFuel => (OutOfFuel, w)
  end.

(** [while not on_boundary(grid, chosen): ...]; each entry into the
    body takes one unit of fuel. *)
Fixpoint grow (fuel : nat) (chosen : loc) (w : world) : res loc * world :=
  if on_boundary (arr w) chosen then (Ok chosen, w)
  else
    match fuel with
    | O => (OutOfFuel, w)
    | S fuel' =>
        match choose_next w with
        | (Ok c, w1) =>
            match fill c w1 with
            | (Ok _, w2) => grow fuel' c w2
            | (Raise ex, w2) => (Raise ex, w2)
            | (OutOfFuel, w2) => (OutOfFuel, w2)
            end
        | (Raise ex, w1) => (Raise ex, w1)
        | (OutOfFuel, w1) => (OutOfFuel, w1)
        end
    end.

(** [percolation] from the allocated grid on: fill the middle cell,
    grow, report. *)
Definition simulate (fuel : nat) (grid : ndarray) (middle : nat)
  : res (ndarray * float) * list event :=
  let w0 := mk_world grid 0 [EvAlloc (dim_x grid) (dim_y grid)] in
  let chosen := (middle, middle) in
  match fill chosen w0 with
  | (Ok _, w1) =>
      match grow fuel chosen w1 with
      | (Ok _, w2) => (Ok (arr w2, calculate_density (arr w2)), trace w2)
      | (Raise ex, w2) => (Raise ex, trace w2)
      | (OutOfFuel, w2) => (OutOfFuel, trace w2)
      end
  | (Raise ex, w1) => (Raise ex, trace w1)
  | (OutOfFuel, w1) => (OutOfFuel, trace w1)
  end.

End ChooseNext.

(** ** The first notebook *)

Module Original.

Definition is_adjacent (grid : ndarray) (l : loc) : res bool :=
  neighbour_tests grid l.

Definition scan := scan is_adjacent.
Definition choose_next := choose_next is_adjacent.
Definition grow := grow is_adjacent.

(** [middle = size // 2]; no check of the arguments. *)
Definition percolation (fuel : nat) (size spread : Z) (e : entropy)
  : res (ndarray * float) * list event :=
  match make_grid size spread e with
  | Ok grid =>
      let middle := size / 2 in
      simulate is_adjacent e fuel grid (Z.to_nat middle)
  | Raise ex => (Raise ex, [])
  | OutOfFuel => (OutOfFuel, [])
  end.

End Original.

(** ** The notebook with assertions and tests *)

(** A Python argument: an [int], or an object of another type. *)
Inductive pyobj : Type :=
| PyInt (z : Z)
| PyOther.

Module Tested.

(** As [Original.is_adjacent], after [if grid[loc] == 0: return False]. *)
Definition is_adjacent (grid : ndarray) (l : loc) : res bool :=
  v ← getitem grid l;
  if v =? 0 then Ok false
  else neighbour_tests grid l.

Definition scan := scan is_adjacent.
Definition choose_next := choose_next is_adjacent.
Definition grow := grow is_adjacent.

(** The two [assert]s come first; [int(size/2)] truncates the float
    quotient, which for the sizes that pass the assertion (and fit a
    grid in memory) is [size // 2]. *)
Definition percolation (fuel : nat) (size spread : pyobj) (e : entropy)
  : res (ndarray * float) * list event :=
  match size with
  | PyInt sz =>
      if (0 <? sz) && (sz mod 2 =? 1) then
        match spread with
        | PyInt sp =>
            if 0 <? sp then
              match make_grid sz sp e with
              | Ok grid =>
                  simulate is_adjacent e fuel grid (Z.to_nat (sz ÷ 2))
              | Raise ex => (Raise ex, [])
              | OutOfFuel => (OutOfFuel, [])
              end
            else (Raise (AssertionError "spread must be non-negative integer"), [])
        | PyOther =>
            (Raise (AssertionError "spread must be non-negative integer"), [])
        end
      else (Raise (AssertionError "size must be positive odd integer"), [])
  | PyOther => (Raise (AssertionError "size must be positive odd integer"), [])
  end.

End Tested.

(** The grids of the notebook's tests. *)
Definition grid_a := array [[9; 1; 9]; [9; 0; 9]; [9; 9; 9]].
Definition grid_b := array [[9; 2; 9]; [9; 0; 9]; [9; 1; 9]].
Definition grid_c := array [[0; 1; 2]; [3; 4; 5]; [6; 7; 8]].
Definition grid_d := array [[1; 2; 3]; [4; 5; 6]; [7; 8; 9]].

(** ** The vocabulary of the specification *)

(** The cell holds the sentinel 0. *)
Definition filled (g : ndarray) (l : loc) : Prop := getitem g l = Ok 0.

(** The cell holds a resistance value. *)
Definition unfilled (g : ndarray) (l : loc) : Prop :=
  exists v, getitem g l = Ok v /\ v <> 0.

(** Orthogonal neighbours. *)
Definition adjacent (a b : loc) : Prop :=
  (fst a = fst b /\ (snd a = S (snd b) \/ snd b = S (snd a))) \/
  (snd a = snd b /\ (fst a = S (fst b) \/ fst b = S (fst a))).

(** A candidate: an unfilled cell next to a filled one. *)
Definition candidate (g : ndarray) (l : loc) : Prop :=
  unfilled g l /\ exists n, adjacent l n /\ filled g n.

(** A candidate whose value no candidate undercuts. *)
Definition min_candidate (g : ndarray) (l : loc) : Prop :=
  candidate g l /\
  forall c vc vl, candidate g c -> getitem g c = Ok vc -> getitem g l = Ok vl ->
                  vl <= vc.

(** The locations of a grid in scan order. *)
Definition all_locs (g : ndarray) : list loc :=
  flat_map (fun x => map (fun y => (x, y)) (range (dim_y g))) (range (dim_x g)).

(** The value read at a location (0 where there is no cell). *)
Definition cell (g : ndarray) (l : loc) : Z :=
  match getitem g l with Ok v => v | _ => 0 end.

(** The orthogonal neighbours of a location that have non-negative
    coordinates, in the order [is_adjacent] tests them. *)
Definition neighbours (l : loc) : list loc :=
  let '(x, y) := l in
  (if (0 <? x)%nat then [((x - 1)%nat, y)] else []) ++
  (if (0 <? y)%nat then [(x, (y - 1)%nat)] else []) ++
  [((x + 1)%nat, y); (x, (y + 1)%nat)].

(** Some neighbour inside the grid holds 0. *)
Definition filled_neighbour (g : ndarray) (l : loc) : bool :=
  existsb (fun n => in_bounds g n && (cell g n =? 0)) (neighbours l).

(** [candidate], decided. *)
Definition candidateb (g : ndarray) (l : loc) : bool :=
  in_bounds g l && negb (cell g l =? 0) && filled_neighbour g l.

(** The effect of one turn of the inner loop of [choose_next] on the
    pair of [value] and [candidates], for a cell of the grid. *)
Definition select_step (g : ndarray) (st : Z * list loc) (l : loc) : Z * list loc :=
  let '(value, candidates) := st in
  if candidateb g l then
    if cell g l <? value then (cell g l, [l])
    else if cell g l =? value then (value, candidates ++ [l])
    else st
  else st.

(** The least of [v] and the values of the candidates among [ls]. *)
Definition least (g : ndarray) (ls : list loc) (v : Z) : Z :=
  fold_left (fun m l => if candidateb g l then Z.min m (cell g l) else m) ls v.

(** [min_candidate], decided. *)
Definition min_candidateb (g : ndarray) (l : loc) : bool :=
  candidateb g l &&
  forallb (fun c => negb (candidateb g c) || (cell g l <=? cell g c)) (all_locs g).

(** The candidates of least value, in scan order. *)
Definition min_candidates (g : ndarray) : list loc :=
  List.filter (min_candidateb g) (all_locs g).

(** [well_formed], decided. *)
Definition well_formedb (g : ndarray) : bool :=
  (length (buf g) =? dim_x g * dim_y g)%nat
  && forallb (fun v => (int64_min <=? v) && (v <=? int64_max)) (buf g).

(** A generator that always draws 0. *)
Definition zero_entropy : entropy := mk_entropy (fun _ => 0%nat) (fun _ => 0%nat).

(** A grid whose largest cell is the largest [int64]. *)
Definition grid_top := array [[0; int64_max]].

(** Two filled cells side by side. *)
Definition grid_pair := array [[0; 0]].

(** What [percolation] asks of its arguments. *)
Definition valid_size (size : pyobj) : Prop :=
  exists n, size = PyInt n /\ 0 < n /\ n mod 2 = 1.

Definition valid_spread (spread : pyobj) : Prop :=
  exists n, spread = PyInt n /\ 0 < n.

(** ** Chance *)

(** The results of [random.choice(xs)], one for each value that
    [randbelow(len(xs))] can take; the generator makes them equally
    likely. On an empty sequence the call raises whatever is drawn. *)
Definition choice_outcomes {A} (xs : list A) : list (res A) :=
  match xs with
  | [] => [Raise IndexError]
  | _ => map (fun i => random_choice i xs) (seq 0 (length xs))
  end.

(** The results of [choose_next] on a grid, equally likely. *)
Definition choose_next_outcomes (is_adjacent : ndarray -> loc -> res bool)
    (g : ndarray) : list (res loc) :=
  match scan is_adjacent g with
  | Ok candidates => choice_outcomes candidates
  | Raise ex => [Raise ex]
  | OutOfFuel => [OutOfFuel]
  end.

(** The share of the outcomes in which the event holds. *)
Definition probability {A} (ev : A -> bool) (outcomes : list A) : Q :=
  (inject_Z (Z.of_nat (length (List.filter ev outcomes)))
   / inject_Z (Z.of_nat (length outcomes)))%Q.

(** The call returned the location [l]. *)
Definition returns (l : loc) (r : res loc) : bool :=
  match r with
  | Ok l' => (fst l =? fst l')%nat && (snd l =? snd l')%nat
  | _ => false
  end.

(** ** Density *)

(** The quotient [filled / grid.size] before it is rounded to a float. *)
Definition density_exact (g : ndarray) : Q :=
  (inject_Z (Z.of_nat (count_zero g)) / inject_Z (Z.of_nat (size g)))%Q.

(** [density * N**2 == filled], as Python evaluates it on floats. *)
Definition density_times_size_is_count (g : ndarray) : bool :=
  PrimFloat.eqb (PrimFloat.mul (calculate_density g) (float_of_nat (size g)))
                (float_of_nat (count_zero g)).

(** The float [f] is positive, with a mantissa of 53 digits, and no
    float is nearer to the rational [q]: [f = m * 2^e], and [q] lies
    within half a unit of the last digit of [f]. *)
Definition nearest_float (q : Q) (f : float) : Prop :=
  exists (m : positive) (e : Z),
    Prim2SF f = S754_finite false m e /\
    2 ^ 52 <= Zpos m < 2 ^ 53 /\ e <= 0 /\
    (Qabs (inject_Z (Zpos m) - q * inject_Z (2 ^ (- e))) <= 1 # 2)%Q.

(** The location after one shift to the right. *)
Definition shifted_location (q : Z) (l : location) : location :=
  match Z.odd q, l with
  | false, loc_Exact => loc_Exact
  | false, _ => loc_Inexact Lt
  | true, loc_Exact => loc_Inexact Eq
  | true, _ => loc_Inexact Gt
  end.

(** The mantissa [mf] at exponent [j] above that of the quotient is
    within half a unit of [(q * b + r) / b]. *)
Definition near (mf j num b : Z) : Prop :=
  2 * Z.abs (mf * 2 ^ j * b - num) <= 2 ^ j * b.

(** [k / 2^s] rounded to the nearest integer, ties to even. *)
Definition round_shift (k s : Z) : Z :=
  let q := k / 2 ^ s in
  let rest := k mod 2 ^ s in
  if (2 ^ s <? 2 * rest) || ((2 * rest =? 2 ^ s) && Z.odd q) then q + 1 else q.

(** The mantissa and exponent of the float of a count: the count
    itself shifted to 53 digits, or rounded to 53 digits. *)
Definition float_count (k : Z) : Z * Z :=
  let d := Zdigits2 k in
  if d <=? 53 then (k * 2 ^ (53 - d), d - 53)
  else
    let m := round_shift k (d - 53) in
    if m <? 2 ^ 53 then (m, d - 53) else (2 ^ 52, d - 53 + 1).

(** A 7 x 7 grid of ones after its middle cell was filled. *)
Definition grid_seven : ndarray :=
  array [[1; 1; 1; 1; 1; 1; 1];
         [1; 1; 1; 1; 1; 1; 1];
         [1; 1; 1; 1; 1; 1; 1];
         [1; 1; 1; 0; 1; 1; 1];
         [1; 1; 1; 1; 1; 1; 1];
         [1; 1; 1; 1; 1; 1; 1];
         [1; 1; 1; 1; 1; 1; 1]].

(** ** The loop of [percolation] *)

(** What holds of the state each time the [while] test is reached, for
    a grid drawn from [1..sp]: the cell chosen last is filled, every
    other filled cell is off the boundary, and the cells filled so far
    are those of the trace, each once. *)
Record loop_inv (sp : Z) (w : world) (chosen : loc) : Prop := mk_loop_inv {
  inv_wf : well_formed (arr w);
  inv_square : dim_x (arr w) = dim_y (arr w);
  inv_chosen : filled (arr w) chosen;
  inv_interior : forall l, filled (arr w) l -> l <> chosen ->
                           on_boundary (arr w) l = false;
  inv_range : Forall (fun v => 0 <= v <= sp) (buf (arr w));
  inv_fills : forall l, In l (fills (trace w)) <-> filled (arr w) l;
  inv_nodup : List.NoDup (fills (trace w));
  inv_count : count_zero (arr w) = length (fills (trace w))
}.

(** The number of cells that hold a resistance value. *)
Definition count_unfilled (g : ndarray) : nat := (size g - count_zero g)%nat.

(** One turn of the loop body: [chosen = choose_next(grid)] and
    [fill(grid, chosen)]. *)
Definition loop_body (is_adjacent : ndarray -> loc -> res bool) (e : entropy)
    (w : world) : res loc * world :=
  match choose_next is_adjacent e w with
  | (Ok c, w1) =>
      match fill c w1 with
      | (Ok _, w2) => (Ok c, w2)
      | (Raise ex, w2) => (Raise ex, w2)
      | (OutOfFuel, w2) => (OutOfFuel, w2)
      end
  | (Raise ex, w1) => (Raise ex, w1)
  | (OutOfFuel, w1) => (OutOfFuel, w1)
  end.

(** ** The tests of the second notebook and their runner *)

(** A computation in a state [St]: from the state before it to its
    result and the state after it. *)
Definition stateful (St A : Type) : Type := St -> res A * St.

(** A computation that may call [random.choice] and touches nothing
    else: its state is the number of draws made so far. *)
Definition rand (A : Type) : Type := stateful nat A.

Definition rand_bind {St A B} (m : stateful St A) (k : A -> stateful St B)
  : stateful St B :=
  fun d =>
    match m d with
    | (Ok a, d') => k a d'
    | (Raise ex, d') => (Raise ex, d')
    | (OutOfFuel, d') => (OutOfFuel, d')
    end.

(** A computation that leaves the state alone. *)
Definition pure_call {St A} (r : res A) : stateful St A := fun d => (r, d).

(** [assert cond, msg] *)
Definition assert_ (cond : bool) (msg : string) : res unit :=
  if cond then Ok tt else Raise (AssertionError msg).

(** [a == b] on pairs of integers. *)
Definition loc_eqb (a b : loc) : bool :=
  (fst a =? fst b)%nat && (snd a =? snd b)%nat.

Module Tests.

Section Suite.

(** The functions under test: those of the notebook that holds the
    tests, or those of the first notebook. *)
Variable is_adjacent : ndarray -> loc -> res bool.
Variable e : entropy.

Definition test_on_boundary : res unit :=
  let grid := array [[1; 2; 3]; [4; 5; 6]; [7; 8; 9]] in
  _ ← assert_ (on_boundary grid (0, 0)%nat) "";
  _ ← assert_ (negb (on_boundary grid (1, 1)%nat)) "";
  assert_ (on_boundary grid (2, 0)%nat) "".

(** [assert is_adjacent(grid, loc)] *)
Definition assert_adjacent (grid : ndarray) (l : loc) : res unit :=
  is_adjacent grid l ≫= fun b : bool => assert_ b "".

(** [assert not is_adjacent(grid, loc)] *)
Definition assert_not_adjacent (grid : ndarray) (l : loc) : res unit :=
  is_adjacent grid l ≫= fun b : bool => assert_ (negb b) "".

Definition test_is_adjacent : res unit :=
  let grid := array [[0; 1; 2]; [3; 4; 5]; [6; 7; 8]] in
  _ ← assert_not_adjacent grid (0, 0)%nat;
  _ ← assert_adjacent grid (1, 0)%nat;
  _ ← assert_adjacent grid (0, 1)%nat;
  _ ← assert_not_adjacent grid (1, 1)%nat;
  _ ← assert_not_adjacent grid (2, 0)%nat;
  _ ← assert_not_adjacent grid (2, 1)%nat;
  _ ← assert_not_adjacent grid (0, 2)%nat;
  _ ← assert_not_adjacent grid (1, 2)%nat;
  assert_not_adjacent grid (2, 2)%nat.

(** [choose_next(np.array(rows))]: the call on a fresh array. *)
Definition choose_next_of (rows : list (list Z)) : rand loc :=
  fun d =>
    let '(r, w) := choose_next is_adjacent e (mk_world (array rows) d []) in
    (r, draws w).

(** [assert choose_next(np.array(rows)) == expected] *)
Definition assert_choice (rows : list (list Z)) (expected : loc) : rand unit :=
  rand_bind (choose_next_of rows)
            (fun l => pure_call (assert_ (loc_eqb l expected) "")).

Definition test_choose_next : rand unit :=
  rand_bind (assert_choice [[9; 1; 9]; [9; 0; 9]; [9; 9; 9]] (0, 1)%nat)
            (fun _ => assert_choice [[9; 2; 9]; [9; 0; 9]; [9; 1; 9]] (2, 1)%nat).

Definition test_all : rand unit :=
  rand_bind (pure_call test_on_boundary)
            (fun _ => rand_bind (pure_call test_is_adjacent)
                                (fun _ => test_choose_next)).

End Suite.

End Tests.

(** A value of [globals()]: a callable, with what calling it without
    arguments does, or an object that is not callable. The state [St]
    is whatever the calls share: the random generator, the globals,
    the files. *)
Inductive pyglobal (St : Type) : Type :=
| Function (call : stateful St unit)
| NotCallable.

Arguments Function {St} call.
Arguments NotCallable {St}.

(** The counters of [run_all_tests] and what it printed on [stderr]. *)
Record tally : Type := mk_tally {
  success : nat;
  failure : nat;
  error : nat;
  stderr : list exn
}.

(** The first loop of [run_all_tests]: the functions of [everything]
    whose names start with [stem], in the order of the dictionary. *)
Fixpoint collect_tests {St} (stem : string)
    (everything : list (string * pyglobal St)) : list (stateful St unit) :=
  match everything with
  | [] => []
  | (name, Function call) :: rest =>
      if String.prefix stem name then call :: collect_tests stem rest
      else collect_tests stem rest
  | (name, NotCallable) :: rest => collect_tests stem rest
  end.

(** The second loop of [run_all_tests]: [try: f()], then
    [except AssertionError] and [except Exception], counting what each
    call does. An exception that is not an [Exception] passes both
    handlers and leaves the runner; a call that does not return keeps
    the runner from returning. *)
Fixpoint count_tests {St} (funcs : list (stateful St unit)) (t : tally)
  : stateful St tally :=
  match funcs with
  | [] => fun d => (Ok t, d)
  | f :: rest =>
      fun d =>
        match f d with
        | (Ok _, d') =>
            count_tests rest
              (mk_tally (S (success t)) (failure t) (error t) (stderr t)) d'
        | (Raise (AssertionError msg), d') =>
            count_tests rest
              (mk_tally (success t) (S (failure t)) (error t)
                        (stderr t ++ [AssertionError msg])) d'
        | (Raise ex, d') =>
            if is_exception ex then
              count_tests rest
                (mk_tally (success t) (failure t) (S (error t))
                          (stderr t ++ [ex])) d'
            else (Raise ex, d')
        | (OutOfFuel, d') => (OutOfFuel, d')
        end
  end.

(** ['{0} tests, {1} failures, {2} errors'.format(total, failure, error)] *)
Definition report (t : tally) : string :=
  let total := (success t + failure t + error t)%nat in
  (pretty total ++ " tests, " ++ pretty (failure t) ++ " failures, "
   ++ pretty (error t) ++ " errors")%string.

(** [run_all_tests(stem)] on the dictionary [everything = globals()]:
    the line printed on [stdout] and the final counters. *)
Definition run_all_tests {St} (stem : string)
    (everything : list (string * pyglobal St)) : stateful St (string * tally) :=
  let funcs := collect_tests stem everything in
  rand_bind (count_tests funcs (mk_tally 0 0 0 []))
            (fun t => pure_call (Ok (report t, t))).

(** The functions of the second notebook whose names start with
    [test_] when [run_all_tests()] is first called, in the order of
    their definition; [globals()] may list them in another. *)
Definition notebook_tests (e : entropy) : list (string * pyglobal nat) :=
  [("test_on_boundary", Function (pure_call Tests.test_on_boundary));
   ("test_choose_next", Function (Tests.test_choose_next Tested.is_adjacent e));
   ("test_is_adjacent", Function (pure_call (Tests.test_is_adjacent Tested.is_adjacent)));
   ("test_all", Function (Tests.test_all Tested.is_adjacent e))]%string.

(** ** The picture of the first notebook *)

(** [grid[grid > 0] = 1], the step before [plt.imshow(grid)]. *)
Definition mask_positive (grid : ndarray) : ndarray :=
  mk_ndarray (dim_x grid) (dim_y grid)
             (map (fun v => if 0 <? v then 1 else v) (buf grid)).

(** ** The shape of the filled region *)

(** The distance between two coordinates. *)
Definition gap (a b : nat) : nat := ((a - b) + (b - a))%nat.

(** The larger of the row and column distances of two locations. *)
Definition reach (a b : loc) : nat :=
  Nat.max (gap (fst a) (fst b)) (gap (snd a) (snd b)).

(** Every location of the list but the first is next to one before it. *)
Definition chained (ls : list loc) : Prop :=
  forall i l, ls !! i = Some l -> (0 < i)%nat ->
    exists j n, (j < i)%nat /\ ls !! j = Some n /\ adjacent l n.

(** A 3 x 3 grid of ones, and what [percolation] makes of it when the
    first candidate is drawn. *)
Definition grid_ones := array [[1; 1; 1]; [1; 1; 1]; [1; 1; 1]].
Definition grid_ones_run := array [[1; 0; 1]; [1; 0; 1]; [1; 1; 1]].

(** [assert False, 'just to prove the point'], the test the notebook
    adds last. *)
Definition test_to_prove_it_works : res unit :=
  assert_ false "just to prove the point".

(** The exception is an [AssertionError]. *)
Definition is_assertion (ex : exn) : bool :=
  match ex with AssertionError _ => true | _ => false end.

(** The entry of [globals()] is a function whose name starts with [stem]. *)
Definition selected {St} (stem : string) (entry : string * pyglobal St) : bool :=
  match entry with
  | (name, Function _) => String.prefix stem name
  | (_, NotCallable) => false
  end.

(** The runner goes on to the next test after a call that ended so:
    the call returned, or raised what one of the handlers catches. *)
Definition goes_on (r : res unit) : bool :=
  match r with
  | Ok _ => true
  | Raise ex => is_exception ex
  | OutOfFuel => false
  end.

(** How a call ends (it returns, raises, or never ends) does not
    depend on the state it is called in: neither on the draws made so
    far nor on anything else the calls before it left behind. *)
Definition state_independent {St} (f : stateful St unit) : Prop :=
  forall s s', fst (f s) = fst (f s').

(** Two tallies with the same counters and the same lines on [stderr],
    in some order. *)
Definition same_counts (a b : tally) : Prop :=
  success a = success b /\ failure a = failure b /\ error a = error b /\
  Permutation (stderr a) (stderr b).

(** Two runs of the second loop ended alike: both with counters, and
    then the same, or neither. *)
Definition same_outcome (a b : res tally) : Prop :=
  match a, b with
  | Ok ta, Ok tb => same_counts ta tb
  | Ok _, _ | _, Ok _ => False
  | _, _ => True
  end.

(** The counters after one call that ended with [r]. *)
Definition record (r : res unit) (t : tally) : tally :=
  match r with
  | Ok _ => mk_tally (S (success t)) (failure t) (error t) (stderr t)
  | Raise (AssertionError msg) =>
      mk_tally (success t) (S (failure t)) (error t)
               (stderr t ++ [AssertionError msg])
  | Raise ex =>
      if is_exception ex then
        mk_tally (success t) (failure t) (S (error t)) (stderr t ++ [ex])
      else t
  | OutOfFuel => t
  end.

(** The three functions the notebook tries the runner on. *)
Definition always_succeed : res unit := Ok tt.

Definition always_fail : res unit := assert_ false "always fail".

Definition always_error : res unit :=
  Raise (ZeroDivisionError "not really dividing by zero").

Definition always_tests : list (string * pyglobal nat) :=
  [("always_succeed", Function (pure_call always_succeed));
   ("always_fail", Function (pure_call always_fail));
   ("always_error", Function (pure_call always_error))]%string.

(** The cells of an n x n grid that are off its boundary, row by row. *)
Definition interior (n : nat) : list loc :=
  flat_map (fun x => map (pair x) (seq 1 (n - 2))) (seq 1 (n - 2)).

(** * Properties *)

(** ** The notebook's own tests, run on the model *)

Example test_on_boundary :
  on_boundary grid_d (0, 0)%nat = true /\
  on_boundary grid_d (1, 1)%nat = false /\
  on_boundary grid_d (2, 0)%nat = true.
Proof. repeat split; reflexivity. Qed.

Example test_choose_next :
  Tested.scan grid_a = Ok [(0, 1)%nat] /\ Tested.scan grid_b = Ok [(2, 1)%nat] /\
  Original.scan grid_a = Ok [(0, 1)%nat] /\ Original.scan grid_b = Ok [(2, 1)%nat].
Proof. repeat split; vm_compute; reflexivity. Qed.

Example test_is_adjacent :
  map (Tested.is_adjacent grid_c)
      [(0, 0); (1, 0); (0, 1); (1, 1); (2, 0); (2, 1); (0, 2); (1, 2); (2, 2)]%nat
  = map Ok [false; true; true; false; false; false; false; false; false].
Proof. vm_compute. reflexivity. Qed.

(** The first notebook's [is_adjacent] passes the same test: the one
    filled cell of its grid has no filled neighbour. *)
Example test_is_adjacent_original :
  map (Original.is_adjacent grid_c)
      [(0, 0); (1, 0); (0, 1); (1, 1); (2, 0); (2, 1); (0, 2); (1, 2); (2, 2)]%nat
  = map Ok [false; true; true; false; false; false; false; false; false].
Proof. vm_compute. reflexivity. Qed.

(** ** Reading and writing cells *)

Lemma in_bounds_spec g l :
  in_bounds g l = true <-> (fst l < dim_x g)%nat /\ (snd l < dim_y g)%nat.
Proof.
  unfold in_bounds. rewrite andb_true_iff, !Nat.ltb_lt. tauto.
Qed.

Lemma offset_lt g l :
  in_bounds g l = true -> (offset g l < dim_x g * dim_y g)%nat.
Proof.
  rewrite in_bounds_spec. unfold offset. intros [Hx Hy]. nia.
Qed.

Lemma offset_inj g l l' :
  in_bounds g l = true -> in_bounds g l' = true ->
  offset g l = offset g l' -> l = l'.
Proof.
  rewrite !in_bounds_spec. unfold offset.
  destruct l as [x y], l' as [x' y']; simpl. intros [Hx Hy] [Hx' Hy'] Heq.
  assert (x = x') by nia. subst x'. f_equal. lia.
Qed.

Lemma getitem_inv g l v :
  getitem g l = Ok v -> in_bounds g l = true /\ buf g !! offset g l = Some v.
Proof.
  unfold getitem. destruct (in_bounds g l); [|discriminate].
  destruct (buf g !! offset g l); [|discriminate]. intros [= ->]. auto.
Qed.

Lemma getitem_total g l :
  well_formed g -> in_bounds g l = true -> exists v, getitem g l = Ok v.
Proof.
  intros [Hlen _] Hb. unfold getitem. rewrite Hb.
  destruct (buf g !! offset g l) as [v|] eqn:E; [eauto|].
  apply lookup_ge_None in E. apply offset_lt in Hb. lia.
Qed.

Lemma getitem_cell g l :
  well_formed g -> in_bounds g l = true -> getitem g l = Ok (cell g l).
Proof.
  intros Hwf Hb. destruct (getitem_total g l Hwf Hb) as [v Hv].
  unfold cell. rewrite Hv. reflexivity.
Qed.

Lemma getitem_in_int64 g l v :
  well_formed g -> getitem g l = Ok v -> in_int64 v.
Proof.
  intros [_ Hr] Hg. apply getitem_inv in Hg as [_ Hl].
  eapply Forall_lookup_1; eauto.
Qed.

Lemma filled_cell g l : filled g l -> cell g l = 0.
Proof. unfold filled, cell. intros ->. reflexivity. Qed.

Lemma filled_iff g l :
  well_formed g -> filled g l <-> in_bounds g l = true /\ cell g l = 0.
Proof.
  intros Hwf. split.
  - intros H. split; [apply (getitem_inv _ _ _ H)|apply filled_cell, H].
  - intros [Hb Hc]. unfold filled. rewrite getitem_cell, Hc by assumption.
    reflexivity.
Qed.

Lemma unfilled_iff g l :
  well_formed g -> unfilled g l <-> in_bounds g l = true /\ cell g l <> 0.
Proof.
  intros Hwf. split.
  - intros (v & Hv & Hne). split; [apply (getitem_inv _ _ _ Hv)|].
    unfold cell. rewrite Hv. assumption.
  - intros [Hb Hc]. exists (cell g l). split; [apply getitem_cell|]; assumption.
Qed.

Lemma setitem_shape g l v g' :
  setitem g l v = Ok g' -> dim_x g' = dim_x g /\ dim_y g' = dim_y g.
Proof.
  unfold setitem. destruct (in_bounds g l); [|discriminate].
  intros [= <-]. auto.
Qed.

Lemma setitem_in_bounds g l v g' l' :
  setitem g l v = Ok g' -> in_bounds g' l' = in_bounds g l'.
Proof.
  intros H. apply setitem_shape in H as [Hx Hy].
  unfold in_bounds. rewrite Hx, Hy. reflexivity.
Qed.

Lemma setitem_well_formed g l v g' :
  well_formed g -> in_int64 v -> setitem g l v = Ok g' -> well_formed g'.
Proof.
  intros [Hlen Hr] Hv. unfold setitem.
  destruct (in_bounds g l); [|discriminate]. intros [= <-].
  split; simpl.
  - rewrite length_insert. assumption.
  - apply Forall_insert; assumption.
Qed.

Lemma setitem_total g l v :
  in_bounds g l = true -> exists g', setitem g l v = Ok g'.
Proof. intros Hb. unfold setitem. rewrite Hb. eauto. Qed.

Lemma getitem_setitem_eq g l v g' :
  well_formed g -> setitem g l v = Ok g' -> getitem g' l = Ok v.
Proof.
  intros [Hlen _]. unfold setitem.
  destruct (in_bounds g l) eqn:Hb; [|discriminate]. intros [= <-].
  unfold getitem, in_bounds, offset in *. simpl. rewrite Hb.
  rewrite list_lookup_insert_eq; [reflexivity|].
  apply offset_lt in Hb. unfold offset in Hb. lia.
Qed.

Lemma getitem_setitem_ne g l v g' l' :
  setitem g l v = Ok g' -> l <> l' -> getitem g' l' = getitem g l'.
Proof.
  unfold setitem. destruct (in_bounds g l) eqn:Hb; [|discriminate].
  intros [= <-] Hne. unfold getitem.
  change (in_bounds _ l') with (in_bounds g l').
  destruct (in_bounds g l') eqn:Hb'; [|reflexivity].
  change (offset _ l') with (offset g l'). simpl.
  rewrite list_lookup_insert_ne; [reflexivity|].
  intros Heq. apply Hne. eapply offset_inj; eauto.
Qed.

Lemma cell_setitem_ne g l v g' l' :
  setitem g l v = Ok g' -> l <> l' -> cell g' l' = cell g l'.
Proof.
  intros Hs Hne. unfold cell. rewrite (getitem_setitem_ne _ _ _ _ _ Hs Hne).
  reflexivity.
Qed.

Lemma well_formedb_spec g : well_formedb g = true -> well_formed g.
Proof.
  unfold well_formedb, well_formed. rewrite andb_true_iff, forallb_forall.
  intros [Hlen Hr]. split; [apply Nat.eqb_eq, Hlen|].
  apply List.Forall_forall. intros v Hv. specialize (Hr v Hv).
  unfold in_int64. lia.
Qed.

(** ** Adjacency *)

Lemma neighbours_spec l n : In n (neighbours l) <-> adjacent l n.
Proof.
  destruct l as [x y], n as [a b]. unfold neighbours, adjacent. simpl.
  rewrite !in_app_iff. simpl.
  assert (Hp : forall p q : nat, (p, q) = (a, b) <-> p = a /\ q = b).
  { intros p q. split; [intros [= -> ->]; auto|intros [-> ->]; auto]. }
  destruct (Nat.ltb_spec 0 x), (Nat.ltb_spec 0 y); simpl; rewrite ?Hp; lia.
Qed.
Lemma filled_neighbour_spec g l :
  well_formed g ->
  filled_neighbour g l = true <-> exists n, adjacent l n /\ filled g n.
Proof.
  intros Hwf. unfold filled_neighbour. rewrite existsb_exists. split.
  - intros (n & Hin & Hn). apply andb_true_iff in Hn as [Hb Hz].
    exists n. split; [apply neighbours_spec, Hin|].
    apply filled_iff; [assumption|]. split; [assumption|lia].
  - intros (n & Hadj & Hf). apply filled_iff in Hf as [Hb Hz]; [|assumption].
    exists n. split; [apply neighbours_spec, Hadj|].
    rewrite Hb, Hz. reflexivity.
Qed.

Lemma candidateb_spec g l :
  well_formed g -> candidateb g l = true <-> candidate g l.
Proof.
  intros Hwf. unfold candidateb, candidate.
  rewrite !andb_true_iff, negb_true_iff, Z.eqb_neq.
  rewrite filled_neighbour_spec, unfilled_iff by assumption. tauto.
Qed.

Lemma is_zero_cell g n :
  well_formed g -> in_bounds g n = true -> is_zero g n = Ok (cell g n =? 0).
Proof.
  intros Hwf Hb. unfold is_zero. rewrite getitem_cell by assumption.
  reflexivity.
Qed.

Lemma and_then_is_zero g c n :
  well_formed g -> (c = true -> in_bounds g n = true) ->
  and_then c (is_zero g n) = Ok (c && (cell g n =? 0)).
Proof.
  intros Hwf Hc. destruct c; simpl; [|reflexivity].
  apply is_zero_cell; auto.
Qed.

Lemma return_true_if_ok b rest :
  return_true_if (Ok b) rest = if b then Ok true else rest.
Proof. reflexivity. Qed.

(** On a cell of the grid, the four tests succeed and find exactly the
    filled neighbours. *)
Lemma neighbour_tests_spec g l :
  well_formed g -> in_bounds g l = true ->
  neighbour_tests g l = Ok (filled_neighbour g l).
Proof.
  intros Hwf Hb. destruct l as [x y].
  apply in_bounds_spec in Hb as [Hx Hy]. simpl in Hx, Hy.
  unfold neighbour_tests, shape.
  rewrite (and_then_is_zero g _ ((x - 1)%nat, y)), return_true_if_ok; [|assumption|].
  2:{ intros Hc. apply in_bounds_spec. simpl. lia. }
  rewrite (and_then_is_zero g _ (x, (y - 1)%nat)), return_true_if_ok; [|assumption|].
  2:{ intros Hc. apply in_bounds_spec. simpl. lia. }
  rewrite (and_then_is_zero g _ ((x + 1)%nat, y)), return_true_if_ok; [|assumption|].
  2:{ intros Hc. apply in_bounds_spec. simpl. lia. }
  rewrite (and_then_is_zero g _ (x, (y + 1)%nat)), return_true_if_ok; [|assumption|].
  2:{ intros Hc. apply in_bounds_spec. simpl. lia. }
  unfold filled_neighbour, neighbours.
  assert (Hd : in_bounds g ((x + 1)%nat, y) = (Z.of_nat x <? Z.of_nat (dim_x g) - 1)).
  { unfold in_bounds. simpl.
    destruct (Nat.ltb_spec (x + 1) (dim_x g)), (Nat.ltb_spec y (dim_y g)),
      (Z.ltb_spec (Z.of_nat x) (Z.of_nat (dim_x g) - 1)); simpl; try reflexivity; lia. }
  assert (Hr : in_bounds g (x, (y + 1)%nat) = (Z.of_nat y <? Z.of_nat (dim_y g) - 1)).
  { unfold in_bounds. simpl.
    destruct (Nat.ltb_spec x (dim_x g)), (Nat.ltb_spec (y + 1) (dim_y g)),
      (Z.ltb_spec (Z.of_nat y) (Z.of_nat (dim_y g) - 1)); simpl; try reflexivity; lia. }
  assert (Hu : (0 <? x)%nat = true -> in_bounds g ((x - 1)%nat, y) = true).
  { intros H. apply Nat.ltb_lt in H. apply in_bounds_spec. simpl. lia. }
  assert (Hl : (0 <? y)%nat = true -> in_bounds g (x, (y - 1)%nat) = true).
  { intros H. apply Nat.ltb_lt in H. apply in_bounds_spec. simpl. lia. }
  assert (Hux : (0 <? Z.of_nat x) = (0 <? x)%nat).
  { destruct (Z.ltb_spec 0 (Z.of_nat x)), (Nat.ltb_spec 0 x); try reflexivity; lia. }
  assert (Hly : (0 <? Z.of_nat y) = (0 <? y)%nat).
  { destruct (Z.ltb_spec 0 (Z.of_nat y)), (Nat.ltb_spec 0 y); try reflexivity; lia. }
  rewrite Hux, Hly, <- Hd, <- Hr.
  destruct (0 <? x)%nat eqn:Ex; destruct (0 <? y)%nat eqn:Ey; simpl;
    rewrite ?(Hu eq_refl), ?(Hl eq_refl); simpl;
    destruct (cell g ((x - 1)%nat, y) =? 0), (cell g (x, (y - 1)%nat) =? 0),
      (in_bounds g ((x + 1)%nat, y) && (cell g ((x + 1)%nat, y) =? 0)),
      (in_bounds g (x, (y + 1)%nat) && (cell g (x, (y + 1)%nat) =? 0));
    reflexivity.
Qed.

Lemma original_is_adjacent_spec g l :
  well_formed g -> in_bounds g l = true ->
  Original.is_adjacent g l = Ok (filled_neighbour g l).
Proof. apply neighbour_tests_spec. Qed.

Lemma tested_is_adjacent_spec g l :
  well_formed g -> in_bounds g l = true ->
  Tested.is_adjacent g l = Ok (negb (cell g l =? 0) && filled_neighbour g l).
Proof.
  intros Hwf Hb. unfold Tested.is_adjacent.
  rewrite getitem_cell by assumption. simpl.
  destruct (cell g l =? 0); [reflexivity|].
  apply neighbour_tests_spec; assumption.
Qed.

(** ** Loops *)

Lemma for_each_app {A S} (xs ys : list A) (body : A -> S -> res S) s :
  for_each (xs ++ ys) body s = s' ← for_each xs body s; for_each ys body s'.
Proof.
  revert s. induction xs as [|x xs IH]; intros s; simpl.
  - reflexivity.
  - destruct (body x s); simpl; auto.
Qed.

Lemma for_each_map {A B S} (f : A -> B) (xs : list A) (body : B -> S -> res S) s :
  for_each (map f xs) body s = for_each xs (fun a => body (f a)) s.
Proof.
  revert s. induction xs as [|x xs IH]; intros s; simpl; [reflexivity|].
  destruct (body (f x) s); simpl; auto.
Qed.

(** Two nested [for]s are one [for] over the pairs. *)
Lemma for_each_nested {S} (xs ys : list nat) (body : nat -> nat -> S -> res S) s :
  for_each xs (fun x => for_each ys (body x)) s
  = for_each (flat_map (fun x => map (fun y => (x, y)) ys) xs)
             (fun l => body (fst l) (snd l)) s.
Proof.
  revert s. induction xs as [|x xs IH]; intros s; simpl; [reflexivity|].
  rewrite for_each_app, for_each_map. simpl.
  destruct (for_each ys (body x) s); simpl; auto.
Qed.

(** A loop whose body never raises is a fold. *)
Lemma for_each_fold {A S} (xs : list A) (body : A -> S -> res S) (step : S -> A -> S) s :
  (forall a s', In a xs -> body a s' = Ok (step s' a)) ->
  for_each xs body s = Ok (fold_left step xs s).
Proof.
  revert s. induction xs as [|x xs IH]; intros s Hb; simpl; [reflexivity|].
  rewrite Hb by (left; reflexivity). simpl. apply IH.
  intros a s' Ha. apply Hb. right. assumption.
Qed.

(** ** The locations of a grid *)

Lemma all_locs_spec g l : In l (all_locs g) <-> in_bounds g l = true.
Proof.
  unfold all_locs, range. rewrite in_flat_map, in_bounds_spec. split.
  - intros (x & Hx & Hl). apply in_map_iff in Hl as (y & <- & Hy).
    apply in_seq in Hx, Hy. simpl. lia.
  - intros [Hx Hy]. exists (fst l). split; [apply in_seq; lia|].
    apply in_map_iff. exists (snd l). split; [destruct l; reflexivity|].
    apply in_seq. lia.
Qed.

Lemma NoDup_flat_map_pairs (xs ys : list nat) :
  List.NoDup xs -> List.NoDup ys ->
  List.NoDup (flat_map (fun x => map (fun y => (x, y)) ys) xs).
Proof.
  intros Hxs Hys. induction Hxs as [|x xs Hx Hxs IH]; simpl; [constructor|].
  apply List.NoDup_app.
  - apply Finite.Injective_map_NoDup; [|assumption].
    intros a b [= ->]. reflexivity.
  - apply IH.
  - intros l Hl Hl'.
    apply in_map_iff in Hl as (y & <- & _).
    apply in_flat_map in Hl' as (x' & Hx' & Hl').
    apply in_map_iff in Hl' as (y' & [= -> ->] & _). contradiction.
Qed.

Lemma all_locs_NoDup g : List.NoDup (all_locs g).
Proof.
  apply NoDup_flat_map_pairs; apply List.seq_NoDup.
Qed.

Lemma all_locs_length g : length (all_locs g) = size g.
Proof.
  unfold all_locs, size, range. generalize (dim_y g) as m. intros m.
  generalize 0%nat at 2 as s. induction (dim_x g) as [|n IH]; intros s; simpl.
  - reflexivity.
  - rewrite length_app, length_map, length_seq, IH. reflexivity.
Qed.

(** ** The maximum of a grid *)

Lemma fold_max_ge (vs : list Z) v : v <= fold_left Z.max vs v.
Proof.
  revert v. induction vs as [|a vs IH]; intros v; simpl; [lia|].
  specialize (IH (Z.max v a)). lia.
Qed.

Lemma fold_max_upper (vs : list Z) v a : In a vs -> a <= fold_left Z.max vs v.
Proof.
  revert v. induction vs as [|b vs IH]; intros v; simpl; [tauto|].
  intros [->|Hin]; [|auto].
  pose proof (fold_max_ge vs (Z.max v a)). lia.
Qed.

Lemma fold_max_In (vs : list Z) v : In (fold_left Z.max vs v) (v :: vs).
Proof.
  revert v. induction vs as [|a vs IH]; intros v; simpl; [auto|].
  destruct (IH (Z.max v a)) as [H|H]; [|right; right; exact H].
  rewrite <- H.
  destruct (Z.max_spec v a) as [[_ E]|[_ E]]; rewrite E; [right; left|left];
    reflexivity.
Qed.

Lemma amax_upper g m l v : amax g = Ok m -> getitem g l = Ok v -> v <= m.
Proof.
  unfold amax. intros Hm Hg. apply getitem_inv in Hg as [_ Hl].
  apply list_elem_of_lookup_2, list_elem_of_In in Hl.
  destruct (buf g) as [|a vs]; [discriminate|]. injection Hm as <-.
  destruct Hl as [->|Hin]; [apply fold_max_ge|apply fold_max_upper, Hin].
Qed.

Lemma amax_in_int64 g m : well_formed g -> amax g = Ok m -> in_int64 m.
Proof.
  intros [_ Hr] Hm. unfold amax in Hm.
  destruct (buf g) as [|a vs] eqn:E; [discriminate|]. injection Hm as <-.
  rewrite List.Forall_forall in Hr. apply Hr. apply fold_max_In.
Qed.

Lemma amax_total g : (0 < size g)%nat -> well_formed g -> exists m, amax g = Ok m.
Proof.
  intros Hs [Hlen _]. unfold amax, size in *.
  destruct (buf g); [simpl in Hlen; lia|eauto].
Qed.

Lemma amax_empty g : size g = 0%nat -> well_formed g -> amax g = Raise ValueError.
Proof.
  intros Hs [Hlen _]. unfold amax, size in *.
  destruct (buf g); [reflexivity|simpl in Hlen; lia].
Qed.

Lemma wrap64_id z : in_int64 z -> wrap64 z = z.
Proof.
  unfold in_int64, int64_min, int64_max, wrap64. intros H.
  rewrite Z.mod_small; lia.
Qed.

Lemma wrap64_overflow : wrap64 (1 + int64_max) = int64_min.
Proof. reflexivity. Qed.

(** ** The scan as a fold *)

Lemma select_step_not_candidate g st l :
  candidateb g l = false -> select_step g st l = st.
Proof. unfold select_step. destruct st. intros ->. reflexivity. Qed.

Lemma fst_select_fold g ls value cs :
  fst (fold_left (select_step g) ls (value, cs)) = least g ls value.
Proof.
  unfold least. revert value cs.
  induction ls as [|l ls IH]; intros value cs; simpl; [reflexivity|].
  destruct (candidateb g l); [|apply IH].
  destruct (Z.ltb_spec (cell g l) value).
  - rewrite IH. f_equal. lia.
  - destruct (Z.eqb_spec (cell g l) value); rewrite IH; f_equal; lia.
Qed.

Lemma least_le g ls v : least g ls v <= v.
Proof.
  unfold least. revert v. induction ls as [|l ls IH]; intros v; simpl; [lia|].
  destruct (candidateb g l); [|apply IH].
  specialize (IH (Z.min v (cell g l))). lia.
Qed.

Lemma least_lower g ls v l :
  In l ls -> candidateb g l = true -> least g ls v <= cell g l.
Proof.
  unfold least. revert v. induction ls as [|a ls IH]; intros v; simpl; [tauto|].
  intros [->|Hin] Hc.
  - rewrite Hc. pose proof (least_le g ls (Z.min v (cell g l))).
    unfold least in *. lia.
  - apply IH; assumption.
Qed.

Lemma least_attained g ls v :
  least g ls v = v \/
  exists l, In l ls /\ candidateb g l = true /\ cell g l = least g ls v.
Proof.
  unfold least. revert v. induction ls as [|a ls IH]; intros v; simpl; [auto|].
  destruct (candidateb g a) eqn:Hc.
  - destruct (IH (Z.min v (cell g a))) as [E|(l & Hl & Hlc & E)].
    + rewrite E. destruct (Z.min_spec v (cell g a)) as [[_ E']|[_ E']];
        rewrite E'; [auto|]. right. exists a. auto.
    + right. exists l. auto.
  - destruct (IH v) as [E|(l & Hl & Hlc & E)]; [auto|].
    right. exists l. auto.
Qed.

(** The list the scan ends with: the candidates kept from before, if
    none undercut them, then the candidates of least value in order. *)
Lemma snd_select_fold g ls value cs :
  snd (fold_left (select_step g) ls (value, cs))
  = (if least g ls value =? value then cs else [])
    ++ List.filter (fun l => candidateb g l && (cell g l =? least g ls value)) ls.
Proof.
  revert value cs. induction ls as [|l ls IH]; intros value cs.
  - simpl. rewrite Z.eqb_refl, app_nil_r. reflexivity.
  - change (least g (l :: ls) value)
      with (least g ls (if candidateb g l then Z.min value (cell g l) else value)).
    simpl. destruct (candidateb g l) eqn:Hc; simpl; [|apply IH].
    destruct (Z.ltb_spec (cell g l) value) as [Hlt|Hge].
    + rewrite IH. replace (Z.min value (cell g l)) with (cell g l) by lia.
      pose proof (least_le g ls (cell g l)) as Hle.
      destruct (Z.eqb_spec (least g ls (cell g l)) value); [lia|].
      rewrite (Z.eqb_sym (cell g l)). simpl.
      destruct (least g ls (cell g l) =? cell g l); reflexivity.
    + replace (Z.min value (cell g l)) with value by lia.
      destruct (Z.eqb_spec (cell g l) value) as [Heq|Hne]; rewrite IH.
      * rewrite Heq. rewrite (Z.eqb_sym value).
        destruct (least g ls value =? value); [|reflexivity].
        rewrite <- app_assoc. reflexivity.
      * pose proof (least_le g ls value) as Hle.
        destruct (Z.eqb_spec (cell g l) (least g ls value)); [lia|]. reflexivity.
Qed.

(** ** What [choose_next] collects *)

Lemma min_candidateb_spec g l :
  well_formed g -> min_candidateb g l = true <-> min_candidate g l.
Proof.
  intros Hwf. unfold min_candidateb, min_candidate.
  rewrite andb_true_iff, candidateb_spec, forallb_forall by assumption.
  split; intros [Hc Hmin]; (split; [assumption|]).
  - intros c vc vl Hcc Hvc Hvl.
    assert (Hb : in_bounds g c = true) by apply (getitem_inv _ _ _ Hvc).
    specialize (Hmin c (proj2 (all_locs_spec g c) Hb)).
    apply candidateb_spec in Hcc; [|assumption]. rewrite Hcc in Hmin. simpl in Hmin.
    unfold cell in Hmin. rewrite Hvc, Hvl in Hmin. lia.
  - intros c Hin. destruct (candidateb g c) eqn:Hcc; [simpl|reflexivity].
    apply candidateb_spec in Hcc; [|assumption].
    apply all_locs_spec in Hin.
    destruct Hc as [(vl & Hvl & _) _].
    pose proof (getitem_cell g c Hwf Hin) as Hvc.
    specialize (Hmin c _ _ Hcc Hvc Hvl). unfold cell at 1. rewrite Hvl. lia.
Qed.

Section Scan.

Variable is_adjacent : ndarray -> loc -> res bool.

(** What [choose_next] needs of [is_adjacent]: on an unfilled cell of
    the grid it tells whether a neighbour is filled. *)
Hypothesis is_adjacent_unfilled : forall g l,
  well_formed g -> in_bounds g l = true -> cell g l <> 0 ->
  is_adjacent g l = Ok (filled_neighbour g l).

Lemma scan_cell_step g x y st :
  well_formed g -> in_bounds g (x, y) = true ->
  scan_cell is_adjacent g x y st = Ok (select_step g st (x, y)).
Proof using is_adjacent_unfilled.
  intros Hwf Hb. unfold scan_cell, select_step, candidateb. destruct st as [value cs].
  rewrite !getitem_cell by assumption. rewrite Hb. simpl.
  destruct (Z.eqb_spec (cell g (x, y)) 0) as [Hz|Hnz]; simpl; [reflexivity|].
  rewrite is_adjacent_unfilled by assumption. simpl.
  destruct (filled_neighbour g (x, y)); [|reflexivity].
  destruct (cell g (x, y) <? value); [reflexivity|].
  destruct (cell g (x, y) =? value); reflexivity.
Qed.

Lemma scan_fold g :
  well_formed g ->
  scan is_adjacent g
  = m ← amax g;
    Ok (snd (fold_left (select_step g) (all_locs g) (wrap64 (1 + m), []))).
Proof using is_adjacent_unfilled.
  intros Hwf. unfold scan, shape. destruct (amax g) as [m| |]; simpl; try reflexivity.
  rewrite for_each_nested.
  change (flat_map _ (range (dim_x g))) with (all_locs g).
  rewrite (for_each_fold _ _ (select_step g)); [reflexivity|].
  intros [x y] st Hin. apply scan_cell_step; [assumption|].
  apply all_locs_spec, Hin.
Qed.

(** The candidates collected are those whose value is the least of the
    starting [value] and every candidate's. *)
Lemma scan_filter g m :
  well_formed g -> amax g = Ok m ->
  scan is_adjacent g
  = Ok (List.filter
          (fun l => candidateb g l
                    && (cell g l =? least g (all_locs g) (wrap64 (1 + m))))
          (all_locs g)).
Proof using is_adjacent_unfilled.
  intros Hwf Hm. rewrite scan_fold, Hm by assumption. simpl.
  rewrite snd_select_fold.
  destruct (least g (all_locs g) (wrap64 (1 + m)) =? wrap64 (1 + m)); reflexivity.
Qed.

Lemma scan_inv g cs :
  well_formed g -> scan is_adjacent g = Ok cs ->
  exists m, amax g = Ok m /\
    cs = List.filter
           (fun l => candidateb g l
                     && (cell g l =? least g (all_locs g) (wrap64 (1 + m))))
           (all_locs g).
Proof using is_adjacent_unfilled.
  intros Hwf Hs. destruct (amax g) as [m| |] eqn:Hm.
  - rewrite (scan_filter g m Hwf Hm) in Hs. injection Hs as <-. eauto.
  - rewrite scan_fold, Hm in Hs by assumption. discriminate.
  - rewrite scan_fold, Hm in Hs by assumption. discriminate.
Qed.

Lemma scan_raises_on_empty g :
  well_formed g -> size g = 0%nat -> scan is_adjacent g = Raise ValueError.
Proof using is_adjacent_unfilled.
  intros Hwf Hs. rewrite scan_fold, (amax_empty g) by assumption. reflexivity.
Qed.

Lemma scan_total g :
  well_formed g -> (0 < size g)%nat -> exists cs, scan is_adjacent g = Ok cs.
Proof using is_adjacent_unfilled.
  intros Hwf Hs. destruct (amax_total g Hs Hwf) as [m Hm].
  rewrite (scan_filter g m) by assumption. eauto.
Qed.

(** Every location collected is a candidate of least value, whatever the
    starting [value] was. *)
Lemma scan_sound g cs l :
  well_formed g -> scan is_adjacent g = Ok cs -> In l cs -> min_candidate g l.
Proof using is_adjacent_unfilled.
  intros Hwf Hs Hin. apply scan_inv in Hs as (m & Hm & ->); [|assumption].
  apply filter_In in Hin as [Hl Hc]. apply andb_true_iff in Hc as [Hc Hv].
  apply Z.eqb_eq in Hv. apply min_candidateb_spec; [assumption|].
  unfold min_candidateb. rewrite Hc. simpl. apply forallb_forall.
  intros c Hcin. destruct (candidateb g c) eqn:Hcc; [simpl|reflexivity].
  pose proof (least_lower g (all_locs g) (wrap64 (1 + m)) c Hcin Hcc). lia.
Qed.

Lemma scan_NoDup g cs :
  well_formed g -> scan is_adjacent g = Ok cs -> List.NoDup cs.
Proof using is_adjacent_unfilled.
  intros Hwf Hs. apply scan_inv in Hs as (m & Hm & ->); [|assumption].
  apply List.NoDup_filter, all_locs_NoDup.
Qed.

(** When [1 + grid.max()] does not wrap around, the locations collected
    are all the candidates of least value. *)
Lemma scan_complete g m :
  well_formed g -> amax g = Ok m -> m < int64_max ->
  scan is_adjacent g = Ok (min_candidates g).
Proof using is_adjacent_unfilled.
  intros Hwf Hm Hlt. rewrite (scan_filter g m Hwf Hm). f_equal.
  unfold min_candidates. apply filter_ext_in. intros l Hl.
  unfold min_candidateb. destruct (candidateb g l) eqn:Hc; [simpl|reflexivity].
  pose proof (amax_in_int64 g m Hwf Hm) as Hr.
  rewrite wrap64_id by (unfold in_int64, int64_min, int64_max in *; lia).
  assert (Hup : forall c, In c (all_locs g) -> cell g c <= m).
  { intros c Hcin. apply all_locs_spec in Hcin.
    apply (amax_upper g m c); [assumption|apply getitem_cell; assumption]. }
  set (v := least g (all_locs g) (1 + m)).
  assert (Hlow : forall c, In c (all_locs g) -> candidateb g c = true -> v <= cell g c).
  { intros c Hcin Hcc. apply least_lower; assumption. }
  destruct (least_attained g (all_locs g) (1 + m)) as [E|(c & Hcin & Hcc & E)].
  - pose proof (Hlow l Hl Hc). pose proof (Hup l Hl). fold v in E. lia.
  - fold v in E. destruct (Z.eqb_spec (cell g l) v) as [Hv|Hv].
    + symmetry. apply forallb_forall. intros c' Hc'.
      destruct (candidateb g c') eqn:Hcc'; [simpl|reflexivity].
      pose proof (Hlow c' Hc' Hcc'). lia.
    + symmetry. apply not_true_is_false. intros Hall.
      rewrite forallb_forall in Hall. specialize (Hall c Hcin).
      rewrite Hcc in Hall. simpl in Hall. pose proof (Hlow l Hl Hc). lia.
Qed.

End Scan.

(** ** The two notebooks collect the same candidates *)

Lemma for_each_ext {A S} (xs : list A) (body body' : A -> S -> res S) s :
  (forall a s', body a s' = body' a s') ->
  for_each xs body s = for_each xs body' s.
Proof.
  intros Hb. revert s. induction xs as [|x xs IH]; intros s; simpl; [reflexivity|].
  rewrite Hb. destruct (body' x s); simpl; auto.
Qed.

(** [choose_next] calls [is_adjacent] only after it has read a non-zero
    value at the location, where the guard of the second notebook falls
    through to the tests of the first. *)
Lemma scan_cell_agree g x y st :
  scan_cell Tested.is_adjacent g x y st = scan_cell Original.is_adjacent g x y st.
Proof.
  unfold scan_cell. destruct st as [value cs].
  destruct (getitem g (x, y)) as [v| |] eqn:Hv; simpl; try reflexivity.
  destruct (v =? 0) eqn:Hz; [reflexivity|].
  unfold Tested.is_adjacent, Original.is_adjacent. rewrite Hv. simpl.
  rewrite Hz. reflexivity.
Qed.

Lemma scan_agree g : Tested.scan g = Original.scan g.
Proof.
  unfold Tested.scan, Original.scan, scan, shape.
  destruct (amax g) as [m| |]; simpl; try reflexivity.
  assert (E : forall st,
    for_each (range (dim_x g))
      (fun x => for_each (range (dim_y g))
                  (fun y => scan_cell Tested.is_adjacent g x y)) st
    = for_each (range (dim_x g))
        (fun x => for_each (range (dim_y g))
                    (fun y => scan_cell Original.is_adjacent g x y)) st).
  { intros st. apply for_each_ext. intros x st'. apply for_each_ext.
    intros y st''. apply scan_cell_agree. }
  rewrite E. reflexivity.
Qed.

Lemma choose_next_agree e w : Tested.choose_next e w = Original.choose_next e w.
Proof.
  unfold Tested.choose_next, Original.choose_next, choose_next.
  fold Tested.scan. fold Original.scan. rewrite scan_agree. reflexivity.
Qed.

(** C10. For every grid, the [choose_next] whose [is_adjacent] has no
    guard for filled cells and the one whose [is_adjacent] returns false
    on them build the same list of candidates, and so return the same
    result and leave the same state for every random draw. *)
Theorem choose_next_versions_agree :
  forall (g : ndarray) (e : entropy) (w : world),
    Tested.scan g = Original.scan g /\
    Tested.choose_next e w = Original.choose_next e w.
Proof.
  intros g e w. split; [apply scan_agree|apply choose_next_agree].
Qed.

(** ** [choose_next] writes nothing *)

Lemma choose_next_frame is_adjacent e w :
  arr (snd (choose_next is_adjacent e w)) = arr w /\
  trace (snd (choose_next is_adjacent e w)) = trace w.
Proof.
  unfold choose_next. destruct (scan is_adjacent (arr w)); simpl; auto.
  destruct (random_choice _ _); simpl; auto.
Qed.

(** ** The location [choose_next] returns *)

Lemma random_choice_In {A} raw (xs : list A) a :
  random_choice raw xs = Ok a -> In a xs.
Proof.
  unfold random_choice.
  destruct (xs !! (raw mod length xs)%nat) as [b|] eqn:E; [|discriminate].
  intros [= <-]. apply list_elem_of_In. eapply list_elem_of_lookup_2, E.
Qed.

Lemma random_choice_total {A} raw (xs : list A) :
  xs <> [] -> exists a, random_choice raw xs = Ok a.
Proof.
  intros Hne. unfold random_choice.
  destruct (xs !! (raw mod length xs)%nat) as [b|] eqn:E; [eauto|].
  apply lookup_ge_None in E. destruct xs; [contradiction|].
  simpl in E. pose proof (Nat.mod_upper_bound raw (S (length xs))). lia.
Qed.

Lemma random_choice_empty {A} raw : random_choice raw (@nil A) = Raise IndexError.
Proof. reflexivity. Qed.

Lemma choose_next_inv is_adjacent e w l w' :
  choose_next is_adjacent e w = (Ok l, w') ->
  exists cs, scan is_adjacent (arr w) = Ok cs /\ In l cs.
Proof.
  unfold choose_next. destruct (scan is_adjacent (arr w)) as [cs| |];
    try discriminate.
  destruct (random_choice (py_draw e (draws w)) cs) as [l'| |] eqn:Hc;
    intros [= <- _].
  exists cs. split; [reflexivity|]. eapply random_choice_In, Hc.
Qed.

Lemma original_choose_next_sound e w l w' :
  well_formed (arr w) -> Original.choose_next e w = (Ok l, w') ->
  min_candidate (arr w) l.
Proof.
  intros Hwf Hc. apply choose_next_inv in Hc as (cs & Hs & Hin).
  eapply (scan_sound Original.is_adjacent); eauto.
  intros g l' Hg Hb _. apply original_is_adjacent_spec; assumption.
Qed.

(** C1. Whenever [choose_next] returns a location, that location is a
    candidate (an unfilled cell with a filled neighbour) and no
    candidate of the grid has a smaller value. *)
Theorem choose_next_returns_min_candidate :
  forall (e : entropy) (w w' : world) (l : loc),
    well_formed (arr w) ->
    Original.choose_next e w = (Ok l, w') \/ Tested.choose_next e w = (Ok l, w') ->
    min_candidate (arr w) l.
Proof.
  intros e w w' l Hwf [H|H].
  - apply (original_choose_next_sound e w l w' Hwf H).
  - rewrite choose_next_agree in H.
    apply (original_choose_next_sound e w l w' Hwf H).
Qed.

Lemma choose_next_returns_min_candidate_witness :
  min_candidate grid_b (2, 1)%nat.
Proof.
  apply (choose_next_returns_min_candidate zero_entropy
           (mk_world grid_b 0 []) (mk_world grid_b 1 []) (2, 1)%nat).
  - apply well_formedb_spec. reflexivity.
  - left. vm_compute. reflexivity.
Defined.

(** ** The adjacency test *)

(** The [is_adjacent] with the guard answers, on every cell of the grid,
    whether the cell is unfilled with a filled neighbour. *)
Lemma tested_is_adjacent_iff g l :
  well_formed g -> in_bounds g l = true ->
  exists b, Tested.is_adjacent g l = Ok b /\
            (b = true <-> unfilled g l /\ exists n, adjacent l n /\ filled g n).
Proof.
  intros Hwf Hb. eexists. split; [apply tested_is_adjacent_spec; assumption|].
  rewrite andb_true_iff, negb_true_iff, Z.eqb_neq.
  rewrite filled_neighbour_spec, unfilled_iff by assumption. tauto.
Qed.

Lemma tested_is_adjacent_filled g l :
  well_formed g -> filled g l -> Tested.is_adjacent g l = Ok false.
Proof.
  intros Hwf Hf. unfold Tested.is_adjacent. rewrite Hf. reflexivity.
Qed.

(** The [is_adjacent] without the guard answers whether a neighbour is
    filled, whatever the cell itself holds. *)
Lemma original_is_adjacent_iff g l :
  well_formed g -> in_bounds g l = true ->
  exists b, Original.is_adjacent g l = Ok b /\
            (b = true <-> exists n, adjacent l n /\ filled g n).
Proof.
  intros Hwf Hb. eexists. split; [apply original_is_adjacent_spec; assumption|].
  apply filled_neighbour_spec, Hwf.
Qed.

(** C4. On the grid [[0, 0]] the first notebook's [is_adjacent] returns
    true at (0, 0), a filled cell, where the claim (and the second
    notebook's [is_adjacent]) gives false. *)
Theorem original_is_adjacent_true_on_filled_cell :
  well_formed grid_pair /\ in_bounds grid_pair (0, 0)%nat = true /\
  filled grid_pair (0, 0)%nat /\
  Original.is_adjacent grid_pair (0, 0)%nat = Ok true /\
  Tested.is_adjacent grid_pair (0, 0)%nat = Ok false.
Proof.
  split; [apply well_formedb_spec; reflexivity|]. repeat split.
Qed.

(** ** The checks of [percolation] *)

(** The second notebook's [percolation] rejects arguments that are not a
    positive odd [int] and a positive [int] before it allocates. *)
Lemma tested_percolation_rejects fuel size spread e :
  ~ (valid_size size /\ valid_spread spread) ->
  exists msg, Tested.percolation fuel size spread e = (Raise (AssertionError msg), []).
Proof.
  intros Hinv. unfold Tested.percolation.
  destruct size as [sz|]; [|eauto].
  destruct (Z.ltb_spec 0 sz); simpl; [|eauto].
  destruct (Z.eqb_spec (sz mod 2) 1); simpl; [|eauto].
  destruct spread as [sp|]; [|eauto].
  destruct (Z.ltb_spec 0 sp); simpl; [|eauto].
  exfalso. apply Hinv. split; [exists sz|exists sp]; auto.
Qed.

(** Either the assertions reject the call, or the arguments are a
    positive odd [int] and a positive [int]. *)
Lemma tested_percolation_cases fuel size spread e :
  (exists msg,
     Tested.percolation fuel size spread e = (Raise (AssertionError msg), [])) \/
  (exists sz sp, size = PyInt sz /\ spread = PyInt sp /\
                 0 < sz /\ sz mod 2 = 1 /\ 0 < sp).
Proof.
  destruct size as [sz|]; [|left; eexists; reflexivity].
  destruct spread as [sp|].
  - destruct (Z.ltb_spec 0 sz) as [Hsz|Hsz],
             (Z.eqb_spec (sz mod 2) 1) as [Hodd|Hodd],
             (Z.ltb_spec 0 sp) as [Hsp|Hsp];
      try (right; exists sz, sp; auto; fail);
      left; apply tested_percolation_rejects;
      intros [(n & [= <-] & H1 & H2) (n' & [= <-] & H3)]; lia.
  - left. apply tested_percolation_rejects.
    intros [_ (n' & Hn & _)]. discriminate.
Qed.

(** C3. The first notebook's [percolation] called with size 4, which is
    not odd, and spread 5 allocates a 4 x 4 grid, fills three cells and
    returns, where the claim (and the second notebook) reject the call
    before any allocation. *)
Theorem original_percolation_accepts_even_size :
  ~ valid_size (PyInt 4) /\
  (exists r, fst (Original.percolation 16 4 5 zero_entropy) = Ok r) /\
  snd (Original.percolation 16 4 5 zero_entropy)
  = [EvAlloc 4 4; EvFill (2, 2)%nat; EvFill (1, 2)%nat; EvFill (0, 2)%nat] /\
  Tested.percolation 16 (PyInt 4) (PyInt 5) zero_entropy
  = (Raise (AssertionError "size must be positive odd integer"), []).
Proof.
  split; [|split; [|split]].
  - intros (n & [= <-] & _ & Hodd). discriminate.
  - eexists. vm_compute. reflexivity.
  - vm_compute. reflexivity.
  - reflexivity.
Qed.

(** ** When [choose_next] has a result *)

Lemma original_is_adjacent_unfilled g l :
  well_formed g -> in_bounds g l = true -> cell g l <> 0 ->
  Original.is_adjacent g l = Ok (filled_neighbour g l).
Proof. intros Hwf Hb _. apply original_is_adjacent_spec; assumption. Qed.

Lemma min_candidates_spec g l :
  well_formed g -> In l (min_candidates g) <-> min_candidate g l.
Proof.
  intros Hwf. unfold min_candidates. rewrite filter_In, min_candidateb_spec by assumption.
  split; [tauto|]. intros H. split; [|assumption].
  apply all_locs_spec. destruct H as [[(v & Hv & _) _] _].
  apply (getitem_inv _ _ _ Hv).
Qed.

(** A grid with a candidate has a candidate of least value. *)
Lemma min_candidate_exists g c :
  well_formed g -> candidate g c -> exists l, min_candidate g l.
Proof.
  intros Hwf Hc. apply candidateb_spec in Hc as Hcb; [|assumption].
  assert (Hin : In c (all_locs g)).
  { apply all_locs_spec. destruct Hc as [(v & Hv & _) _]. apply (getitem_inv _ _ _ Hv). }
  destruct (least_attained g (all_locs g) (1 + cell g c)) as [E|(l & Hl & Hlc & E)].
  - pose proof (least_lower g (all_locs g) (1 + cell g c) c Hin Hcb). lia.
  - exists l. apply min_candidateb_spec; [assumption|].
    unfold min_candidateb. rewrite Hlc. simpl. apply forallb_forall.
    intros c' Hc'. destruct (candidateb g c') eqn:Hcc'; [simpl|reflexivity].
    pose proof (least_lower g (all_locs g) (1 + cell g c) c' Hc' Hcc'). lia.
Qed.

Lemma min_candidates_nonempty_iff g :
  well_formed g -> min_candidates g <> [] <-> exists c, candidate g c.
Proof.
  intros Hwf. split.
  - destruct (min_candidates g) as [|l ls] eqn:E; [congruence|]. intros _.
    exists l. assert (Hl : In l (min_candidates g)) by (rewrite E; left; reflexivity).
    apply min_candidates_spec in Hl; [|assumption]. apply Hl.
  - intros [c Hc] E. destruct (min_candidate_exists g c Hwf Hc) as [l Hl].
    apply min_candidates_spec in Hl; [|assumption]. rewrite E in Hl. destruct Hl.
Qed.

(** Where [1 + grid.max()] does not wrap around, [choose_next] returns a
    location exactly when the grid has a candidate, and raises
    [IndexError] when it has none. *)
Lemma original_choose_next_succeeds_iff e w m :
  well_formed (arr w) -> amax (arr w) = Ok m -> m < int64_max ->
  ((exists l w', Original.choose_next e w = (Ok l, w'))
   <-> exists c, candidate (arr w) c) /\
  ((forall c, ~ candidate (arr w) c) ->
   fst (Original.choose_next e w) = Raise IndexError).
Proof.
  intros Hwf Hm Hlt.
  assert (Hs : Original.scan (arr w) = Ok (min_candidates (arr w))).
  { apply (scan_complete _ original_is_adjacent_unfilled) with (m := m);
      assumption. }
  split; [split|].
  - intros (l & w' & Hc). apply choose_next_inv in Hc as (cs & Hcs & Hin).
    fold Original.scan in Hcs. rewrite Hs in Hcs. injection Hcs as <-.
    apply min_candidates_spec in Hin; [|assumption]. exists l. apply Hin.
  - intros Hex. apply min_candidates_nonempty_iff in Hex; [|assumption].
    destruct (random_choice_total (py_draw e (draws w)) _ Hex) as [l Hl].
    unfold Original.choose_next, choose_next. fold Original.scan.
    rewrite Hs, Hl. eauto.
  - intros Hno. unfold Original.choose_next, choose_next. fold Original.scan.
    rewrite Hs.
    destruct (min_candidates (arr w)) as [|l ls] eqn:E; [reflexivity|].
    exfalso. assert (Hl : In l (min_candidates (arr w))) by (rewrite E; left; reflexivity).
    apply min_candidates_spec in Hl; [|assumption]. apply (Hno l), Hl.
Qed.

(** C7. On the grid [[0, 9223372036854775807]] the cell (0, 1) is a
    candidate, yet [choose_next] of either notebook raises [IndexError]
    for every draw: [1 + grid.max()] wraps around to the least [int64],
    which no cell undercuts, and [candidates] stays empty. *)
Theorem choose_next_raises_despite_candidate :
  well_formed grid_top /\ candidate grid_top (0, 1)%nat /\
  amax grid_top = Ok int64_max /\
  Original.scan grid_top = Ok [] /\
  forall (e : entropy) (n : nat) (tr : list event),
    fst (Original.choose_next e (mk_world grid_top n tr)) = Raise IndexError /\
    fst (Tested.choose_next e (mk_world grid_top n tr)) = Raise IndexError.
Proof.
  assert (Hwf : well_formed grid_top) by (apply well_formedb_spec; reflexivity).
  split; [exact Hwf|]. split; [apply candidateb_spec; [exact Hwf|reflexivity]|].
  split; [reflexivity|]. split; [vm_compute; reflexivity|].
  intros e n tr. rewrite choose_next_agree.
  assert (H : fst (Original.choose_next e (mk_world grid_top n tr)) = Raise IndexError).
  { unfold Original.choose_next, choose_next. fold Original.scan. simpl arr.
    replace (Original.scan grid_top) with (@Ok (list loc) []) by (vm_compute; reflexivity).
    reflexivity. }
  split; exact H.
Qed.

(** ** What [choose_next] returns and what it leaves *)

Lemma filter_none {A} (f : A -> bool) (xs : list A) :
  (forall a, In a xs -> f a = false) -> List.filter f xs = [].
Proof.
  induction xs as [|a xs IH]; intros H; simpl; [reflexivity|].
  rewrite (H a) by (left; reflexivity). apply IH. intros b Hb. apply H. right.
  exact Hb.
Qed.

Lemma original_scan_no_candidate g :
  well_formed g -> (0 < size g)%nat -> (forall c, ~ candidate g c) ->
  Original.scan g = Ok [].
Proof.
  intros Hwf Hs Hno. destruct (amax_total g Hs Hwf) as [m Hm].
  unfold Original.scan.
  rewrite (scan_filter _ original_is_adjacent_unfilled g m Hwf Hm). f_equal.
  apply filter_none. intros a _.
  destruct (candidateb g a) eqn:Hc; [|reflexivity].
  apply candidateb_spec in Hc; [|exact Hwf]. destruct (Hno a Hc).
Qed.




(** ** The chance of each candidate *)

Lemma random_choice_lookup {A} i (xs : list A) a :
  xs !! i = Some a -> random_choice i xs = Ok a.
Proof.
  intros H. unfold random_choice. apply lookup_lt_Some in H as Hlt.
  rewrite Nat.mod_small, H by assumption. reflexivity.
Qed.

Lemma choice_outcomes_map {A} (xs : list A) :
  xs <> [] -> choice_outcomes xs = map Ok xs.
Proof.
  intros Hne.
  assert (E : choice_outcomes xs = map (fun i => random_choice i xs) (seq 0 (length xs))).
  { destruct xs; [contradiction|reflexivity]. }
  rewrite E. clear E Hne. apply list_eq. intros i.
  change (map (fun i => random_choice i xs) (seq 0 (length xs)))
    with ((fun i => random_choice i xs) <$> seq 0 (length xs)).
  change (map Ok xs) with (Ok <$> xs).
  rewrite !list_lookup_fmap.
  destruct (xs !! i) as [a|] eqn:E.
  - apply lookup_lt_Some in E as Hlt.
    rewrite lookup_seq_lt by assumption. simpl.
    rewrite (random_choice_lookup i xs a E). reflexivity.
  - apply lookup_ge_None in E. rewrite lookup_seq_ge by assumption. reflexivity.
Qed.

Lemma returns_count l (cs : list loc) :
  List.NoDup cs -> In l cs ->
  length (List.filter (returns l) (map Ok cs)) = 1%nat.
Proof.
  intros Hnd. induction Hnd as [|c cs Hc Hnd IH]; simpl; [tauto|].
  assert (Hnone : ~ In l cs -> length (List.filter (returns l) (map Ok cs)) = 0%nat).
  { clear. induction cs as [|c cs IH]; simpl; [reflexivity|]. intros Hn.
    destruct (Nat.eqb_spec (fst l) (fst c)), (Nat.eqb_spec (snd l) (snd c)); simpl;
      try (apply IH; tauto).
    exfalso. apply Hn. left. destruct l, c; simpl in *; congruence. }
  intros [->|Hin].
  - rewrite !Nat.eqb_refl. simpl. rewrite Hnone by assumption. reflexivity.
  - destruct (Nat.eqb_spec (fst l) (fst c)), (Nat.eqb_spec (snd l) (snd c)); simpl;
      try (apply IH; assumption).
    exfalso. apply Hc. replace c with l; [assumption|].
    destruct l, c; simpl in *; congruence.
Qed.

(** Where [1 + grid.max()] does not wrap around, each of the [k]
    candidates of least value is returned in exactly one of the [k]
    equally likely outcomes. *)
Lemma original_choose_next_uniform g m l :
  well_formed g -> amax g = Ok m -> m < int64_max -> min_candidate g l ->
  (probability (returns l) (choose_next_outcomes Original.is_adjacent g)
   == 1 / inject_Z (Z.of_nat (length (min_candidates g))))%Q.
Proof.
  intros Hwf Hm Hlt Hl.
  assert (Hs : scan Original.is_adjacent g = Ok (min_candidates g)).
  { apply (scan_complete _ original_is_adjacent_unfilled) with (m := m);
      assumption. }
  assert (Hnd : List.NoDup (min_candidates g)).
  { apply (scan_NoDup _ original_is_adjacent_unfilled g); assumption. }
  apply min_candidates_spec in Hl; [|assumption].
  unfold choose_next_outcomes, probability. rewrite Hs.
  rewrite choice_outcomes_map by (intros E; rewrite E in Hl; destruct Hl).
  rewrite (returns_count l _ Hnd Hl), length_map. reflexivity.
Qed.

Lemma choose_next_outcomes_agree g :
  choose_next_outcomes Tested.is_adjacent g
  = choose_next_outcomes Original.is_adjacent g.
Proof.
  unfold choose_next_outcomes. fold Tested.scan Original.scan.
  rewrite scan_agree. reflexivity.
Qed.

(** The outcome of a call is the one its draw selects. *)
Lemma choose_next_outcome_of_draw e w :
  let outcomes := choose_next_outcomes Original.is_adjacent (arr w) in
  outcomes !! (py_draw e (draws w) mod length outcomes)%nat
  = Some (fst (Original.choose_next e w)).
Proof.
  unfold choose_next_outcomes, Original.choose_next, choose_next.
  destruct (scan Original.is_adjacent (arr w)) as [cs| |]; try reflexivity.
  destruct cs as [|c cs']; [reflexivity|].
  set (xs := c :: cs'). rewrite choice_outcomes_map by discriminate.
  rewrite length_map. change (map Ok xs) with (Ok <$> xs).
  rewrite list_lookup_fmap. unfold random_choice.
  destruct (xs !! (py_draw e (draws w) mod length xs)%nat) as [a|] eqn:E;
    [reflexivity|].
  apply lookup_ge_None in E.
  pose proof (Nat.mod_upper_bound (py_draw e (draws w)) (length xs)).
  simpl in *. lia.
Qed.

(** C2. On the grid [[0, 9223372036854775807]] the cell (0, 1) is the
    one candidate of least value (k = 1), yet [choose_next] returns it
    with probability 0: the call raises in its only outcome. *)
Theorem choose_next_never_selects_sole_candidate :
  well_formed grid_top /\
  min_candidates grid_top = [(0, 1)%nat] /\
  min_candidate grid_top (0, 1)%nat /\
  choose_next_outcomes Original.is_adjacent grid_top = [Raise IndexError] /\
  choose_next_outcomes Tested.is_adjacent grid_top = [Raise IndexError] /\
  (probability (returns (0, 1)%nat) (choose_next_outcomes Original.is_adjacent grid_top)
   == 0)%Q.
Proof.
  assert (Hwf : well_formed grid_top) by (apply well_formedb_spec; reflexivity).
  split; [exact Hwf|]. split; [vm_compute; reflexivity|].
  split; [apply min_candidateb_spec; [exact Hwf|vm_compute; reflexivity]|].
  split; [vm_compute; reflexivity|]. split; [vm_compute; reflexivity|].
  vm_compute. reflexivity.
Qed.

(** ** Density *)

Lemma count_zero_le_size g : well_formed g -> (count_zero g <= size g)%nat.
Proof.
  intros [Hlen _]. unfold count_zero, size. rewrite <- Hlen.
  apply length_filter.
Qed.

Lemma count_zero_filled g l : well_formed g -> filled g l -> (1 <= count_zero g)%nat.
Proof.
  intros Hwf Hf. apply getitem_inv in Hf as [_ Hl]. unfold count_zero.
  apply list_elem_of_lookup_2 in Hl.
  assert (Hin : 0 ∈ filter (fun v => v = 0) (buf g)).
  { apply list_elem_of_filter. auto. }
  destruct (filter (fun v => v = 0) (buf g)); [inversion Hin|simpl; lia].
Qed.

(** ** Binary64 division of two counts *)

Lemma digits2_pos_size p : digits2_pos p = Pos.size p.
Proof. induction p as [p IH|p IH|]; simpl; congruence. Qed.

(** A positive number of [d] binary digits. *)
Lemma digits2_pos_bounds p :
  2 ^ (Zpos (digits2_pos p) - 1) <= Zpos p < 2 ^ Zpos (digits2_pos p).
Proof.
  rewrite digits2_pos_size.
  pose proof (Pos.size_gt p) as Hgt. pose proof (Pos.size_le p) as Hle.
  apply Pos2Z.pos_lt_pos in Hgt. apply Pos2Z.pos_le_pos in Hle.
  rewrite Pos2Z.inj_pow in Hgt, Hle.
  split; [|exact Hgt].
  replace (Zpos (Pos.size p)) with (Z.succ (Zpos (Pos.size p) - 1)) in Hle by lia.
  rewrite Z.pow_succ_r in Hle by lia. lia.
Qed.

Lemma digits2_pos_eq p d :
  0 < d -> 2 ^ (d - 1) <= Zpos p < 2 ^ d -> Zpos (digits2_pos p) = d.
Proof.
  intros Hd [Hlo Hhi]. pose proof (digits2_pos_bounds p) as [Hlo' Hhi'].
  set (s := Zpos (digits2_pos p)) in *.
  assert (Hs : 0 < s) by (unfold s; lia).
  destruct (Z.lt_trichotomy s d) as [Hlt|[Heq|Hgt]]; [|exact Heq|].
  - assert (2 ^ s <= 2 ^ (d - 1)) by (apply Z.pow_le_mono_r; lia). lia.
  - assert (2 ^ d <= 2 ^ (s - 1)) by (apply Z.pow_le_mono_r; lia). lia.
Qed.

Lemma Zdigits2_eq m d :
  0 < d -> 2 ^ (d - 1) <= m < 2 ^ d -> Zdigits2 m = d.
Proof.
  intros Hd Hm. assert (0 < m) by (pose proof (Z.pow_pos_nonneg 2 (d - 1)); lia).
  destruct m as [|p|p]; try lia. simpl. apply digits2_pos_eq; assumption.
Qed.

Lemma iter_xO p n : Zpos (Pos.iter xO p n) = Zpos p * 2 ^ Zpos n.
Proof.
  induction n as [|n IH] using Pos.peano_ind.
  - simpl. lia.
  - rewrite Pos.iter_succ, Pos2Z.inj_xO, IH, Pos2Z.inj_succ, Z.pow_succ_r by lia.
    lia.
Qed.

Lemma loc_of_shr_record_of_loc m l :
  loc_of_shr_record (shr_record_of_loc m l) = l.
Proof. destruct l as [|[]]; reflexivity. Qed.

Lemma shr_m_record_of_loc m l : shr_m (shr_record_of_loc m l) = m.
Proof. destruct l as [|[]]; reflexivity. Qed.

(** The second half of [binary_round_aux]: a mantissa that rounding
    carried to 2^53 is brought back to 53 digits. *)
Lemma round_finish (m1 e : Z) :
  2 ^ 52 <= m1 <= 2 ^ 53 -> -1074 <= e <= 969 ->
  (let '(mrs, e2) := shr_fexp prec emax m1 e loc_Exact in
   match shr_m mrs with
   | Z0 => S754_zero false
   | Zpos m => if Z.leb e2 (emax - prec) then S754_finite false m e2
               else S754_infinity false
   | Zneg _ => S754_nan
   end)
  = if m1 <? 2 ^ 53 then S754_finite false (Z.to_pos m1) e
    else S754_finite false (Z.to_pos (2 ^ 52)) (e + 1).
Proof.
  intros Hm He. unfold shr_fexp. destruct (Z.ltb_spec m1 (2 ^ 53)) as [Hlt|Hge].
  - rewrite (Zdigits2_eq m1 53) by lia.
    replace (fexp prec emax (53 + e) - e) with 0
      by (unfold fexp, SpecFloat.emin, prec, emax; lia).
    cbn [shr shr_record_of_loc shr_m].
    destruct m1 as [|p|p]; try lia.
    replace (e <=? emax - prec) with true
      by (symmetry; apply Z.leb_le; unfold emax, prec; lia).
    reflexivity.
  - assert (m1 = 2 ^ 53) as -> by lia.
    rewrite (Zdigits2_eq (2 ^ 53) 54) by lia.
    replace (fexp prec emax (54 + e) - e) with 1
      by (unfold fexp, SpecFloat.emin, prec, emax; lia).
    cbn [shr shr_record_of_loc SpecFloat.iter_pos].
    change (shr_m (shr_1 {| shr_m := 2 ^ 53; shr_r := false; shr_s := false |}))
      with (2 ^ 52).
    change (2 ^ 52) with (Zpos (Z.to_pos (2 ^ 52))) at 1.
    cbv iota beta.
    replace (e + 1 <=? emax - prec) with true
      by (symmetry; apply Z.leb_le; unfold emax, prec; lia).
    reflexivity.
Qed.

Lemma round_nearest_even_bounds m l :
  m <= round_nearest_even m l <= m + 1.
Proof.
  destruct l as [|[]]; simpl; try lia. destruct (Z.even m); lia.
Qed.

(** Where the remainder [r] of a division by [b] lies in the unit. *)
Lemma new_location_spec b r :
  0 <= r < b ->
  match new_location b r with
  | loc_Exact => r = 0
  | loc_Inexact Lt => 0 < r /\ 2 * r < b
  | loc_Inexact Eq => 0 < r /\ 2 * r = b
  | loc_Inexact Gt => 0 < r /\ b < 2 * r
  end.
Proof.
  intros Hr. unfold new_location.
  destruct (Z.even b) eqn:Hev; unfold new_location_even, new_location_odd;
    destruct (Z.eqb_spec r 0) as [Hz|Hz]; try exact Hz.
  - destruct (Z.compare_spec (2 * r) b); lia.
  - assert (Hodd : Z.odd b = true) by (rewrite <- Z.negb_even, Hev; reflexivity).
    apply Z.odd_spec in Hodd as [c Hc].
    destruct (Z.compare_spec (2 * r + 1) b); lia.
Qed.

(** Rounding a quotient of 53 digits: no shift before the rounding. *)
Lemma round_53 (q e : Z) (l : location) :
  2 ^ 52 <= q < 2 ^ 53 -> -1074 <= e <= 969 ->
  binary_round_aux prec emax false q e l
  = if round_nearest_even q l <? 2 ^ 53
    then S754_finite false (Z.to_pos (round_nearest_even q l)) e
    else S754_finite false (Z.to_pos (2 ^ 52)) (e + 1).
Proof.
  intros Hq He. unfold binary_round_aux.
  assert (H1 : shr_fexp prec emax q e l = (shr_record_of_loc q l, e)).
  { unfold shr_fexp. rewrite (Zdigits2_eq q 53) by lia.
    replace (fexp prec emax (53 + e) - e) with 0
      by (unfold fexp, SpecFloat.emin, prec, emax; lia).
    reflexivity. }
  rewrite H1, shr_m_record_of_loc, loc_of_shr_record_of_loc.
  apply round_finish; [|exact He].
  pose proof (round_nearest_even_bounds q l). lia.
Qed.

(** Rounding a quotient of 54 digits: one shift before the rounding. *)
Lemma round_54 (q e : Z) (l : location) :
  2 ^ 53 <= q < 2 ^ 54 -> -1074 <= e <= 968 ->
  binary_round_aux prec emax false q e l
  = if round_nearest_even (q / 2) (shifted_location q l) <? 2 ^ 53
    then S754_finite false
           (Z.to_pos (round_nearest_even (q / 2) (shifted_location q l))) (e + 1)
    else S754_finite false (Z.to_pos (2 ^ 52)) (e + 2).
Proof.
  intros Hq He. unfold binary_round_aux.
  assert (H1 : exists mrs, shr_fexp prec emax q e l = (mrs, e + 1) /\
                           shr_m mrs = q / 2 /\
                           loc_of_shr_record mrs = shifted_location q l).
  { unfold shr_fexp. rewrite (Zdigits2_eq q 54) by lia.
    replace (fexp prec emax (54 + e) - e) with 1
      by (unfold fexp, SpecFloat.emin, prec, emax; lia).
    cbn [shr SpecFloat.iter_pos]. eexists. split; [reflexivity|].
    destruct q as [|p|p]; try lia. unfold shifted_location.
    destruct p as [p|p|]; [| |lia].
    - split; [|destruct l as [|[]]; reflexivity].
      destruct l as [|[]]; simpl shr_m; rewrite Pos2Z.inj_xI;
        apply (Z.div_unique _ 2 _ 1); lia.
    - split; [|destruct l as [|[]]; reflexivity].
      destruct l as [|[]]; simpl shr_m; rewrite Pos2Z.inj_xO;
        apply (Z.div_unique _ 2 _ 0); lia. }
  destruct H1 as (mrs & -> & -> & ->).
  pose proof (round_nearest_even_bounds (q / 2) (shifted_location q l)) as Hb.
  assert (Hh : 2 ^ 52 <= q / 2 < 2 ^ 53).
  { split; [apply Z.div_le_lower_bound; lia|apply Z.div_lt_upper_bound; lia]. }
  replace (e + 2) with (e + 1 + 1) by lia.
  apply round_finish; lia.
Qed.

(** [binary_round_aux] on the quotient and remainder of a division
    gives a float of 53 digits nearest to the exact quotient. *)
Lemma round_division (q e b r : Z) :
  2 ^ 52 <= q < 2 ^ 54 -> -1074 <= e <= 968 -> 0 <= r < b ->
  exists (mf : positive) (j : Z),
    binary_round_aux prec emax false q e (new_location b r)
    = S754_finite false mf (e + j) /\
    0 <= j <= 2 /\ 2 ^ 52 <= Zpos mf < 2 ^ 53 /\
    near (Zpos mf) j (q * b + r) b.
Proof.
  intros Hq He Hr. pose proof (new_location_spec b r Hr) as Hl.
  unfold near.
  destruct (Z.lt_ge_cases q (2 ^ 53)) as [H53|H54].
  - rewrite round_53 by lia.
    set (m1 := round_nearest_even q (new_location b r)).
    assert (Hm1 : q <= m1 <= q + 1 /\ 2 * Z.abs (m1 * b - (q * b + r)) <= b).
    { unfold m1. revert Hl.
      destruct (new_location b r) as [|[]]; simpl; intros Hl;
        try destruct (Z.even q); split; lia. }
    destruct Hm1 as [Hb Hn].
    destruct (Z.ltb_spec m1 (2 ^ 53)) as [Hlt|Hge].
    + exists (Z.to_pos m1), 0. rewrite Z.add_0_r, Z2Pos.id by lia.
      split; [reflexivity|]. split; [lia|]. split; [lia|].
      rewrite Z.pow_0_r. replace (m1 * 1 * b) with (m1 * b) by lia. lia.
    + exists (Z.to_pos (2 ^ 52)), 1. split; [reflexivity|]. split; [lia|].
      split; [simpl; lia|].
      assert (m1 = 2 ^ 53) by lia.
      replace (Zpos (Z.to_pos (2 ^ 52)) * 2 ^ 1 * b) with (m1 * b)
        by (subst m1; rewrite H; reflexivity).
      change (2 ^ 1) with 2. lia.
  - rewrite round_54 by lia.
    set (l' := shifted_location q (new_location b r)).
    set (m1 := round_nearest_even (q / 2) l').
    pose proof (Z.div_mod q 2 ltac:(lia)) as Hdm.
    pose proof (Z.mod_pos_bound q 2 ltac:(lia)) as Hmod.
    assert (Hodd : Z.odd q = (q mod 2 =? 1)).
    { rewrite Zmod_odd. destruct (Z.odd q); reflexivity. }
    assert (Hh : 2 ^ 52 <= q / 2 < 2 ^ 53).
    { split; [apply Z.div_le_lower_bound; lia|apply Z.div_lt_upper_bound; lia]. }
    assert (Hm1 : q / 2 <= m1 <= q / 2 + 1 /\
                  2 * Z.abs (m1 * 2 * b - (q * b + r)) <= 2 * b).
    { unfold m1, l', shifted_location. rewrite Hodd. revert Hl.
      destruct (Z.eqb_spec (q mod 2) 1) as [H1|H1];
        destruct (new_location b r) as [|[]]; simpl round_nearest_even;
        intros Hl; try destruct (Z.even (q / 2)); split; try lia;
        set (h := q / 2) in *;
        (replace q with (2 * h + 1) by lia) || (replace q with (2 * h) by lia);
        lia. }
    destruct Hm1 as [Hb Hn].
    destruct (Z.ltb_spec m1 (2 ^ 53)) as [Hlt|Hge].
    + exists (Z.to_pos m1), 1. rewrite Z2Pos.id by lia.
      split; [reflexivity|]. split; [lia|]. split; [lia|].
      change (2 ^ 1) with 2. lia.
    + exists (Z.to_pos (2 ^ 52)), 2. split; [reflexivity|]. split; [lia|].
      split; [simpl; lia|].
      assert (m1 = 2 ^ 53) by lia.
      replace (Zpos (Z.to_pos (2 ^ 52)) * 2 ^ 2 * b) with (m1 * 2 * b)
        by (rewrite H; simpl; lia).
      change (2 ^ 2) with 4. lia.
Qed.

(** The float of a count below 2^53 is the count itself: its mantissa
    is the count shifted to 53 digits. *)
Lemma binary_normalize_count (k : Z) :
  0 < k < 2 ^ 53 ->
  exists (a : positive) (ea : Z),
    binary_normalize prec emax k 0 false = S754_finite false a ea /\
    2 ^ 52 <= Zpos a < 2 ^ 53 /\ -52 <= ea <= 0 /\
    Zpos a = k * 2 ^ (- ea) /\ 2 ^ (52 + ea) <= k < 2 ^ (53 + ea).
Proof.
  intros Hk. destruct k as [|p|p]; try lia.
  pose proof (digits2_pos_bounds p) as Hd.
  set (d := Zpos (digits2_pos p)) in *.
  assert (Hd1 : 1 <= d) by (unfold d; lia).
  assert (Hd53 : d <= 53).
  { destruct (Z.le_gt_cases d 53) as [H|H]; [exact H|].
    assert (2 ^ 53 <= 2 ^ (d - 1)) by (apply Z.pow_le_mono_r; lia). lia. }
  unfold binary_normalize, binary_round. fold d.
  replace (fexp prec emax (d + 0)) with (d - 53)
    by (unfold fexp, SpecFloat.emin, prec, emax; lia).
  assert (Hal : exists a, shl_align p 0 (d - 53) = (a, d - 53) /\
                          Zpos a = Zpos p * 2 ^ (53 - d)).
  { unfold shl_align. destruct (d - 53 - 0) as [|n|n] eqn:E; try lia.
    - exists p. replace (d - 53) with 0 by lia. split; [reflexivity|].
      replace (53 - d) with 0 by lia. lia.
    - exists (Pos.iter xO p n). split; [reflexivity|].
      rewrite iter_xO. replace (53 - d) with (Zpos n) by lia. reflexivity. }
  destruct Hal as (a & -> & Ha).
  assert (Hpow : 2 ^ (d - 1) * 2 ^ (53 - d) = 2 ^ 52 /\ 2 ^ d * 2 ^ (53 - d) = 2 ^ 53).
  { rewrite <- !Z.pow_add_r by lia. split; f_equal; lia. }
  assert (Hp : 0 < 2 ^ (53 - d)) by (apply Z.pow_pos_nonneg; lia).
  assert (Hrange : 2 ^ 52 <= Zpos a < 2 ^ 53) by nia.
  exists a, (d - 53). rewrite round_53 by (simpl round_nearest_even; lia).
  simpl round_nearest_even.
  destruct (Z.ltb_spec (Zpos a) (2 ^ 53)); [|lia].
  split; [reflexivity|]. split; [exact Hrange|]. split; [lia|].
  replace (- (d - 53)) with (53 - d) by lia. split; [exact Ha|].
  replace (52 + (d - 53)) with (d - 1) by lia.
  replace (53 + (d - 53)) with d by lia. exact Hd.
Qed.

Lemma shr_1_spec m r s :
  0 <= m -> shr_1 (Build_shr_record m r s) = Build_shr_record (m / 2) (Z.odd m) (r || s).
Proof.
  intros Hm. destruct m as [|p|p]; try lia; [reflexivity|].
  destruct p as [p|p|]; simpl shr_1.
  - f_equal. rewrite Pos2Z.inj_xI. apply (Z.div_unique _ 2 _ 1); lia.
  - f_equal. rewrite Pos2Z.inj_xO. apply (Z.div_unique _ 2 _ 0); lia.
  - reflexivity.
Qed.

Lemma iter_pos_comm {A} (f : A -> A) p : forall x,
  SpecFloat.iter_pos f p (f x) = f (SpecFloat.iter_pos f p x).
Proof.
  induction p as [p IH|p IH|]; intros x; simpl; [|f_equal|reflexivity].
  - rewrite !IH. reflexivity.
  - rewrite !IH. reflexivity.
Qed.

Lemma iter_pos_succ {A} (f : A -> A) p x :
  SpecFloat.iter_pos f (Pos.succ p) x = f (SpecFloat.iter_pos f p x).
Proof.
  revert x. induction p as [p IH|p IH|]; intros x; simpl.
  - rewrite !IH, !iter_pos_comm. reflexivity.
  - rewrite !iter_pos_comm. reflexivity.
  - reflexivity.
Qed.

(** What [p] shifts to the right leave of [k]: the quotient by 2^p,
    the digit shifted out last and whether a digit shifted out before
    it was 1. *)
Lemma iter_shr_1 (k : Z) (p : positive) :
  0 <= k ->
  SpecFloat.iter_pos shr_1 p (Build_shr_record k false false)
  = Build_shr_record (k / 2 ^ Zpos p) (Z.odd (k / 2 ^ (Zpos p - 1)))
                     (negb (k mod 2 ^ (Zpos p - 1) =? 0)).
Proof.
  intros Hk. induction p as [|p IH] using Pos.peano_ind.
  - cbn [SpecFloat.iter_pos]. rewrite shr_1_spec by lia. change (1 - 1) with 0.
    rewrite Z.pow_0_r, Z.div_1_r, Z.mod_1_r. reflexivity.
  - rewrite iter_pos_succ, IH.
    assert (Hp : 0 < 2 ^ (Zpos p - 1)) by (apply Z.pow_pos_nonneg; lia).
    assert (E : 2 ^ Zpos p = 2 ^ (Zpos p - 1) * 2).
    { replace (Zpos p) with (Z.succ (Zpos p - 1)) at 1 by lia.
      rewrite Z.pow_succ_r by lia. lia. }
    rewrite shr_1_spec by (apply Z.div_pos; lia).
    replace (Zpos (Pos.succ p) - 1) with (Zpos p) by lia.
    rewrite Pos2Z.inj_succ, Z.pow_succ_r, Z.div_div by lia.
    replace (2 ^ Zpos p * 2) with (2 * 2 ^ Zpos p) by lia.
    f_equal.
    rewrite E, Z.rem_mul_r by lia.
    rewrite Zmod_odd.
    pose proof (Z.mod_pos_bound k (2 ^ (Zpos p - 1)) Hp) as Hb.
    destruct (Z.odd (k / 2 ^ (Zpos p - 1))); simpl.
    + symmetry. apply negb_true_iff, Z.eqb_neq. lia.
    + rewrite Z.mul_0_r, Z.add_0_r. reflexivity.
Qed.

Lemma round_shift_spec (k s : Z) :
  0 <= k -> 1 <= s ->
  round_nearest_even (k / 2 ^ s)
    (loc_of_shr_record
       (Build_shr_record (k / 2 ^ s) (Z.odd (k / 2 ^ (s - 1)))
                         (negb (k mod 2 ^ (s - 1) =? 0))))
  = round_shift k s.
Proof.
  intros Hk Hs. unfold round_shift.
  assert (Hh : 0 < 2 ^ (s - 1)) by (apply Z.pow_pos_nonneg; lia).
  assert (E : 2 ^ s = 2 ^ (s - 1) * 2).
  { replace s with (Z.succ (s - 1)) at 1 by lia.
    rewrite Z.pow_succ_r by lia. lia. }
  pose proof (Z.mod_pos_bound k (2 ^ (s - 1)) Hh) as Hb.
  assert (Hrest : k mod 2 ^ s
                  = k mod 2 ^ (s - 1) + 2 ^ (s - 1) * (if Z.odd (k / 2 ^ (s - 1)) then 1 else 0)).
  { rewrite E, Z.rem_mul_r by lia. rewrite Zmod_odd. reflexivity. }
  set (q := k / 2 ^ s). rewrite Hrest, E.
  set (h := 2 ^ (s - 1)) in *. set (r := k mod h) in *.
  destruct (Z.odd (k / h)); destruct (Z.eqb_spec r 0) as [Hr|Hr]; simpl negb;
    cbn [loc_of_shr_record round_nearest_even].
  - replace (h * 2 <? 2 * (r + h * 1)) with false by (symmetry; apply Z.ltb_ge; lia).
    replace (2 * (r + h * 1) =? h * 2) with true by (symmetry; apply Z.eqb_eq; lia).
    rewrite <- Z.negb_odd. simpl. destruct (Z.odd q); reflexivity.
  - replace (h * 2 <? 2 * (r + h * 1)) with true by (symmetry; apply Z.ltb_lt; lia).
    reflexivity.
  - replace (h * 2 <? 2 * (r + h * 0)) with false by (symmetry; apply Z.ltb_ge; lia).
    replace (2 * (r + h * 0) =? h * 2) with false by (symmetry; apply Z.eqb_neq; lia).
    reflexivity.
  - replace (h * 2 <? 2 * (r + h * 0)) with false by (symmetry; apply Z.ltb_ge; lia).
    replace (2 * (r + h * 0) =? h * 2) with false by (symmetry; apply Z.eqb_neq; lia).
    reflexivity.
Qed.

Lemma round_shift_bounds (k s : Z) :
  k / 2 ^ s <= round_shift k s <= k / 2 ^ s + 1.
Proof. unfold round_shift. destruct (_ || _); lia. Qed.

Lemma round_shift_mono (k n s : Z) :
  0 <= s -> k <= n -> round_shift k s <= round_shift n s.
Proof.
  intros Hs Hkn.
  assert (Hp : 0 < 2 ^ s) by (apply Z.pow_pos_nonneg; lia).
  pose proof (Z.div_le_mono k n (2 ^ s) Hp Hkn) as Hq.
  pose proof (round_shift_bounds k s) as Bk.
  pose proof (round_shift_bounds n s) as Bn.
  destruct (Z.eq_dec (k / 2 ^ s) (n / 2 ^ s)) as [Heq|Hne]; [|lia].
  unfold round_shift. rewrite Heq.
  pose proof (Z.div_mod k (2 ^ s) ltac:(lia)) as Dk.
  pose proof (Z.div_mod n (2 ^ s) ltac:(lia)) as Dn.
  rewrite Heq in Dk.
  assert (Hr : k mod 2 ^ s <= n mod 2 ^ s) by lia.
  destruct (Z.ltb_spec (2 ^ s) (2 * (k mod 2 ^ s)));
    destruct (Z.ltb_spec (2 ^ s) (2 * (n mod 2 ^ s)));
    destruct (Z.eqb_spec (2 * (k mod 2 ^ s)) (2 ^ s));
    destruct (Z.eqb_spec (2 * (n mod 2 ^ s)) (2 ^ s));
    destruct (Z.odd (n / 2 ^ s)); simpl; lia.
Qed.

Lemma Zdigits2_bounds (k : Z) :
  0 < k -> 2 ^ (Zdigits2 k - 1) <= k < 2 ^ Zdigits2 k /\ 1 <= Zdigits2 k.
Proof.
  intros Hk. destruct k as [|p|p]; try lia. simpl Zdigits2.
  split; [apply digits2_pos_bounds|lia].
Qed.

Lemma Zdigits2_mono (k n : Z) : 0 < k <= n -> Zdigits2 k <= Zdigits2 n.
Proof.
  intros Hkn.
  destruct (Zdigits2_bounds k ltac:(lia)) as [Bk Hk].
  destruct (Zdigits2_bounds n ltac:(lia)) as [Bn Hn].
  destruct (Z.le_gt_cases (Zdigits2 k) (Zdigits2 n)) as [H|H]; [exact H|].
  assert (2 ^ Zdigits2 n <= 2 ^ (Zdigits2 k - 1)) by (apply Z.pow_le_mono_r; lia).
  lia.
Qed.

(** The float of a count below 2^63. *)
Lemma binary_normalize_float_count (k : Z) :
  0 < k < 2 ^ 63 ->
  binary_normalize prec emax k 0 false
  = S754_finite false (Z.to_pos (fst (float_count k))) (snd (float_count k)) /\
  2 ^ 52 <= fst (float_count k) < 2 ^ 53 /\ -52 <= snd (float_count k) <= 11.
Proof.
  intros Hk. destruct (Zdigits2_bounds k ltac:(lia)) as [Bk Hd1].
  unfold float_count. set (d := Zdigits2 k) in *.
  assert (Hd63 : d <= 63).
  { destruct (Z.le_gt_cases d 63) as [H|H]; [exact H|].
    assert (2 ^ 63 <= 2 ^ (d - 1)) by (apply Z.pow_le_mono_r; lia). lia. }
  destruct (Z.leb_spec d 53) as [Hle|Hgt]; cbn [fst snd].
  - assert (Hk53 : 0 < k < 2 ^ 53).
    { assert (2 ^ d <= 2 ^ 53) by (apply Z.pow_le_mono_r; lia). lia. }
    destruct (binary_normalize_count k Hk53) as (a & ea & -> & Ha & Hea & Hak & Hka).
    assert (Hdea : d = 53 + ea).
    { destruct k as [|p|p]; try lia. unfold d. simpl Zdigits2.
      apply digits2_pos_eq; [lia|].
      replace (53 + ea - 1) with (52 + ea) by lia. exact Hka. }
    replace (53 - d) with (- ea) by lia. replace (d - 53) with ea by lia.
    rewrite <- Hak, Pos2Z.id. split; [reflexivity|]. split; [exact Ha|lia].
  - set (s := d - 53) in *.
    assert (Hs : 1 <= s <= 10) by (unfold s; lia).
    assert (Hp : 0 < 2 ^ s) by (apply Z.pow_pos_nonneg; lia).
    assert (Hq : 2 ^ 52 <= k / 2 ^ s < 2 ^ 53).
    { assert (E1 : 2 ^ s * 2 ^ 52 = 2 ^ (d - 1)).
      { rewrite <- Z.pow_add_r by lia. f_equal. unfold s. lia. }
      assert (E2 : 2 ^ s * 2 ^ 53 = 2 ^ d).
      { rewrite <- Z.pow_add_r by lia. f_equal. unfold s. lia. }
      split; [apply Z.div_le_lower_bound; lia|apply Z.div_lt_upper_bound; lia]. }
    pose proof (round_shift_bounds k s) as Hb.
    assert (Hres : binary_normalize prec emax k 0 false
                   = if round_shift k s <? 2 ^ 53
                     then S754_finite false (Z.to_pos (round_shift k s)) s
                     else S754_finite false (Z.to_pos (2 ^ 52)) (s + 1)).
    { destruct k as [|p|p]; try lia.
      unfold binary_normalize, binary_round. fold (Zdigits2 (Zpos p)). fold d.
      replace (fexp prec emax (d + 0)) with s
        by (unfold fexp, SpecFloat.emin, prec, emax, s; lia).
      unfold shl_align. destruct (s - 0) as [|n|n] eqn:E; try lia.
      assert (H1 : shr_fexp prec emax (Zpos p) 0 loc_Exact
                   = (Build_shr_record (Zpos p / 2 ^ s) (Z.odd (Zpos p / 2 ^ (s - 1)))
                        (negb (Zpos p mod 2 ^ (s - 1) =? 0)), s)).
      { unfold shr_fexp. fold d.
        replace (fexp prec emax (d + 0) - 0) with s
          by (unfold fexp, SpecFloat.emin, prec, emax, s; lia).
        destruct s as [|ps|ps] eqn:Es; try lia.
        cbn [shr shr_record_of_loc]. rewrite iter_shr_1 by lia. reflexivity. }
      unfold binary_round_aux. rewrite H1. cbn [shr_m].
      rewrite round_shift_spec by lia.
      apply round_finish; lia. }
    rewrite Hres.
    destruct (Z.ltb_spec (round_shift k s) (2 ^ 53)); cbn [fst snd].
    + split; [reflexivity|]. split; lia.
    + split; [reflexivity|]. split; [lia|lia].
Qed.

(** The float of a count does not decrease with the count. *)
Lemma float_count_mono (k n : Z) :
  0 < k <= n -> n < 2 ^ 63 ->
  snd (float_count k) < snd (float_count n) \/
  (snd (float_count k) = snd (float_count n) /\
   fst (float_count k) <= fst (float_count n)).
Proof.
  intros Hkn Hn.
  pose proof (Zdigits2_mono k n Hkn) as Hd.
  destruct (Zdigits2_bounds k ltac:(lia)) as [Bk Hk1].
  destruct (Zdigits2_bounds n ltac:(lia)) as [Bn Hn1].
  unfold float_count.
  set (dk := Zdigits2 k) in *. set (dn := Zdigits2 n) in *.
  destruct (Z.leb_spec dk 53) as [Hk53|Hk53];
    destruct (Z.leb_spec dn 53) as [Hn53|Hn53]; try lia.
  - cbn [fst snd]. destruct (Z.eq_dec dk dn) as [E|E]; [|left; lia].
    right. split; [lia|]. rewrite E.
    apply Z.mul_le_mono_nonneg_r; [apply Z.pow_nonneg|]; lia.
  - left. destruct (_ <? _); cbn [fst snd]; lia.
  - pose proof (round_shift_bounds k (dk - 53)) as Rk.
    pose proof (round_shift_bounds n (dn - 53)) as Rn.
    assert (Hqn : 2 ^ 52 <= n / 2 ^ (dn - 53)).
    { apply Z.div_le_lower_bound; [apply Z.pow_pos_nonneg; lia|].
      rewrite <- Z.pow_add_r by lia.
      replace (dn - 53 + 52) with (dn - 1) by lia. lia. }
    destruct (Z.eq_dec dk dn) as [E|E].
    + rewrite E in *.
      pose proof (round_shift_mono k n (dn - 53) ltac:(lia) ltac:(lia)) as Hm.
      destruct (Z.ltb_spec (round_shift k (dn - 53)) (2 ^ 53));
        destruct (Z.ltb_spec (round_shift n (dn - 53)) (2 ^ 53));
        cbn [fst snd]; lia.
    + destruct (Z.ltb_spec (round_shift k (dk - 53)) (2 ^ 53));
        destruct (Z.ltb_spec (round_shift n (dn - 53)) (2 ^ 53));
        cbn [fst snd]; lia.
Qed.

(** The quotient of two positive floats with full mantissas and
    exponents of counts: a float with a full mantissa, nearest to the
    exact quotient. *)
Lemma SFdiv_counts (a b : positive) (ea eb : Z) :
  2 ^ 52 <= Zpos a < 2 ^ 53 -> 2 ^ 52 <= Zpos b < 2 ^ 53 ->
  -52 <= ea <= 11 -> -52 <= eb <= 11 ->
  exists (mf : positive) (j : Z),
    SFdiv prec emax (S754_finite false a ea) (S754_finite false b eb)
    = S754_finite false mf (ea - eb - 53 + j) /\
    0 <= j <= 2 /\ 2 ^ 52 <= Zpos mf < 2 ^ 53 /\
    near (Zpos mf) j (Zpos a * 2 ^ 53) (Zpos b).
Proof.
  intros Ha Hb Hea Heb. unfold SFdiv, SFdiv_core_binary.
  rewrite (Zdigits2_eq (Zpos a) 53), (Zdigits2_eq (Zpos b) 53) by lia.
  replace (Z.min (fexp prec emax (53 + ea - (53 + eb))) (ea - eb))
    with (ea - eb - 53) by (unfold fexp, SpecFloat.emin, prec, emax; lia).
  replace (ea - eb - (ea - eb - 53)) with 53 by lia.
  rewrite Z.shiftl_mul_pow2 by lia.
  pose proof (Z_div_mod (Zpos a * 2 ^ 53) (Zpos b) ltac:(lia)) as Hdm.
  destruct (Z.div_eucl (Zpos a * 2 ^ 53) (Zpos b)) as [q r].
  destruct Hdm as [Heq Hr].
  assert (Hq : 2 ^ 52 <= q < 2 ^ 54).
  { split.
    - assert (2 ^ 52 * 2 ^ 53 <= Zpos a * 2 ^ 53) by lia.
      assert (Zpos b * (q + 1) > 2 ^ 52 * 2 ^ 53) by lia.
      assert (Zpos b * (q + 1) < 2 ^ 53 * (q + 1) \/ q + 1 <= 0) by nia.
      nia.
    - assert (Zpos a * 2 ^ 53 < 2 ^ 53 * 2 ^ 53) by lia.
      assert (Zpos b * q < 2 ^ 53 * 2 ^ 53) by lia.
      nia. }
  destruct (round_division q (ea - eb - 53) (Zpos b) r Hq ltac:(lia) Hr)
    as (mf & j & Hres & Hj & Hmf & Hnear).
  exists mf, j. simpl xorb. rewrite Hres.
  split; [reflexivity|]. split; [exact Hj|]. split; [exact Hmf|].
  rewrite Heq. replace (Zpos b * q + r) with (q * Zpos b + r) by lia.
  exact Hnear.
Qed.

Lemma float_of_nat_spec (n : nat) :
  Z.of_nat n < 2 ^ 63 ->
  Prim2SF (float_of_nat n) = binary_normalize prec emax (Z.of_nat n) 0 false.
Proof.
  intros Hn. unfold float_of_nat. rewrite of_uint63_spec, Uint63.of_Z_spec.
  rewrite Z.mod_small; [reflexivity|]. change Uint63.wB with (2 ^ 63). lia.
Qed.

(** The float quotient of two counts, the first at most the second:
    a float with a full mantissa [mf] and an exponent [ef] below 0,
    whose distance to the exact quotient is at most half a unit of its
    last digit. *)
Lemma div_counts (k n : nat) :
  (0 < k <= n)%nat -> Z.of_nat n < 2 ^ 53 ->
  exists (mf : positive) (ef : Z),
    Prim2SF (PrimFloat.div (float_of_nat k) (float_of_nat n))
    = S754_finite false mf ef /\
    2 ^ 52 <= Zpos mf < 2 ^ 53 /\ ef <= 0 /\
    2 * Z.abs (Zpos mf * Z.of_nat n - Z.of_nat k * 2 ^ (- ef)) <= Z.of_nat n.
Proof.
  intros Hk Hn. rewrite div_spec, !float_of_nat_spec by lia.
  destruct (binary_normalize_count (Z.of_nat k) ltac:(lia))
    as (a & ea & -> & Ha & Hea & Hak & Hka).
  destruct (binary_normalize_count (Z.of_nat n) ltac:(lia))
    as (b & eb & -> & Hb & Heb & Hbn & Hnb).
  assert (Hle : ea <= eb).
  { destruct (Z.le_gt_cases ea eb) as [H|H]; [exact H|].
    assert (2 ^ (53 + eb) <= 2 ^ (52 + ea)) by (apply Z.pow_le_mono_r; lia). lia. }
  destruct (SFdiv_counts a b ea eb Ha Hb ltac:(lia) ltac:(lia))
    as (mf & j & Hd & Hj & Hmf & Hnear).
  exists mf, (ea - eb - 53 + j). split; [exact Hd|]. split; [exact Hmf|].
  split; [lia|]. unfold near in Hnear. rewrite Hak, Hbn in Hnear.
  set (K := Z.of_nat k) in *. set (N := Z.of_nat n) in *.
  set (E := - (ea - eb - 53 + j)).
  assert (HE : 0 <= E) by (unfold E; lia).
  set (c := 2 ^ j * 2 ^ (- eb)).
  assert (Hc : 0 < c).
  { unfold c. apply Z.mul_pos_pos; apply Z.pow_pos_nonneg; lia. }
  assert (Hpow : 2 ^ E * c = 2 ^ (- ea) * 2 ^ 53).
  { unfold c, E. rewrite <- !Z.pow_add_r by lia. f_equal. lia. }
  assert (Hfac : Zpos mf * 2 ^ j * (N * 2 ^ (- eb)) - K * 2 ^ (- ea) * 2 ^ 53
                 = c * (Zpos mf * N - K * 2 ^ E)).
  { replace (K * 2 ^ (- ea) * 2 ^ 53) with (K * (2 ^ E * c))
      by (rewrite Hpow; ring).
    unfold c. generalize (2 ^ j) (2 ^ (- eb)) (2 ^ E). intros x y z. ring. }
  rewrite Hfac, Z.abs_mul, (Z.abs_eq c) in Hnear by lia.
  replace (2 ^ j * (N * 2 ^ (- eb))) with (c * N) in Hnear by (unfold c; ring).
  nia.
Qed.

Lemma nearest_quotient (m : positive) (K N P : Z) :
  0 < N -> 2 * Z.abs (Zpos m * N - K * P) <= N ->
  (Qabs (inject_Z (Zpos m) - (inject_Z K / inject_Z N) * inject_Z P) <= 1 # 2)%Q.
Proof.
  intros HN H. destruct N as [|pn|pn]; try lia.
  assert (E : (inject_Z (Zpos m) - (inject_Z K / inject_Z (Zpos pn)) * inject_Z P
               == (Zpos m * Zpos pn - K * P) # pn)%Q).
  { unfold Qeq, Qminus, Qplus, Qopp, Qmult, Qdiv, Qinv, inject_Z. simpl.
    rewrite ?Pos.mul_1_r, ?Pos2Z.inj_mul. ring. }
  rewrite E. unfold Qabs, Qle. simpl. lia.
Qed.

(** The quotient of a float by one that is not smaller, rounded, is at
    most 1: its exponent is below -52, or it is 1 itself. *)
Lemma quotient_le_one (a b mf j ea eb : Z) :
  2 ^ 52 <= a < 2 ^ 53 -> 2 ^ 52 <= b < 2 ^ 53 -> 2 ^ 52 <= mf < 2 ^ 53 ->
  0 <= j <= 2 -> near mf j (a * 2 ^ 53) b ->
  ea < eb \/ (ea = eb /\ a <= b) ->
  ea - eb - 53 + j < -52 \/ (ea - eb - 53 + j = -52 /\ mf = 2 ^ 52).
Proof.
  intros Ha Hb Hmf Hj Hnear Hord. unfold near in Hnear.
  assert (Hj' : j = 0 \/ j = 1 \/ j = 2) by lia.
  destruct Hj' as [->|[->| ->]]; [left; lia| |].
  - change (2 ^ 1) with 2 in Hnear.
    destruct Hord as [Hlt|[-> Hab]]; [left; lia|].
    right. split; [lia|].
    assert (2 * mf * b <= a * 2 ^ 53 + b) by lia.
    assert (a * 2 ^ 53 <= b * 2 ^ 53) by lia.
    assert (2 * mf <= 2 ^ 53 + 1) by nia. lia.
  - change (2 ^ 2) with 4 in Hnear.
    assert (H4 : 4 * mf * b <= a * 2 ^ 53 + 2 * b) by lia.
    destruct Hord as [Hlt|[-> Hab]].
    + destruct (Z.eq_dec (ea - eb) (-1)) as [E|E]; [|left; lia].
      right. split; [lia|].
      assert (a * 2 ^ 53 <= (2 ^ 53 - 1) * 2 ^ 53) by lia.
      assert (2 ^ 54 * 2 ^ 52 <= 2 ^ 54 * b) by lia.
      assert (mf <= 2 ^ 52) by nia. lia.
    + exfalso.
      assert (a * 2 ^ 53 <= b * 2 ^ 53) by lia.
      assert (4 * mf <= 2 ^ 53 + 2) by nia. lia.
Qed.

(** The float quotient of two counts, the first at most the second, is
    a positive float that is at most 1. *)
Lemma div_counts_le_one (k n : nat) :
  (0 < k <= n)%nat -> Z.of_nat n < 2 ^ 63 ->
  exists (mf : positive) (ef : Z),
    Prim2SF (PrimFloat.div (float_of_nat k) (float_of_nat n))
    = S754_finite false mf ef /\
    (ef < -52 \/ (ef = -52 /\ mf = 4503599627370496%positive)).
Proof.
  intros Hk Hn. rewrite div_spec, !float_of_nat_spec by lia.
  destruct (binary_normalize_float_count (Z.of_nat k) ltac:(lia)) as (-> & Ha & Hea).
  destruct (binary_normalize_float_count (Z.of_nat n) ltac:(lia)) as (-> & Hb & Heb).
  pose proof (float_count_mono (Z.of_nat k) (Z.of_nat n) ltac:(lia) Hn) as Hord.
  destruct (float_count (Z.of_nat k)) as [a ea].
  destruct (float_count (Z.of_nat n)) as [b eb]. cbn [fst snd] in *.
  destruct (SFdiv_counts (Z.to_pos a) (Z.to_pos b) ea eb) as (mf & j & Hd & Hj & Hmf & Hnear);
    rewrite ?Z2Pos.id by lia; try lia.
  rewrite !Z2Pos.id in Hnear by lia.
  exists mf, (ea - eb - 53 + j). split; [exact Hd|].
  destruct (quotient_le_one a b (Zpos mf) j ea eb Ha Hb Hmf Hj Hnear Hord)
    as [H|[H1 H2]]; [left; exact H|right].
  split; [exact H1|]. apply Pos2Z.inj. rewrite H2. reflexivity.
Qed.

(** C8, as amended. On a grid with cells, [calculate_density] returns
    the float quotient of the number of cells equal to 0 by the number
    of cells. The exact quotient of the two times the number of cells
    is the number of filled cells. The float returned is 0 when no
    cell is filled and lies in (0, 1] once a cell is filled; on a grid
    of fewer than 2^53 cells, where the two counts are floats exactly,
    it is a float nearest to the exact quotient, within half a unit of
    its last digit. The number of cells is an [int64], as NumPy has it. *)
Theorem calculate_density_exact_quotient :
  forall g : ndarray,
    well_formed g -> (0 < size g)%nat -> Z.of_nat (size g) <= int64_max ->
    (density_exact g * inject_Z (Z.of_nat (size g))
     == inject_Z (Z.of_nat (count_zero g)))%Q /\
    (count_zero g = 0%nat -> calculate_density g = PrimFloat.zero) /\
    ((0 < count_zero g)%nat ->
     PrimFloat.ltb PrimFloat.zero (calculate_density g) = true /\
     PrimFloat.leb (calculate_density g) PrimFloat.one = true /\
     (0 < density_exact g /\ density_exact g <= 1)%Q) /\
    ((0 < count_zero g)%nat -> Z.of_nat (size g) < 2 ^ 53 ->
     nearest_float (density_exact g) (calculate_density g)).
Proof.
  intros g Hwf Hs Hsize.
  assert (Hsize' : Z.of_nat (size g) < 2 ^ 63) by (unfold int64_max in Hsize; lia).
  pose proof (count_zero_le_size g Hwf) as Hle.
  assert (Hnz : ~ (inject_Z (Z.of_nat (size g)) == 0)%Q).
  { unfold Qeq, inject_Z. simpl. lia. }
  split; [unfold density_exact; field; exact Hnz|]. split; [|split].
  - intros Hz. unfold calculate_density. rewrite Hz.
    apply Prim2SF_inj. rewrite div_spec, !float_of_nat_spec by lia.
    destruct (binary_normalize_float_count (Z.of_nat (size g)) ltac:(lia))
      as (-> & _).
    reflexivity.
  - intros Hc.
    destruct (div_counts_le_one (count_zero g) (size g) ltac:(lia) Hsize')
      as (m & e & Hd & Hone).
    fold (calculate_density g) in Hd.
    split; [|split].
    + rewrite ltb_spec, Hd. reflexivity.
    + rewrite leb_spec, Hd.
      change (Prim2SF PrimFloat.one)
        with (S754_finite false 4503599627370496 (-52)).
      unfold SFleb, SFcompare. destruct Hone as [Hlt|[-> ->]].
      * apply Z.compare_lt_iff in Hlt. rewrite Hlt. reflexivity.
      * reflexivity.
    + unfold density_exact. split.
      * apply Qlt_shift_div_l; [unfold Qlt, inject_Z; simpl; lia|].
        unfold Qlt, Qmult, inject_Z. simpl. lia.
      * apply Qle_shift_div_r; [unfold Qlt, inject_Z; simpl; lia|].
        unfold Qle, Qmult, inject_Z. simpl. lia.
  - intros Hc H53.
    destruct (div_counts (count_zero g) (size g) ltac:(lia) H53)
      as (m & e & Hd & Hm & He & Hn).
    fold (calculate_density g) in Hd.
    exists m, e. split; [exact Hd|]. split; [exact Hm|]. split; [exact He|].
    unfold density_exact. apply nearest_quotient; [lia|exact Hn].
Qed.

Lemma calculate_density_exact_quotient_witness :
  (density_exact grid_seven * inject_Z 49 == inject_Z 1)%Q /\
  PrimFloat.ltb PrimFloat.zero (calculate_density grid_seven) = true /\
  PrimFloat.leb (calculate_density grid_seven) PrimFloat.one = true /\
  nearest_float (1 # 49) (calculate_density grid_seven).
Proof.
  destruct (calculate_density_exact_quotient grid_seven) as (H1 & _ & H3 & H4).
  - apply well_formedb_spec. reflexivity.
  - vm_compute. lia.
  - vm_compute. discriminate.
  - split; [exact H1|].
    destruct H3 as (Hpos & Hle & _); [vm_compute; lia|].
    split; [exact Hpos|]. split; [exact Hle|].
    apply H4; [vm_compute; lia|reflexivity].
Defined.

(** C8 as stated fails on floats: on a 7 x 7 grid with one filled cell
    the density is the float nearest to 1/49, and 49 times it is not 1.
    The same happens at the end of a run of [percolation(7, 1)], which
    fills 4 cells. *)
Lemma density_times_size_is_not_count :
  well_formed grid_seven /\ count_zero grid_seven = 1%nat /\
  density_times_size_is_count grid_seven = false /\
  exists g d, fst (Original.percolation 48 7 1 zero_entropy) = Ok (g, d) /\
              d = calculate_density g /\
              count_zero g = 4%nat /\
              density_times_size_is_count g = false.
Proof.
  split; [apply well_formedb_spec; reflexivity|].
  split; [reflexivity|]. split; [vm_compute; reflexivity|].
  eexists. eexists. split; [vm_compute; reflexivity|].
  repeat split; vm_compute; reflexivity.
Qed.

(** ** Filling a cell *)

Lemma count_zero_insert (vs : list Z) i v :
  vs !! i = Some v -> v <> 0 ->
  length (filter (fun v => v = 0) (<[i := 0]> vs))
  = S (length (filter (fun v => v = 0) vs)).
Proof.
  revert i. induction vs as [|a vs IH]; intros i Hi Hv; [discriminate|].
  destruct i as [|i].
  - simpl in Hi. injection Hi as ->.
    change (<[0%nat := 0]> (v :: vs)) with (0 :: vs).
    rewrite (filter_cons_True _ 0) by reflexivity.
    rewrite (filter_cons_False _ v) by assumption. reflexivity.
  - simpl in Hi. specialize (IH i Hi Hv).
    change (<[S i := 0]> (a :: vs)) with (a :: <[i := 0]> vs).
    destruct (decide (a = 0)).
    + rewrite !(filter_cons_True _ a) by assumption. simpl. rewrite IH. reflexivity.
    + rewrite !(filter_cons_False _ a) by assumption. exact IH.
Qed.

Lemma count_zero_setitem g l g' :
  unfilled g l -> setitem g l 0 = Ok g' -> count_zero g' = S (count_zero g).
Proof.
  intros (v & Hv & Hne) Hs. apply getitem_inv in Hv as [Hb Hl].
  unfold setitem in Hs. rewrite Hb in Hs. injection Hs as <-.
  unfold count_zero. simpl. eapply count_zero_insert; eauto.
Qed.

Lemma zero_in_int64 : in_int64 0.
Proof. unfold in_int64, int64_min, int64_max. lia. Qed.

Lemma fill_inv l w r w' :
  fill l w = (r, w') ->
  (r = Ok tt /\ setitem (arr w) l 0 = Ok (arr w') /\ draws w' = draws w /\
   trace w' = trace w ++ [EvFill l]) \/
  (r = Raise IndexError /\ in_bounds (arr w) l = false /\ w' = w).
Proof.
  unfold fill, setitem. destruct (in_bounds (arr w) l); intros [= <- <-]; auto.
Qed.

Lemma fill_total l w :
  in_bounds (arr w) l = true -> exists w', fill l w = (Ok tt, w').
Proof.
  intros Hb. unfold fill, setitem. rewrite Hb. eauto.
Qed.

Lemma filled_setitem g l g' l' :
  well_formed g -> setitem g l 0 = Ok g' ->
  filled g' l' <-> l' = l \/ filled g l'.
Proof.
  intros Hwf Hs. unfold filled. destruct (decide (l = l')) as [<-|Hne].
  - rewrite (getitem_setitem_eq _ _ _ _ Hwf Hs). tauto.
  - rewrite (getitem_setitem_ne _ _ _ _ _ Hs Hne). split; [auto|].
    intros [->|H]; [contradiction|exact H].
Qed.

Lemma fills_app tr tr' : fills (tr ++ tr') = fills tr ++ fills tr'.
Proof.
  induction tr as [|[dx dy|l] tr IH]; simpl; [reflexivity|exact IH|].
  rewrite IH. reflexivity.
Qed.

Lemma on_boundary_setitem g l v g' l' :
  setitem g l v = Ok g' -> on_boundary g' l' = on_boundary g l'.
Proof.
  intros Hs. apply setitem_shape in Hs as [Hx Hy].
  unfold on_boundary, shape. rewrite Hx, Hy. reflexivity.
Qed.

Lemma size_setitem g l v g' : setitem g l v = Ok g' -> size g' = size g.
Proof.
  intros Hs. apply setitem_shape in Hs as [Hx Hy]. unfold size. rewrite Hx, Hy.
  reflexivity.
Qed.

(** ** One turn of the loop *)

Lemma grow_body is_adjacent e fuel chosen w :
  grow is_adjacent e (S fuel) chosen w
  = if on_boundary (arr w) chosen then (Ok chosen, w)
    else match loop_body is_adjacent e w with
         | (Ok c, w2) => grow is_adjacent e fuel c w2
         | (Raise ex, w2) => (Raise ex, w2)
         | (OutOfFuel, w2) => (OutOfFuel, w2)
         end.
Proof.
  unfold loop_body. simpl. destruct (on_boundary (arr w) chosen); [reflexivity|].
  destruct (choose_next is_adjacent e w) as [[c| |] w1]; try reflexivity.
  destruct (fill c w1) as [[[]| |] w2]; reflexivity.
Qed.

Lemma choose_next_not_out_of_fuel e w :
  well_formed (arr w) -> fst (Original.choose_next e w) <> OutOfFuel.
Proof.
  intros Hwf. unfold Original.choose_next, choose_next.
  rewrite (scan_fold _ original_is_adjacent_unfilled) by assumption.
  unfold amax. destruct (buf (arr w)); simpl; try discriminate.
  unfold random_choice. destruct (_ !! _); discriminate.
Qed.

Lemma choose_next_raise_inv e w ex w' :
  Original.choose_next e w = (Raise ex, w') -> arr w' = arr w /\ trace w' = trace w.
Proof.
  intros H. pose proof (choose_next_frame Original.is_adjacent e w) as Hf.
  fold Original.choose_next in Hf. rewrite H in Hf. exact Hf.
Qed.

(** The location [choose_next] returns can be filled. *)
Lemma fill_after_choose e w c w1 :
  well_formed (arr w) -> Original.choose_next e w = (Ok c, w1) ->
  arr w1 = arr w /\ trace w1 = trace w /\ exists w2, fill c w1 = (Ok tt, w2).
Proof.
  intros Hwf Hc.
  pose proof (original_choose_next_sound e w c w1 Hwf Hc) as [[(v & Hv & _) _] _].
  apply getitem_inv in Hv as [Hb _].
  pose proof (choose_next_frame Original.is_adjacent e w) as [Ha Ht].
  fold Original.choose_next in Ha, Ht. rewrite Hc in Ha, Ht. simpl in Ha, Ht.
  split; [exact Ha|]. split; [exact Ht|].
  apply fill_total. rewrite Ha. exact Hb.
Qed.

(** A turn that completes fills one cell, which was unfilled, and
    touches no other. *)
Lemma loop_body_fills_one e w c w' :
  well_formed (arr w) ->
  loop_body Original.is_adjacent e w = (Ok c, w') ->
  min_candidate (arr w) c /\
  setitem (arr w) c 0 = Ok (arr w') /\
  trace w' = trace w ++ [EvFill c] /\
  count_zero (arr w') = S (count_zero (arr w)) /\
  (forall l, filled (arr w') l <-> l = c \/ filled (arr w) l).
Proof.
  intros Hwf. unfold loop_body. fold Original.choose_next.
  destruct (Original.choose_next e w) as [[c1| |] w1] eqn:Hc; try discriminate.
  destruct (fill_after_choose e w c1 w1 Hwf Hc) as (Ha & Ht & _).
  pose proof (original_choose_next_sound e w c1 w1 Hwf Hc) as Hmin.
  destruct (fill c1 w1) as [[[]| |] w2] eqn:Hf; try discriminate.
  intros [= <- <-].
  apply fill_inv in Hf as [(_ & Hs & _ & Htr)|(Hr & _)]; [|discriminate].
  rewrite Ha in Hs. rewrite Ht in Htr.
  split; [exact Hmin|]. split; [exact Hs|]. split; [exact Htr|].
  split; [apply (count_zero_setitem _ c1); [apply Hmin|exact Hs]|].
  intros l. apply filled_setitem; assumption.
Qed.

Lemma loop_body_raise_inv e w ex w' :
  well_formed (arr w) ->
  loop_body Original.is_adjacent e w = (Raise ex, w') ->
  arr w' = arr w /\ trace w' = trace w.
Proof.
  intros Hwf. unfold loop_body. fold Original.choose_next.
  destruct (Original.choose_next e w) as [[c1| |] w1] eqn:Hc; try discriminate.
  - destruct (fill_after_choose e w c1 w1 Hwf Hc) as (_ & _ & w2 & Hf).
    rewrite Hf. discriminate.
  - intros [= <- <-]. eapply choose_next_raise_inv, Hc.
Qed.

Lemma loop_body_not_out_of_fuel e w :
  well_formed (arr w) -> fst (loop_body Original.is_adjacent e w) <> OutOfFuel.
Proof.
  intros Hwf. pose proof (choose_next_not_out_of_fuel e w Hwf) as Hn.
  unfold loop_body. fold Original.choose_next.
  destruct (Original.choose_next e w) as [[c1| |] w1] eqn:Hc; simpl in *;
    try discriminate; try congruence.
  destruct (fill_after_choose e w c1 w1 Hwf Hc) as (_ & _ & w2 & Hf).
  rewrite Hf. discriminate.
Qed.

(** The invariant survives a turn taken when the chosen cell is off the
    boundary. *)
Lemma loop_body_preserves sp e w chosen c w' :
  0 <= sp ->
  loop_inv sp w chosen -> on_boundary (arr w) chosen = false ->
  loop_body Original.is_adjacent e w = (Ok c, w') ->
  loop_inv sp w' c.
Proof.
  intros Hsp [Hwf Hsq Hch Hint Hr Hfi Hnd Hcnt] Hob Hb.
  apply loop_body_fills_one in Hb as (Hmin & Hs & Htr & Hc1 & Hfilled); [|assumption].
  assert (Hun : unfilled (arr w) c) by apply Hmin.
  assert (Hnf : ~ filled (arr w) c).
  { destruct Hun as (v & Hv & Hne). unfold filled. rewrite Hv. congruence. }
  pose proof (setitem_shape _ _ _ _ Hs) as [Hx Hy].
  constructor.
  - eapply setitem_well_formed; [exact Hwf|apply zero_in_int64|exact Hs].
  - rewrite Hx, Hy. exact Hsq.
  - apply Hfilled. left. reflexivity.
  - intros l Hl Hne. apply Hfilled in Hl as [->|Hl]; [contradiction|].
    rewrite (on_boundary_setitem _ _ _ _ _ Hs).
    destruct (decide (l = chosen)) as [->|Hlc]; [exact Hob|].
    apply Hint; assumption.
  - unfold setitem in Hs. destruct (in_bounds (arr w) c); [|discriminate].
    injection Hs as <-. simpl. apply Forall_insert; [exact Hr|lia].
  - intros l. rewrite Htr, fills_app, in_app_iff, Hfilled, Hfi. simpl.
    split; intros [H|H]; auto.
    destruct H as [->|[]]. auto.
  - rewrite Htr, fills_app. simpl.
    apply NoDup_ListNoDup, NoDup_app. split; [apply NoDup_ListNoDup, Hnd|].
    split; [|apply NoDup_singleton].
    intros l Hl Hl'. apply list_elem_of_In in Hl. apply list_elem_of_singleton in Hl'.
    subst l. apply Hnf, Hfi, Hl.
  - rewrite Hc1, Hcnt, Htr, fills_app, length_app. simpl. lia.
Qed.

(** ** The whole loop *)

Lemma grow_zero is_adjacent e chosen w :
  grow is_adjacent e 0 chosen w
  = if on_boundary (arr w) chosen then (Ok chosen, w) else (OutOfFuel, w).
Proof. reflexivity. Qed.

(** The invariant holds when the loop is left, however it is left; the
    cells filled on entry are still filled, and the trace has grown at
    its end only. *)
Lemma grow_invariant sp e fuel : forall chosen w r w',
  0 <= sp -> loop_inv sp w chosen ->
  grow Original.is_adjacent e fuel chosen w = (r, w') ->
  exists c', loop_inv sp w' c' /\
    (forall c, r = Ok c -> c = c' /\ on_boundary (arr w') c = true) /\
    (forall l, filled (arr w) l -> filled (arr w') l) /\
    (exists more, fills (trace w') = fills (trace w) ++ more).
Proof.
  induction fuel as [|fuel IH]; intros chosen w r w' Hsp Hinv.
  - rewrite grow_zero. destruct (on_boundary (arr w) chosen) eqn:Hob;
      intros [= <- <-]; exists chosen; (split; [exact Hinv|]);
      (split; [intros c [= <-]; auto|]); (split; [auto|]);
      exists []; rewrite app_nil_r; reflexivity.
  - rewrite grow_body. destruct (on_boundary (arr w) chosen) eqn:Hob.
    + intros [= <- <-]. exists chosen. split; [exact Hinv|].
      split; [intros c [= <-]; auto|]. split; [auto|].
      exists []. rewrite app_nil_r. reflexivity.
    + destruct (loop_body Original.is_adjacent e w) as [[c| |] w2] eqn:Hb.
      * intros Hg.
        pose proof (loop_body_preserves sp e w chosen c w2 Hsp Hinv Hob Hb) as Hinv2.
        apply loop_body_fills_one in Hb as (_ & _ & Htr & _ & Hfilled);
          [|apply Hinv].
        destruct (IH c w2 r w' Hsp Hinv2 Hg) as (c' & Hinv' & Hr & Hmono & more & Hmore).
        exists c'. split; [exact Hinv'|]. split; [exact Hr|]. split.
        -- intros l Hl. apply Hmono, Hfilled. right. exact Hl.
        -- exists (c :: more). rewrite Hmore, Htr, fills_app, <- app_assoc.
           reflexivity.
      * intros [= <- <-].
        apply loop_body_raise_inv in Hb as [Ha Ht]; [|apply Hinv].
        exists chosen. split.
        { destruct Hinv. constructor; rewrite ?Ha, ?Ht; assumption. }
        split; [discriminate|]. split; [rewrite Ha; auto|].
        exists []. rewrite Ht, app_nil_r. reflexivity.
      * exfalso. apply (loop_body_not_out_of_fuel e w); [apply Hinv|].
        rewrite Hb. reflexivity.
Qed.

(** More fuel does not change a run that ended. *)
Lemma grow_fuel_mono is_adjacent e fuel : forall k chosen w,
  fst (grow is_adjacent e fuel chosen w) <> OutOfFuel ->
  grow is_adjacent e (fuel + k) chosen w = grow is_adjacent e fuel chosen w.
Proof.
  induction fuel as [|fuel IH]; intros k chosen w Hne.
  - rewrite grow_zero in *. destruct (on_boundary (arr w) chosen) eqn:Hob.
    + destruct k; simpl; rewrite Hob; reflexivity.
    + simpl in Hne. congruence.
  - change (S fuel + k)%nat with (S (fuel + k)). rewrite !grow_body in *.
    destruct (on_boundary (arr w) chosen); [reflexivity|].
    destruct (loop_body is_adjacent e w) as [[c| |] w2]; try reflexivity.
    apply IH, Hne.
Qed.

Lemma filter_zero_all (vs : list Z) :
  length (filter (fun v => v = 0) vs) = length vs -> Forall (fun v => v = 0) vs.
Proof.
  induction vs as [|a vs IH]; intros Hlen; [constructor|].
  destruct (decide (a = 0)) as [Ha|Ha].
  - rewrite filter_cons_True in Hlen by assumption. simpl in Hlen.
    constructor; [assumption|]. apply IH. lia.
  - rewrite filter_cons_False in Hlen by assumption. simpl in Hlen.
    pose proof (length_filter (fun v => v = 0) vs). lia.
Qed.

Lemma all_filled g l :
  well_formed g -> count_unfilled g = 0%nat -> in_bounds g l = true -> filled g l.
Proof.
  intros Hwf Hc Hb. pose proof (count_zero_le_size g Hwf) as Hle.
  unfold count_unfilled in Hc. destruct Hwf as [Hlen Hr].
  assert (Hall : Forall (fun v => v = 0) (buf g)).
  { apply filter_zero_all. unfold count_zero, size in *. lia. }
  unfold filled, getitem. rewrite Hb.
  destruct (buf g !! offset g l) as [v|] eqn:E.
  - rewrite (Forall_lookup_1 _ _ _ _ Hall E). reflexivity.
  - apply lookup_ge_None in E. apply offset_lt in Hb. lia.
Qed.

Lemma on_boundary_row0 g y : on_boundary g (0%nat, y) = true.
Proof. reflexivity. Qed.

(** While the chosen cell is off the boundary, no cell of row 0 is
    filled. *)
Lemma row0_unfilled sp w chosen y :
  loop_inv sp w chosen -> on_boundary (arr w) chosen = false ->
  in_bounds (arr w) (0%nat, y) = true -> unfilled (arr w) (0%nat, y).
Proof.
  intros Hinv Hob Hb. apply unfilled_iff; [apply Hinv|]. split; [exact Hb|].
  intros Hz. assert (Hf : filled (arr w) (0%nat, y)).
  { apply filled_iff; [apply Hinv|]. auto. }
  assert (Hne : (0%nat, y) <> chosen).
  { intros <-. rewrite on_boundary_row0 in Hob. discriminate. }
  pose proof (inv_interior _ _ _ Hinv _ Hf Hne) as H.
  rewrite on_boundary_row0 in H. discriminate.
Qed.

(** The loop ends within as many turns as there are unfilled cells. *)
Lemma grow_terminates sp e fuel : forall chosen w,
  0 <= sp -> loop_inv sp w chosen -> (0 < dim_x (arr w))%nat ->
  (count_unfilled (arr w) <= fuel)%nat ->
  fst (grow Original.is_adjacent e fuel chosen w) <> OutOfFuel.
Proof.
  induction fuel as [|fuel IH]; intros chosen w Hsp Hinv Hdim Hfuel.
  - rewrite grow_zero. destruct (on_boundary (arr w) chosen) eqn:Hob; [discriminate|].
    exfalso.
    assert (Hb : in_bounds (arr w) (0, 0)%nat = true).
    { apply in_bounds_spec. simpl. rewrite <- (inv_square _ _ _ Hinv). lia. }
    pose proof (row0_unfilled sp w chosen 0%nat Hinv Hob Hb) as (v & Hv & Hne).
    assert (Hf : filled (arr w) (0, 0)%nat).
    { apply all_filled; [apply Hinv|lia|exact Hb]. }
    unfold filled in Hf. congruence.
  - rewrite grow_body. destruct (on_boundary (arr w) chosen) eqn:Hob; [discriminate|].
    pose proof (loop_body_not_out_of_fuel e w (inv_wf _ _ _ Hinv)) as Hno.
    destruct (loop_body Original.is_adjacent e w) as [[c| |] w2] eqn:Hb;
      [|discriminate|simpl in Hno; congruence].
    pose proof (loop_body_preserves sp e w chosen c w2 Hsp Hinv Hob Hb) as Hinv2.
    apply loop_body_fills_one in Hb as (_ & Hs & _ & Hc1 & _); [|apply Hinv].
    pose proof (setitem_shape _ _ _ _ Hs) as [Hx Hy].
    apply IH; [exact Hsp|exact Hinv2|lia|].
    unfold count_unfilled in *. rewrite (size_setitem _ _ _ _ Hs), Hc1. lia.
Qed.

(** ** A candidate exists while the boundary is not reached *)

(** Above a filled cell, in a column whose top is unfilled, some
    unfilled cell sits right over a filled one. *)
Lemma column_walk g y : forall x,
  well_formed g -> in_bounds g (x, y) = true ->
  filled g (x, y) -> unfilled g (0%nat, y) ->
  exists i, (i < x)%nat /\ unfilled g (i, y) /\ filled g (S i, y).
Proof.
  induction x as [|x IH]; intros Hwf Hb Hf Hu.
  - destruct Hu as (v & Hv & Hne). unfold filled in Hf. congruence.
  - assert (Hb' : in_bounds g (x, y) = true).
    { apply in_bounds_spec in Hb. apply in_bounds_spec. simpl in *. lia. }
    destruct (Z.eq_dec (cell g (x, y)) 0) as [Hz|Hnz].
    + destruct IH as (i & Hi & Hiu & Hif); try assumption.
      { apply filled_iff; auto. }
      exists i. split; [lia|auto].
    + exists x. split; [lia|]. split; [|exact Hf].
      apply unfilled_iff; auto.
Qed.

Lemma candidate_exists sp w chosen :
  loop_inv sp w chosen -> on_boundary (arr w) chosen = false ->
  exists c, candidate (arr w) c.
Proof.
  intros Hinv Hob. destruct chosen as [x y].
  pose proof (inv_chosen _ _ _ Hinv) as Hf.
  pose proof (inv_wf _ _ _ Hinv) as Hwf.
  assert (Hb : in_bounds (arr w) (x, y) = true) by apply (getitem_inv _ _ _ Hf).
  assert (Hb0 : in_bounds (arr w) (0%nat, y) = true).
  { apply in_bounds_spec in Hb. apply in_bounds_spec. simpl in *. lia. }
  pose proof (row0_unfilled sp w (x, y) y Hinv Hob Hb0) as Hu.
  destruct (column_walk (arr w) y x Hwf Hb Hf Hu) as (i & Hi & Hiu & Hif).
  exists (i, y). split; [exact Hiu|]. exists (S i, y). split; [|exact Hif].
  right. simpl. auto.
Qed.

Lemma amax_bounded sp g m :
  Forall (fun v => 0 <= v <= sp) (buf g) -> amax g = Ok m -> m <= sp.
Proof.
  intros Hr Hm. unfold amax in Hm. destruct (buf g) as [|a vs]; [discriminate|].
  injection Hm as <-. rewrite List.Forall_forall in Hr.
  apply (Hr (fold_left Z.max vs a)). apply fold_max_In.
Qed.

(** With values below the largest [int64], a turn taken off the boundary
    completes. *)
Lemma loop_body_total sp e w chosen :
  sp < int64_max -> loop_inv sp w chosen -> on_boundary (arr w) chosen = false ->
  exists c w', loop_body Original.is_adjacent e w = (Ok c, w').
Proof.
  intros Hsp Hinv Hob. pose proof (inv_wf _ _ _ Hinv) as Hwf.
  destruct (candidate_exists sp w chosen Hinv Hob) as [c0 Hc0].
  assert (Hsz : (0 < size (arr w))%nat).
  { destruct Hc0 as [(v & Hv & _) _]. apply getitem_inv in Hv as [Hb _].
    apply offset_lt in Hb. unfold size. lia. }
  destruct (amax_total _ Hsz Hwf) as [m Hm].
  pose proof (amax_bounded sp _ m (inv_range _ _ _ Hinv) Hm) as Hle.
  destruct (original_choose_next_succeeds_iff e w m Hwf Hm) as [[_ Hex] _]; [lia|].
  destruct Hex as (c & w1 & Hc); [eauto|].
  destruct (fill_after_choose e w c w1 Hwf Hc) as (_ & _ & w2 & Hf).
  exists c, w2. unfold loop_body. fold Original.choose_next. rewrite Hc, Hf.
  reflexivity.
Qed.

(** With values below the largest [int64], the loop ends by reaching
    the boundary. *)
Lemma grow_returns sp e fuel : forall chosen w,
  0 <= sp < int64_max -> loop_inv sp w chosen -> (0 < dim_x (arr w))%nat ->
  (count_unfilled (arr w) <= fuel)%nat ->
  exists c w', grow Original.is_adjacent e fuel chosen w = (Ok c, w').
Proof.
  induction fuel as [|fuel IH]; intros chosen w Hsp Hinv Hdim Hfuel.
  - pose proof (grow_terminates sp e 0 chosen w (proj1 Hsp) Hinv Hdim Hfuel) as Hne.
    rewrite grow_zero in *. destruct (on_boundary (arr w) chosen); [eauto|].
    simpl in Hne. congruence.
  - rewrite grow_body. destruct (on_boundary (arr w) chosen) eqn:Hob; [eauto|].
    destruct (loop_body_total sp e w chosen (proj2 Hsp) Hinv Hob) as (c & w2 & Hb).
    rewrite Hb.
    pose proof (loop_body_preserves sp e w chosen c w2 (proj1 Hsp) Hinv Hob Hb) as Hinv2.
    apply loop_body_fills_one in Hb as (_ & Hs & _ & Hc1 & _); [|apply Hinv].
    pose proof (setitem_shape _ _ _ _ Hs) as [Hx Hy].
    apply IH; [exact Hsp|exact Hinv2|lia|].
    unfold count_unfilled in *. rewrite (size_setitem _ _ _ _ Hs), Hc1. lia.
Qed.

(** ** The grid [make_grid] returns *)

Lemma make_grid_inv size spread e g :
  make_grid size spread e = Ok g ->
  0 <= size /\ (0 < size -> 1 <= spread <= int64_max) /\
  dim_x g = Z.to_nat size /\ dim_y g = Z.to_nat size /\
  well_formed g /\ Forall (fun v => 1 <= v <= spread) (buf g).
Proof.
  unfold make_grid.
  destruct (Z.ltb_spec size 0); [discriminate|].
  destruct (Z.eqb_spec size 0) as [->|Hne].
  { intros [= <-]. simpl. repeat split; try lia; constructor. }
  destruct (Z.ltb_spec spread 1); simpl; [discriminate|].
  destruct (Z.ltb_spec int64_max spread); simpl; [discriminate|].
  intros [= <-]. simpl.
  assert (Hall : Forall (fun v => 1 <= v <= spread)
                   (map (fun i => 1 + Z.of_nat (np_draw e i) mod spread)
                        (seq 0 (Z.to_nat size * Z.to_nat size)))).
  { apply List.Forall_forall. intros v Hv. apply in_map_iff in Hv as (i & <- & _).
    pose proof (Z.mod_pos_bound (Z.of_nat (np_draw e i)) spread). lia. }
  repeat split; try lia; try assumption.
  - simpl. rewrite length_map, length_seq. reflexivity.
  - simpl. eapply Forall_impl; [exact Hall|]. simpl.
    intros v Hv. unfold in_int64, int64_min, int64_max in *. lia.
Qed.

(** The cells of a fresh grid lie below a bound that is not negative,
    also on the grid without cells, whose spread can be anything. *)
Lemma make_grid_range size spread e g :
  make_grid size spread e = Ok g ->
  Forall (fun v => 1 <= v <= Z.max spread 0) (buf g).
Proof.
  intros Hg. apply make_grid_inv in Hg as (_ & _ & _ & _ & _ & Hr).
  eapply Forall_impl; [exact Hr|]. simpl. intros v Hv. lia.
Qed.

Lemma make_grid_total size spread e :
  0 <= size -> 1 <= spread <= int64_max ->
  exists g, make_grid size spread e = Ok g.
Proof.
  intros Hs Hsp. unfold make_grid.
  destruct (Z.ltb_spec size 0); [lia|].
  destruct (size =? 0); [eauto|].
  destruct (Z.ltb_spec spread 1); [lia|].
  destruct (Z.ltb_spec int64_max spread); [lia|]. simpl. eauto.
Qed.

Lemma count_zero_fresh g sp :
  Forall (fun v => 1 <= v <= sp) (buf g) -> count_zero g = 0%nat.
Proof.
  unfold count_zero. induction 1 as [|v vs Hv _ IH]; [reflexivity|].
  rewrite filter_cons_False by lia. exact IH.
Qed.

Lemma fresh_not_filled g sp l :
  Forall (fun v => 1 <= v <= sp) (buf g) -> ~ filled g l.
Proof.
  intros Hr Hf. apply getitem_inv in Hf as [_ Hl].
  pose proof (Forall_lookup_1 _ _ _ _ Hr Hl). simpl in *. lia.
Qed.

(** The invariant holds after the middle cell of a fresh grid is filled. *)
Lemma seed_invariant sp g l w1 :
  0 <= sp -> well_formed g -> dim_x g = dim_y g ->
  Forall (fun v => 1 <= v <= sp) (buf g) ->
  fill l (mk_world g 0 [EvAlloc (dim_x g) (dim_y g)]) = (Ok tt, w1) ->
  loop_inv sp w1 l /\ count_zero (arr w1) = 1%nat /\ size (arr w1) = size g /\
  dim_x (arr w1) = dim_x g.
Proof.
  intros Hsp Hwf Hsq Hr Hf.
  apply fill_inv in Hf as [(_ & Hs & _ & Htr)|(Hx & _)]; [|discriminate].
  simpl in Hs, Htr.
  assert (Hun : unfilled g l).
  { unfold setitem in Hs. destruct (in_bounds g l) eqn:Hb; [|discriminate].
    apply unfilled_iff; [assumption|]. split; [exact Hb|].
    intros Hz. apply (fresh_not_filled g sp l Hr). apply filled_iff; auto. }
  pose proof (setitem_shape _ _ _ _ Hs) as [Hx Hy].
  pose proof (count_zero_setitem g l _ Hun Hs) as Hc.
  rewrite (count_zero_fresh g sp Hr) in Hc.
  split; [|split; [exact Hc|split; [eapply size_setitem, Hs|exact Hx]]].
  constructor.
  - eapply setitem_well_formed; [exact Hwf|apply zero_in_int64|exact Hs].
  - rewrite Hx, Hy. exact Hsq.
  - eapply getitem_setitem_eq; eauto.
  - intros l' Hl' Hne. apply (filled_setitem g l _ l' Hwf Hs) in Hl' as [->|Hl'];
      [contradiction|]. destruct (fresh_not_filled g sp l' Hr Hl').
  - unfold setitem in Hs. destruct (in_bounds g l); [|discriminate].
    injection Hs as <-. simpl. apply Forall_insert; [|lia].
    eapply Forall_impl; [exact Hr|]. simpl. intros v Hv. lia.
  - intros l'. rewrite Htr. simpl. rewrite (filled_setitem g l _ l' Hwf Hs).
    split; [intros [->|[]]; auto|].
    intros [->|Hl']; [auto|]. destruct (fresh_not_filled g sp l' Hr Hl').
  - rewrite Htr. simpl. constructor; [simpl; tauto|constructor].
  - rewrite Hc, Htr. reflexivity.
Qed.

(** ** Runs of [percolation] *)

Lemma loop_body_agree e w :
  loop_body Tested.is_adjacent e w = loop_body Original.is_adjacent e w.
Proof.
  unfold loop_body. fold Tested.choose_next Original.choose_next.
  rewrite choose_next_agree. reflexivity.
Qed.

Lemma grow_agree e fuel : forall chosen w,
  grow Tested.is_adjacent e fuel chosen w = grow Original.is_adjacent e fuel chosen w.
Proof.
  induction fuel as [|fuel IH]; intros chosen w; [reflexivity|].
  rewrite !grow_body, loop_body_agree.
  destruct (on_boundary (arr w) chosen); [reflexivity|].
  destruct (loop_body Original.is_adjacent e w) as [[c| |] w2]; auto.
Qed.

Lemma simulate_agree e fuel g middle :
  simulate Tested.is_adjacent e fuel g middle
  = simulate Original.is_adjacent e fuel g middle.
Proof.
  unfold simulate. destruct (fill _ _) as [[[]| |] w1]; try reflexivity.
  rewrite grow_agree. reflexivity.
Qed.

Lemma tested_percolation_valid fuel sz sp e :
  0 < sz -> sz mod 2 = 1 -> 0 < sp ->
  Tested.percolation fuel (PyInt sz) (PyInt sp) e = Original.percolation fuel sz sp e.
Proof.
  intros Hsz Hodd Hsp. unfold Tested.percolation, Original.percolation.
  destruct (Z.ltb_spec 0 sz); [|lia]. destruct (Z.eqb_spec (sz mod 2) 1); [|lia].
  destruct (Z.ltb_spec 0 sp); [|lia]. simpl.
  destruct (make_grid sz sp e); try reflexivity.
  rewrite simulate_agree, Z.quot_div_nonneg by lia. reflexivity.
Qed.

(** A run from a fresh grid fills no cell twice, and the grid it returns
    has exactly the cells of its trace filled. *)
Lemma simulate_growth sp e fuel g middle r tr :
  0 <= sp -> well_formed g -> dim_x g = dim_y g ->
  Forall (fun v => 1 <= v <= sp) (buf g) ->
  simulate Original.is_adjacent e fuel g middle = (r, tr) ->
  List.NoDup (fills tr) /\
  forall g' d, r = Ok (g', d) ->
    count_zero g' = length (fills tr) /\
    forall l, filled g' l <-> In l (fills tr).
Proof.
  intros Hsp Hwf Hsq Hr. unfold simulate.
  destruct (fill (middle, middle) _) as [[[]| |] w1] eqn:Hf.
  - destruct (seed_invariant sp g _ w1 Hsp Hwf Hsq Hr Hf) as (Hinv & _).
    destruct (grow Original.is_adjacent e fuel (middle, middle) w1) as [r2 w2] eqn:Hg.
    destruct (grow_invariant sp e fuel _ _ _ _ Hsp Hinv Hg) as (c' & Hinv' & _).
    destruct r2 as [c| |]; intros [= <- <-];
      (split; [apply Hinv'|]); try discriminate.
    intros g' d [= <- _]. split; [apply Hinv'|].
    intros l. symmetry. apply Hinv'.
  - apply fill_inv in Hf as [(Hx & _)|(_ & _ & ->)]; [discriminate|].
    intros [= <- <-]. simpl. split; [constructor|discriminate].
  - apply fill_inv in Hf as [(Hx & _)|(Hx & _)]; discriminate.
Qed.

(** A run from a fresh grid with a middle cell needs no more turns than
    the grid has cells besides the middle. *)
Lemma simulate_terminates sp e fuel g middle :
  0 <= sp -> well_formed g -> dim_x g = dim_y g ->
  Forall (fun v => 1 <= v <= sp) (buf g) ->
  in_bounds g (middle, middle) = true ->
  (size g - 1 <= fuel)%nat ->
  fst (simulate Original.is_adjacent e fuel g middle) <> OutOfFuel /\
  simulate Original.is_adjacent e fuel g middle
  = simulate Original.is_adjacent e (size g - 1) g middle /\
  (sp < int64_max ->
   exists g' d, fst (simulate Original.is_adjacent e fuel g middle) = Ok (g', d)).
Proof.
  intros Hsp Hwf Hsq Hr Hb Hfuel. unfold simulate.
  destruct (fill_total (middle, middle)
              (mk_world g 0 [EvAlloc (dim_x g) (dim_y g)]) Hb) as [w1 Hf].
  rewrite Hf.
  destruct (seed_invariant sp g _ w1 Hsp Hwf Hsq Hr Hf) as (Hinv & Hc & Hs & Hx).
  assert (Hdim : (0 < dim_x (arr w1))%nat).
  { rewrite Hx. apply in_bounds_spec in Hb. simpl in Hb. lia. }
  assert (Hun : count_unfilled (arr w1) = (size g - 1)%nat).
  { unfold count_unfilled. rewrite Hs, Hc. reflexivity. }
  assert (Hmin : fst (grow Original.is_adjacent e (size g - 1) (middle, middle) w1)
                 <> OutOfFuel).
  { apply (grow_terminates sp); try assumption. lia. }
  replace fuel with ((size g - 1) + (fuel - (size g - 1)))%nat by lia.
  rewrite (grow_fuel_mono _ e _ _ _ _ Hmin).
  split; [|split; [reflexivity|]].
  - destruct (grow Original.is_adjacent e (size g - 1) (middle, middle) w1)
      as [[c| |] w2]; simpl in *; congruence.
  - intros Hlt.
    destruct (grow_returns sp e (size g - 1) (middle, middle) w1) as (c & w2 & Hg);
      try assumption; [lia|lia|].
    rewrite Hg. simpl. eauto.
Qed.

Lemma middle_in_bounds sz g :
  0 < sz -> dim_x g = Z.to_nat sz -> dim_y g = Z.to_nat sz ->
  in_bounds g (Z.to_nat (sz / 2), Z.to_nat (sz / 2)) = true.
Proof.
  intros Hsz Hx Hy. apply in_bounds_spec. simpl. rewrite Hx, Hy.
  assert (0 <= sz / 2 < sz) by (split; [apply Z.div_pos; lia|apply Z.div_lt; lia]).
  lia.
Qed.

Lemma original_percolation_growth fuel sz sp e :
  List.NoDup (fills (snd (Original.percolation fuel sz sp e))) /\
  forall g d, fst (Original.percolation fuel sz sp e) = Ok (g, d) ->
    count_zero g = length (fills (snd (Original.percolation fuel sz sp e))) /\
    forall l, filled g l <-> In l (fills (snd (Original.percolation fuel sz sp e))).
Proof.
  unfold Original.percolation.
  destruct (make_grid sz sp e) as [g0| |] eqn:Hm;
    try (simpl; split; [constructor|discriminate]).
  pose proof (make_grid_range _ _ _ _ Hm) as Hr.
  apply make_grid_inv in Hm as (_ & _ & Hx & Hy & Hwf & _).
  destruct (simulate Original.is_adjacent e fuel g0 (Z.to_nat (sz / 2)))
    as [r tr] eqn:Hs.
  apply (simulate_growth (Z.max sp 0)) in Hs as [Hnd Hok];
    try assumption; try lia; try congruence.
  simpl. split; [exact Hnd|]. intros g d Hr'. apply (Hok g d Hr').
Qed.

Lemma original_percolation_terminates fuel sz sp e :
  0 < sz -> 0 < sp -> (Z.to_nat (sz * sz - 1) <= fuel)%nat ->
  fst (Original.percolation fuel sz sp e) <> OutOfFuel /\
  Original.percolation fuel sz sp e
  = Original.percolation (Z.to_nat (sz * sz - 1)) sz sp e /\
  (sp < int64_max -> exists g d, fst (Original.percolation fuel sz sp e) = Ok (g, d)).
Proof.
  intros Hsz Hsp Hfuel. unfold Original.percolation.
  destruct (make_grid sz sp e) as [g0| |] eqn:Hm.
  - apply make_grid_inv in Hm as (_ & _ & Hx & Hy & Hwf & Hr).
    assert (Hsize : size g0 = Z.to_nat (sz * sz)).
    { unfold size. rewrite Hx, Hy. lia. }
    assert (Hs1 : (size g0 - 1)%nat = Z.to_nat (sz * sz - 1)) by lia.
    rewrite <- Hs1 in *.
    apply (simulate_terminates sp); try assumption; try lia; try congruence.
    apply (middle_in_bounds sz); assumption.
  - split; [discriminate|]. split; [reflexivity|]. intros Hlt.
    destruct (make_grid_total sz sp e) as [g Hg]; [lia|unfold int64_max in *; lia|].
    congruence.
  - unfold make_grid in Hm.
    repeat match type of Hm with
           | context [if ?b then _ else _] => destruct b
           end; discriminate.
Qed.



(** C6. For every positive odd size and positive spread, and whatever
    is drawn, the loop of [percolation] ends within size * size - 1
    turns: with that much fuel the run does not run out, and more fuel
    changes nothing. For spreads below the largest [int64] the run ends
    by returning the grid. *)
Theorem percolation_terminates :
  forall (sz sp : Z) (e : entropy) (fuel : nat),
    0 < sz -> sz mod 2 = 1 -> 0 < sp ->
    (Z.to_nat (sz * sz - 1) <= fuel)%nat ->
    (fst (Original.percolation fuel sz sp e) <> OutOfFuel /\
     Original.percolation fuel sz sp e
     = Original.percolation (Z.to_nat (sz * sz - 1)) sz sp e /\
     (sp < int64_max ->
      exists g d, fst (Original.percolation fuel sz sp e) = Ok (g, d))) /\
    (fst (Tested.percolation fuel (PyInt sz) (PyInt sp) e) <> OutOfFuel /\
     Tested.percolation fuel (PyInt sz) (PyInt sp) e
     = Tested.percolation (Z.to_nat (sz * sz - 1)) (PyInt sz) (PyInt sp) e /\
     (sp < int64_max ->
      exists g d, fst (Tested.percolation fuel (PyInt sz) (PyInt sp) e) = Ok (g, d))).
Proof.
  intros sz sp e fuel Hsz Hodd Hsp Hfuel.
  rewrite !tested_percolation_valid by assumption.
  split; apply original_percolation_terminates; assumption.
Qed.

Lemma percolation_terminates_witness :
  fst (Original.percolation 8 3 9 zero_entropy) <> OutOfFuel /\
  fst (Tested.percolation 8 (PyInt 3) (PyInt 9) zero_entropy) <> OutOfFuel.
Proof.
  destruct (percolation_terminates 3 9 zero_entropy 8) as [(H1 & _) (H2 & _)].
  - lia.
  - reflexivity.
  - lia.
  - vm_compute. lia.
  - split; [exact H1|exact H2].
Defined.

(** * More of the notebooks *)

(** ** [make_grid] *)

(** X1. [make_grid] raises [ValueError] on a negative size, and on a
    spread below 1 when the size is positive; on a size that is not
    negative and a spread within 1..2^63-2 it returns. What it returns
    is a well-formed size x size array whose every cell is the value
    drawn for it, within 1..spread, so that no cell of a fresh grid is
    filled. *)
Theorem make_grid_spec :
  forall (size spread : Z) (e : entropy),
    (size < 0 -> make_grid size spread e = Raise ValueError) /\
    (0 < size -> spread < 1 -> make_grid size spread e = Raise ValueError) /\
    (0 <= size -> 1 <= spread < int64_max ->
     exists g, make_grid size spread e = Ok g) /\
    (forall g, make_grid size spread e = Ok g ->
       shape g = (Z.to_nat size, Z.to_nat size) /\ well_formed g /\
       count_zero g = 0%nat /\
       forall l, in_bounds g l = true ->
         getitem g l = Ok (1 + Z.of_nat (np_draw e (offset g l)) mod spread) /\
         1 <= cell g l <= spread /\ unfilled g l).
Proof.
  intros size spread e. split; [|split; [|split]].
  - intros Hs. unfold make_grid. destruct (Z.ltb_spec size 0); [reflexivity|lia].
  - intros Hs Hsp. unfold make_grid.
    destruct (Z.ltb_spec size 0); [reflexivity|].
    destruct (Z.eqb_spec size 0); [lia|].
    destruct (Z.ltb_spec spread 1); [reflexivity|lia].
  - intros Hs Hsp. apply make_grid_total; lia.
  - intros g Hg. pose proof Hg as Hg'.
    apply make_grid_inv in Hg' as (Hs & Hsp & Hx & Hy & Hwf & Hr).
    split; [unfold shape; congruence|]. split; [exact Hwf|].
    split; [apply (count_zero_fresh g spread Hr)|].
    intros l Hb.
    assert (Hpos : 0 < size).
    { apply in_bounds_spec in Hb. lia. }
    specialize (Hsp Hpos).
    assert (Hget : getitem g l
                   = Ok (1 + Z.of_nat (np_draw e (offset g l)) mod spread)).
    { pose proof (offset_lt g l Hb) as Hlt. unfold getitem. rewrite Hb.
      unfold make_grid in Hg.
      destruct (Z.ltb_spec size 0); [discriminate|].
      destruct (Z.eqb_spec size 0); [lia|].
      destruct (_ || _); [discriminate|].
      injection Hg as <-. simpl in *.
      change (map (fun i => 1 + Z.of_nat (np_draw e i) mod spread)
                  (seq 0 (Z.to_nat size * Z.to_nat size)))
        with ((fun i => 1 + Z.of_nat (np_draw e i) mod spread)
                <$> seq 0 (Z.to_nat size * Z.to_nat size)).
      rewrite list_lookup_fmap, lookup_seq_lt by exact Hlt. reflexivity. }
    split; [exact Hget|].
    pose proof (Z.mod_pos_bound (Z.of_nat (np_draw e (offset g l))) spread).
    unfold cell. rewrite Hget. split; [lia|].
    eexists. split; [exact Hget|lia].
Qed.

(** ** [fill] *)

(** X2. On a cell of the grid [fill] succeeds and writes that cell
    only: the cell reads 0 afterwards, every other location reads as
    before, the shape is kept, no draw is made and one fill is recorded. *)
Theorem fill_writes_one_cell :
  forall (l : loc) (w : world),
    well_formed (arr w) -> in_bounds (arr w) l = true ->
    exists w', fill l w = (Ok tt, w') /\
      well_formed (arr w') /\ shape (arr w') = shape (arr w) /\
      getitem (arr w') l = Ok 0 /\
      (forall l', l' <> l -> getitem (arr w') l' = getitem (arr w) l') /\
      draws w' = draws w /\ trace w' = trace w ++ [EvFill l].
Proof.
  intros l w Hwf Hb. destruct (fill_total l w Hb) as [w' Hf]. exists w'.
  split; [exact Hf|].
  apply fill_inv in Hf as [(_ & Hs & Hd & Ht)|(Hx & _)]; [|discriminate].
  pose proof (setitem_shape _ _ _ _ Hs) as [Hx Hy].
  split; [eapply setitem_well_formed; [exact Hwf|apply zero_in_int64|exact Hs]|].
  split; [unfold shape; congruence|].
  split; [eapply getitem_setitem_eq; eauto|].
  split; [|auto].
  intros l' Hne. eapply getitem_setitem_ne; eauto.
Qed.

Lemma fill_writes_one_cell_witness :
  exists w', fill (1, 1)%nat (mk_world grid_d 0 []) = (Ok tt, w') /\
             getitem (arr w') (1, 1)%nat = Ok 0 /\
             getitem (arr w') (0, 1)%nat = Ok 2.
Proof.
  destruct (fill_writes_one_cell (1, 1)%nat (mk_world grid_d 0 []))
    as (w' & Hf & _ & _ & Hz & Hother & _).
  - apply well_formedb_spec. reflexivity.
  - reflexivity.
  - exists w'. split; [exact Hf|]. split; [exact Hz|].
    rewrite (Hother (0, 1)%nat) by discriminate. reflexivity.
Defined.

(** X3. [fill] outside the grid raises [IndexError] and changes
    nothing; [fill] on a cell that is already filled leaves the array as
    it is, so filling twice is filling once. *)
Theorem fill_edge_cases :
  forall (l : loc) (w : world),
    well_formed (arr w) ->
    (in_bounds (arr w) l = false -> fill l w = (Raise IndexError, w)) /\
    (filled (arr w) l ->
     exists w', fill l w = (Ok tt, w') /\ arr w' = arr w /\
                count_zero (arr w') = count_zero (arr w)) /\
    (forall w1 w2, fill l w = (Ok tt, w1) -> fill l w1 = (Ok tt, w2) ->
                   arr w2 = arr w1).
Proof.
  intros l w Hwf.
  assert (Hidem : forall u, filled (arr u) l ->
            exists u', fill l u = (Ok tt, u') /\ arr u' = arr u).
  { intros u Hf. apply getitem_inv in Hf as [Hb Hl].
    unfold fill, setitem. rewrite Hb. eexists. split; [reflexivity|]. simpl.
    rewrite (list_insert_id _ _ _ Hl). destruct (arr u). reflexivity. }
  split; [|split].
  - intros Hb. unfold fill, setitem. rewrite Hb. reflexivity.
  - intros Hf. destruct (Hidem w Hf) as (w' & Hw' & Ha).
    exists w'. rewrite Ha. auto.
  - intros w1 w2 H1 H2.
    apply fill_inv in H1 as [(_ & Hs & _)|(Hx & _)]; [|discriminate].
    pose proof (getitem_setitem_eq _ _ _ _ Hwf Hs) as Hf.
    destruct (Hidem w1 Hf) as (u' & Hu' & Ha). congruence.
Qed.

Lemma fill_edge_cases_witness :
  fill (3, 0)%nat (mk_world grid_a 0 []) = (Raise IndexError, mk_world grid_a 0 []) /\
  exists w', fill (1, 1)%nat (mk_world grid_a 0 []) = (Ok tt, w') /\ arr w' = grid_a.
Proof.
  destruct (fill_edge_cases (3, 0)%nat (mk_world grid_a 0 [])) as (H1 & _ & _).
  { apply well_formedb_spec. reflexivity. }
  destruct (fill_edge_cases (1, 1)%nat (mk_world grid_a 0 [])) as (_ & H2 & _).
  { apply well_formedb_spec. reflexivity. }
  split; [apply H1; reflexivity|].
  destruct H2 as (w' & Hf & Ha & _); [reflexivity|].
  exists w'. split; [exact Hf|exact Ha].
Defined.

Lemma make_grid_spec_witness :
  make_grid (-1) 3 zero_entropy = Raise ValueError /\
  make_grid 2 0 zero_entropy = Raise ValueError /\
  (exists g, make_grid 2 3 zero_entropy = Ok g) /\
  unfilled (mk_ndarray 2 2 [1; 1; 1; 1]) (1, 1)%nat.
Proof.
  split; [|split; [|split]].
  - apply (proj1 (make_grid_spec (-1) 3 zero_entropy)). lia.
  - apply (proj1 (proj2 (make_grid_spec 2 0 zero_entropy))); lia.
  - apply (proj1 (proj2 (proj2 (make_grid_spec 2 3 zero_entropy))));
      [lia|unfold int64_max; lia].
  - apply (proj2 (proj2 (proj2 (make_grid_spec 2 3 zero_entropy)))
             (mk_ndarray 2 2 [1; 1; 1; 1])); reflexivity.
Defined.

(** ** [on_boundary] *)

(** X4. For a cell of the grid, [on_boundary] holds exactly on the
    first and last row and column; it reads the shape only, so filling
    a cell never changes it; and a cell off the boundary has its four
    neighbours inside the grid. *)
Theorem on_boundary_spec :
  forall (g : ndarray) (x y : nat),
    in_bounds g (x, y) = true ->
    (on_boundary g (x, y) = true
     <-> x = 0%nat \/ y = 0%nat \/ S x = dim_x g \/ S y = dim_y g) /\
    (forall l v g', setitem g l v = Ok g' ->
                    on_boundary g' (x, y) = on_boundary g (x, y)) /\
    (on_boundary g (x, y) = false ->
     forall n, adjacent (x, y) n -> in_bounds g n = true).
Proof.
  intros g x y Hb. apply in_bounds_spec in Hb as [Hx Hy]. simpl in Hx, Hy.
  assert (Hiff : on_boundary g (x, y) = true
                 <-> x = 0%nat \/ y = 0%nat \/ S x = dim_x g \/ S y = dim_y g).
  { unfold on_boundary, shape. rewrite !orb_true_iff, !Z.eqb_eq. lia. }
  split; [exact Hiff|]. split.
  - intros l v g' Hs. apply (on_boundary_setitem _ _ _ _ _ Hs).
  - intros Hob [a b] Hadj.
    assert (Hn : ~ (x = 0%nat \/ y = 0%nat \/ S x = dim_x g \/ S y = dim_y g)).
    { intros H. apply Hiff in H. congruence. }
    apply in_bounds_spec. unfold adjacent in Hadj. simpl in *. lia.
Qed.

Lemma on_boundary_spec_witness :
  on_boundary grid_d (1, 1)%nat = false /\ in_bounds grid_d (0, 1)%nat = true.
Proof.
  destruct (on_boundary_spec grid_d 1 1) as (_ & _ & H); [reflexivity|].
  split; [reflexivity|]. apply H; [reflexivity|].
  right. simpl. auto.
Defined.

(** ** [is_adjacent] outside its intended use *)

(** X5. On an unfilled cell the two notebooks' [is_adjacent] give the
    same answer. Outside the grid they differ: the second notebook's
    reads the cell first and raises [IndexError]; the first notebook's
    reads neighbours only, and just below the last row it returns true
    when the cell above is filled. *)
Theorem is_adjacent_versions :
  forall (g : ndarray) (l : loc),
    well_formed g ->
    (unfilled g l -> Tested.is_adjacent g l = Original.is_adjacent g l) /\
    (in_bounds g l = false -> Tested.is_adjacent g l = Raise IndexError) /\
    (fst l = dim_x g -> filled g ((fst l - 1)%nat, snd l) ->
     Original.is_adjacent g l = Ok true).
Proof.
  intros g [x y] Hwf. split; [|split].
  - intros (v & Hv & Hne). unfold Tested.is_adjacent, Original.is_adjacent.
    rewrite Hv. simpl. destruct (Z.eqb_spec v 0); [contradiction|reflexivity].
  - intros Hb. unfold Tested.is_adjacent, getitem. rewrite Hb. reflexivity.
  - simpl. intros -> Hf. pose proof Hf as Hf'.
    apply getitem_inv in Hf' as [Hb _]. apply in_bounds_spec in Hb. simpl in Hb.
    unfold Original.is_adjacent, neighbour_tests, shape, is_zero.
    destruct (Z.ltb_spec 0 (Z.of_nat (dim_x g))); [|lia]. simpl.
    unfold filled in Hf. rewrite Hf. reflexivity.
Qed.

Lemma is_adjacent_versions_witness :
  Tested.is_adjacent grid_pair (1, 0)%nat = Raise IndexError /\
  Original.is_adjacent grid_pair (1, 0)%nat = Ok true.
Proof.
  destruct (is_adjacent_versions grid_pair (1, 0)%nat) as (_ & H1 & H2).
  - apply well_formedb_spec. reflexivity.
  - split; [apply H1; reflexivity|apply H2; reflexivity].
Defined.

(** ** [choose_next] at its edges *)

(** X6. On a grid without a candidate (none filled, all filled, or no
    cell at all) [choose_next] of either notebook raises and leaves the
    state as it was, the random generator included: [ValueError], from
    [grid.max()], when the array is empty, [IndexError], from
    [random.choice], otherwise. *)
Theorem choose_next_without_candidate :
  forall (e : entropy) (w : world),
    well_formed (arr w) -> (forall c, ~ candidate (arr w) c) ->
    (size (arr w) = 0%nat ->
     Original.choose_next e w = (Raise ValueError, w) /\
     Tested.choose_next e w = (Raise ValueError, w)) /\
    ((0 < size (arr w))%nat ->
     Original.choose_next e w = (Raise IndexError, w) /\
     Tested.choose_next e w = (Raise IndexError, w)).
Proof.
  intros e w Hwf Hno. rewrite !choose_next_agree. split; intros Hs.
  - assert (H : Original.choose_next e w = (Raise ValueError, w)).
    { unfold Original.choose_next, choose_next.
      rewrite (scan_raises_on_empty _ original_is_adjacent_unfilled _ Hwf Hs).
      reflexivity. }
    split; exact H.
  - assert (H : Original.choose_next e w = (Raise IndexError, w)).
    { unfold Original.choose_next, choose_next. fold Original.scan.
      rewrite (original_scan_no_candidate _ Hwf Hs Hno). reflexivity. }
    split; exact H.
Qed.

Lemma choose_next_without_candidate_witness :
  Original.choose_next zero_entropy (mk_world grid_d 0 [])
  = (Raise IndexError, mk_world grid_d 0 []) /\
  Original.choose_next zero_entropy (mk_world (array []) 0 [])
  = (Raise ValueError, mk_world (array []) 0 []).
Proof.
  destruct (choose_next_without_candidate zero_entropy (mk_world grid_d 0 []))
    as [_ H1].
  { apply well_formedb_spec. reflexivity. }
  { intros c Hc. cbn [arr] in Hc. pose proof Hc as [(v & Hv & _) _].
    apply getitem_inv in Hv as [Hb _].
    apply candidateb_spec in Hc; [|apply well_formedb_spec; reflexivity].
    assert (Hall : forallb (fun l => negb (candidateb grid_d l)) (all_locs grid_d) = true)
      by (vm_compute; reflexivity).
    rewrite forallb_forall in Hall.
    specialize (Hall c (proj2 (all_locs_spec _ _) Hb)).
    rewrite Hc in Hall. discriminate. }
  destruct (choose_next_without_candidate zero_entropy (mk_world (array []) 0 []))
    as [H2 _].
  { apply well_formedb_spec. reflexivity. }
  { intros c [(v & Hv & _) _]. apply getitem_inv in Hv as [Hb _]. discriminate. }
  split; [apply H1; vm_compute; lia|apply H2; reflexivity].
Defined.

Lemma sole_element {A} (c : A) (xs : list A) :
  List.NoDup xs -> In c xs -> (forall a, In a xs -> a = c) -> xs = [c].
Proof.
  intros Hnd Hin Hall. destruct xs as [|a xs]; [destruct Hin|].
  assert (a = c) by (apply Hall; left; reflexivity). subst a.
  destruct xs as [|b xs]; [reflexivity|].
  assert (b = c) by (apply Hall; right; left; reflexivity). subst b.
  inversion Hnd as [|? ? Hn _]. exfalso. apply Hn. left. reflexivity.
Qed.

Lemma random_choice_singleton {A} raw (a : A) : random_choice raw [a] = Ok a.
Proof.
  unfold random_choice. change (length [a]) with 1%nat.
  rewrite Nat.mod_1_r. reflexivity.
Qed.

(** X7. Where one candidate alone has the least value (and
    [1 + grid.max()] does not wrap around), [choose_next] of either
    notebook returns it whatever is drawn, makes one draw and leaves
    the grid alone: chance plays no part. *)
Theorem choose_next_sole_candidate :
  forall (e : entropy) (w : world) (m : Z) (c : loc),
    well_formed (arr w) -> amax (arr w) = Ok m -> m < int64_max ->
    min_candidate (arr w) c ->
    (forall c', min_candidate (arr w) c' -> c' = c) ->
    Original.choose_next e w = (Ok c, mk_world (arr w) (S (draws w)) (trace w)) /\
    Tested.choose_next e w = (Ok c, mk_world (arr w) (S (draws w)) (trace w)).
Proof.
  intros e w m c Hwf Hm Hlt Hc Hsole. rewrite choose_next_agree.
  assert (Hs : Original.scan (arr w) = Ok (min_candidates (arr w))).
  { apply (scan_complete _ original_is_adjacent_unfilled) with (m := m);
      assumption. }
  assert (Hone : min_candidates (arr w) = [c]).
  { apply sole_element.
    - apply (scan_NoDup _ original_is_adjacent_unfilled (arr w)); assumption.
    - apply min_candidates_spec; assumption.
    - intros a Ha. apply Hsole. apply min_candidates_spec in Ha; assumption. }
  assert (H : Original.choose_next e w
              = (Ok c, mk_world (arr w) (S (draws w)) (trace w))).
  { unfold Original.choose_next, choose_next. fold Original.scan.
    rewrite Hs, Hone, random_choice_singleton. reflexivity. }
  split; exact H.
Qed.

Lemma choose_next_sole_candidate_witness :
  Original.choose_next (mk_entropy (fun _ => 0%nat) (fun _ => 5%nat))
                       (mk_world grid_b 0 [])
  = (Ok (2, 1)%nat, mk_world grid_b 1 []).
Proof.
  assert (Hwf : well_formed grid_b) by (apply well_formedb_spec; reflexivity).
  apply (choose_next_sole_candidate
           (mk_entropy (fun _ => 0%nat) (fun _ => 5%nat)) (mk_world grid_b 0 [])
           9 (2, 1)%nat Hwf).
  - reflexivity.
  - reflexivity.
  - apply min_candidateb_spec; [exact Hwf|vm_compute; reflexivity].
  - intros c' Hc'. apply min_candidates_spec in Hc'; [|exact Hwf].
    assert (E : min_candidates grid_b = [(2, 1)%nat]) by (vm_compute; reflexivity).
    cbn [arr] in Hc'. rewrite E in Hc'. destruct Hc' as [<-|[]]. reflexivity.
Defined.

(** ** [calculate_density] on an empty array *)

(** X8. On an array without cells [calculate_density] divides 0 by 0:
    NumPy does not raise, and the density returned is not a number. *)
Theorem calculate_density_empty :
  forall g : ndarray,
    well_formed g -> size g = 0%nat ->
    count_zero g = 0%nat /\ PrimFloat.is_nan (calculate_density g) = true.
Proof.
  intros g [Hlen _] Hs. unfold size in Hs.
  assert (Hc : count_zero g = 0%nat).
  { unfold count_zero. destruct (buf g); [reflexivity|simpl in Hlen; lia]. }
  split; [exact Hc|].
  unfold calculate_density, size. rewrite Hc, Hs. vm_compute. reflexivity.
Qed.

Lemma calculate_density_empty_witness :
  PrimFloat.is_nan (calculate_density (array [])) = true.
Proof.
  apply (calculate_density_empty (array [])).
  - apply well_formedb_spec. reflexivity.
  - reflexivity.
Defined.

(** ** The picture *)

Lemma mask_lookup g i :
  buf (mask_positive g) !! i = (fun v => if 0 <? v then 1 else v) <$> buf g !! i.
Proof.
  unfold mask_positive. simpl.
  change (map (fun v => if 0 <? v then 1 else v) (buf g))
    with ((fun v => if 0 <? v then 1 else v) <$> buf g).
  apply list_lookup_fmap.
Qed.

Lemma mask_getitem g l :
  getitem (mask_positive g) l
  = v ← getitem g l; Ok (if 0 <? v then 1 else v).
Proof.
  unfold getitem. change (in_bounds (mask_positive g) l) with (in_bounds g l).
  destruct (in_bounds g l); [|reflexivity].
  change (offset (mask_positive g) l) with (offset g l).
  rewrite mask_lookup. destruct (buf g !! offset g l); reflexivity.
Qed.

Lemma mask_count (vs : list Z) :
  length (filter (fun v => v = 0) (map (fun v => if 0 <? v then 1 else v) vs))
  = length (filter (fun v => v = 0) vs).
Proof.
  induction vs as [|a vs IH]; [reflexivity|]. simpl.
  destruct (decide (a = 0)) as [->|Hne].
  - rewrite !(filter_cons_True _ 0) by reflexivity. simpl. rewrite IH. reflexivity.
  - rewrite (filter_cons_False _ a) by assumption.
    rewrite filter_cons_False; [exact IH|].
    destruct (Z.ltb_spec 0 a); lia.
Qed.

(** X9. The mask [grid[grid > 0] = 1] drawn by the first notebook keeps
    the shape and the filled cells: a cell is 0 after it exactly when it
    was 0 before, so the count of filled cells is kept; on a grid
    without negative values every cell is 0 or 1 afterwards; and
    masking twice is masking once. *)
Theorem mask_positive_keeps_filled :
  forall g : ndarray,
    well_formed g ->
    well_formed (mask_positive g) /\ shape (mask_positive g) = shape g /\
    (forall l, filled (mask_positive g) l <-> filled g l) /\
    count_zero (mask_positive g) = count_zero g /\
    (Forall (fun v => 0 <= v) (buf g) ->
     forall l v, getitem (mask_positive g) l = Ok v -> v = 0 \/ v = 1) /\
    mask_positive (mask_positive g) = mask_positive g.
Proof.
  intros g [Hlen Hr]. split; [|split; [reflexivity|split; [|split; [|split]]]].
  - split; simpl; [rewrite length_map; exact Hlen|].
    apply List.Forall_forall. intros v Hv.
    apply in_map_iff in Hv as (a & <- & Ha).
    rewrite List.Forall_forall in Hr. specialize (Hr a Ha).
    unfold in_int64, int64_min, int64_max in *. destruct (0 <? a); lia.
  - intros l. unfold filled. rewrite mask_getitem.
    destruct (getitem g l) as [v| |]; simpl; try tauto.
    destruct (Z.ltb_spec 0 v) as [Hv|Hv]; split; intros [= Hq]; try lia;
      subst; reflexivity.
  - unfold count_zero. simpl. apply mask_count.
  - intros Hpos l v. rewrite mask_getitem.
    destruct (getitem g l) as [a| |] eqn:Ha; simpl; try discriminate.
    intros [= <-]. apply getitem_inv in Ha as [_ Hl].
    pose proof (Forall_lookup_1 _ _ _ _ Hpos Hl) as H0. simpl in H0.
    destruct (Z.ltb_spec 0 a); lia.
  - unfold mask_positive. simpl. f_equal. rewrite map_map.
    apply map_ext. intros a. destruct (Z.ltb_spec 0 a); [reflexivity|].
    destruct (Z.ltb_spec 0 a); [lia|reflexivity].
Qed.

Lemma mask_positive_keeps_filled_witness :
  count_zero (mask_positive grid_a) = 1%nat /\
  forall l v, getitem (mask_positive grid_a) l = Ok v -> v = 0 \/ v = 1.
Proof.
  destruct (mask_positive_keeps_filled grid_a) as (_ & _ & _ & Hc & H01 & _).
  - apply well_formedb_spec. reflexivity.
  - split; [rewrite Hc; reflexivity|]. apply H01.
    repeat constructor; lia.
Defined.

(** ** The arguments of [percolation] *)

(** X10. The second notebook's [percolation] checks the size first: a
    size that is not a positive odd [int] gives the size message
    whatever the spread is; with a good size, a spread that is not a
    positive [int] (0 included, though the message says non-negative)
    gives the spread message. Neither case allocates a grid. *)
Theorem tested_percolation_messages :
  forall (fuel : nat) (size spread : pyobj) (e : entropy),
    (~ valid_size size ->
     Tested.percolation fuel size spread e
     = (Raise (AssertionError "size must be positive odd integer"), [])) /\
    (valid_size size -> ~ valid_spread spread ->
     Tested.percolation fuel size spread e
     = (Raise (AssertionError "spread must be non-negative integer"), [])).
Proof.
  intros fuel size spread e. unfold Tested.percolation. split.
  - intros Hn. destruct size as [sz|]; [|reflexivity].
    destruct (Z.ltb_spec 0 sz); simpl; [|reflexivity].
    destruct (Z.eqb_spec (sz mod 2) 1); simpl; [|reflexivity].
    exfalso. apply Hn. exists sz. auto.
  - intros (sz & -> & Hpos & Hodd) Hn.
    destruct (Z.ltb_spec 0 sz); [|lia].
    destruct (Z.eqb_spec (sz mod 2) 1); [|lia]. simpl.
    destruct spread as [sp|]; [|reflexivity].
    destruct (Z.ltb_spec 0 sp); [|reflexivity].
    exfalso. apply Hn. exists sp. auto.
Qed.

Lemma tested_percolation_messages_witness :
  Tested.percolation 0 (PyInt 4) PyOther zero_entropy
  = (Raise (AssertionError "size must be positive odd integer"), []) /\
  Tested.percolation 0 (PyInt 3) (PyInt 0) zero_entropy
  = (Raise (AssertionError "spread must be non-negative integer"), []).
Proof.
  split.
  - apply (proj1 (tested_percolation_messages 0 (PyInt 4) PyOther zero_entropy)).
    intros (n & [= <-] & _ & Hodd). discriminate.
  - apply (proj2 (tested_percolation_messages 0 (PyInt 3) (PyInt 0) zero_entropy)).
    + exists 3. repeat split; lia.
    + intros (n & [= <-] & Hpos). lia.
Defined.

(** X11. On arguments that pass the assertions the two notebooks'
    [percolation] do the same: same result (grid, density or exception)
    and same trace, for every draw. The assertions, [int(size/2)]
    against [size // 2] and the guard of [is_adjacent] make no
    difference there. *)
Theorem percolation_versions_agree :
  forall (fuel : nat) (sz sp : Z) (e : entropy),
    0 < sz -> sz mod 2 = 1 -> 0 < sp ->
    Tested.percolation fuel (PyInt sz) (PyInt sp) e
    = Original.percolation fuel sz sp e.
Proof.
  intros fuel sz sp e Hsz Hodd Hsp. unfold Tested.percolation, Original.percolation.
  destruct (Z.ltb_spec 0 sz); [|lia]. destruct (Z.eqb_spec (sz mod 2) 1); [|lia].
  destruct (Z.ltb_spec 0 sp); [|lia]. simpl.
  destruct (make_grid sz sp e); try reflexivity.
  rewrite simulate_agree. f_equal. f_equal. apply Z.quot_div_nonneg; lia.
Qed.

Lemma percolation_versions_agree_witness :
  Tested.percolation 8 (PyInt 3) (PyInt 9) zero_entropy
  = Original.percolation 8 3 9 zero_entropy.
Proof.
  apply (percolation_versions_agree 8 3 9 zero_entropy); [lia|reflexivity|lia].
Defined.

(** While values stay below the largest [int64], the loop never raises. *)
Lemma grow_never_raises sp e fuel : forall chosen w ex,
  0 <= sp < int64_max -> loop_inv sp w chosen ->
  fst (grow Original.is_adjacent e fuel chosen w) <> Raise ex.
Proof.
  induction fuel as [|fuel IH]; intros chosen w ex Hsp Hinv.
  - rewrite grow_zero. destruct (on_boundary (arr w) chosen); discriminate.
  - rewrite grow_body. destruct (on_boundary (arr w) chosen) eqn:Hob; [discriminate|].
    destruct (loop_body_total sp e w chosen (proj2 Hsp) Hinv Hob) as (c & w2 & Hb).
    rewrite Hb. apply IH; [exact Hsp|].
    apply (loop_body_preserves sp e w chosen c w2 (proj1 Hsp) Hinv Hob Hb).
Qed.

(** X12. The first notebook's [percolation] has no checks of its own
    and fails only where NumPy does: a negative size, or a spread below
    1 with a positive size, raises [ValueError] from [randint] before
    any grid exists; size 0, whatever the spread, allocates an empty
    grid and raises [IndexError] when the middle cell is filled; and
    with a positive size, odd or even, and a spread within 1..2^63-2 no
    exception is raised at all. *)
Theorem original_percolation_errors :
  forall (fuel : nat) (sz sp : Z) (e : entropy),
    (sz < 0 \/ (0 < sz /\ sp < 1) ->
     Original.percolation fuel sz sp e = (Raise ValueError, [])) /\
    (sz = 0 ->
     Original.percolation fuel sz sp e = (Raise IndexError, [EvAlloc 0 0])) /\
    (0 < sz -> 1 <= sp < int64_max ->
     forall ex, fst (Original.percolation fuel sz sp e) <> Raise ex).
Proof.
  intros fuel sz sp e. split; [|split].
  - intros H. unfold Original.percolation, make_grid.
    destruct (Z.ltb_spec sz 0); [reflexivity|].
    destruct (Z.eqb_spec sz 0); [lia|].
    destruct (Z.ltb_spec sp 1); [reflexivity|lia].
  - intros ->. reflexivity.
  - intros Hsz Hsp ex. unfold Original.percolation.
    destruct (make_grid_total sz sp e) as [g Hg]; [lia|unfold int64_max in *; lia|].
    rewrite Hg. apply make_grid_inv in Hg as (_ & _ & Hx & Hy & Hwf & Hr).
    pose proof (middle_in_bounds sz g Hsz Hx Hy) as Hb.
    unfold simulate.
    destruct (fill_total _ (mk_world g 0 [EvAlloc (dim_x g) (dim_y g)]) Hb)
      as [w1 Hf].
    rewrite Hf.
    set (mid := (Z.to_nat (sz / 2), Z.to_nat (sz / 2))) in *.
    destruct (seed_invariant sp g mid w1) as (Hinv & _); try assumption;
      try lia; try congruence.
    pose proof (grow_never_raises sp e fuel mid w1 ex) as Hn.
    destruct (grow Original.is_adjacent e fuel mid w1) as [[c| |] w2];
      simpl in *; try discriminate.
    intros [= ->]. apply Hn; [lia|exact Hinv|reflexivity].
Qed.

Lemma original_percolation_errors_witness :
  Original.percolation 5 (-1) 3 zero_entropy = (Raise ValueError, []) /\
  Original.percolation 5 0 0 zero_entropy = (Raise IndexError, [EvAlloc 0 0]) /\
  fst (Original.percolation 5 4 3 zero_entropy) <> Raise IndexError.
Proof.
  split; [|split].
  - apply (proj1 (original_percolation_errors 5 (-1) 3 zero_entropy)). lia.
  - apply (proj1 (proj2 (original_percolation_errors 5 0 0 zero_entropy))).
    reflexivity.
  - apply (proj2 (proj2 (original_percolation_errors 5 4 3 zero_entropy)));
      [lia|unfold int64_max; lia].
Defined.

(** X13. On the smallest grid, size 1, both notebooks' [percolation]
    return at once, whatever the spread and the draws: the one cell is
    the middle and lies on the boundary, the loop is not entered and
    [choose_next] is never called, and the density is exactly 1. *)
Theorem percolation_size_one :
  forall (fuel : nat) (sp : Z) (e : entropy),
    1 <= sp <= int64_max ->
    Original.percolation fuel 1 sp e
    = (Ok (array [[0]], PrimFloat.one), [EvAlloc 1 1; EvFill (0, 0)%nat]) /\
    Tested.percolation fuel (PyInt 1) (PyInt sp) e
    = (Ok (array [[0]], PrimFloat.one), [EvAlloc 1 1; EvFill (0, 0)%nat]).
Proof.
  intros fuel sp e Hsp.
  assert (H : Original.percolation fuel 1 sp e
              = (Ok (array [[0]], PrimFloat.one), [EvAlloc 1 1; EvFill (0, 0)%nat])).
  { unfold Original.percolation, make_grid.
    destruct (Z.ltb_spec sp 1); [lia|]. destruct (Z.ltb_spec int64_max sp); [lia|].
    simpl. unfold simulate. simpl. destruct fuel; reflexivity. }
  split; [exact H|].
  rewrite tested_percolation_valid by (try reflexivity; lia). exact H.
Qed.

Lemma percolation_size_one_witness :
  Original.percolation 0 1 7 zero_entropy
  = (Ok (array [[0]], PrimFloat.one), [EvAlloc 1 1; EvFill (0, 0)%nat]).
Proof.
  destruct (percolation_size_one 0 7 zero_entropy) as [H _].
  - unfold int64_max. lia.
  - exact H.
Defined.

(** ** The shape of the filled region *)

Lemma chained_singleton (s : loc) : chained [s].
Proof.
  intros i l Hi Hpos. destruct i; [lia|]. discriminate.
Qed.

Lemma chained_snoc (ls : list loc) (c n : loc) :
  chained ls -> In n ls -> adjacent c n -> chained (ls ++ [c]).
Proof.
  intros Hch Hn Hadj i l Hi Hpos.
  destruct (Nat.lt_ge_cases i (length ls)) as [Hlt|Hge].
  - rewrite lookup_app_l in Hi by exact Hlt.
    destruct (Hch i l Hi Hpos) as (j & m & Hj & Hm & Ha).
    exists j, m. split; [exact Hj|]. split; [|exact Ha].
    rewrite lookup_app_l by lia. exact Hm.
  - rewrite lookup_app_r in Hi by exact Hge.
    destruct (i - length ls)%nat as [|k] eqn:Ek; [|destruct k; discriminate].
    injection Hi as <-.
    apply list_elem_of_In, list_elem_of_lookup in Hn as [j Hj].
    pose proof (lookup_lt_Some _ _ _ Hj) as Hjl.
    exists j, n. split; [lia|]. split; [|exact Hadj].
    rewrite lookup_app_l by exact Hjl. exact Hj.
Qed.

Lemma reach_adjacent (l n s : loc) :
  adjacent l n -> (reach l s <= S (reach n s))%nat.
Proof.
  destruct l as [a b], n as [c d], s as [p q]. unfold adjacent, reach, gap.
  simpl. lia.
Qed.

(** In a chained list the location at index [i] is within [i] steps of
    the first one. *)
Lemma chained_reach (ls : list loc) (s : loc) :
  chained ls -> ls !! 0%nat = Some s ->
  forall i l, ls !! i = Some l -> (reach l s <= i)%nat.
Proof.
  intros Hch Hs i. induction i as [i IH] using lt_wf_ind. intros l Hl.
  destruct i as [|i].
  - rewrite Hs in Hl. injection Hl as <-. destruct s as [p q].
    unfold reach, gap. simpl. lia.
  - destruct (Hch (S i) l Hl) as (j & n & Hj & Hn & Hadj); [lia|].
    pose proof (IH j Hj n Hn). pose proof (reach_adjacent l n s Hadj). lia.
Qed.

(** While the loop runs, each cell filled is next to one filled before
    it; the cell chosen last is the last of the trace; the shape is
    kept; and a cell's value changes only by being filled. *)
Lemma grow_shape sp e fuel : forall chosen w r w',
  0 <= sp -> loop_inv sp w chosen ->
  last (fills (trace w)) = Some chosen -> chained (fills (trace w)) ->
  grow Original.is_adjacent e fuel chosen w = (r, w') ->
  chained (fills (trace w')) /\
  (forall c, r = Ok c -> last (fills (trace w')) = Some c) /\
  shape (arr w') = shape (arr w) /\
  (forall l, getitem (arr w') l = getitem (arr w) l \/ filled (arr w') l).
Proof.
  induction fuel as [|fuel IH]; intros chosen w r w' Hsp Hinv Hlast Hch.
  - rewrite grow_zero. destruct (on_boundary (arr w) chosen);
      intros [= <- <-]; (split; [exact Hch|]); (split; [|auto]).
    + intros c [= <-]. exact Hlast.
    + discriminate.
  - rewrite grow_body. destruct (on_boundary (arr w) chosen) eqn:Hob.
    + intros [= <- <-]. split; [exact Hch|]. split; [|auto].
      intros c [= <-]. exact Hlast.
    + destruct (loop_body Original.is_adjacent e w) as [[c| |] w2] eqn:Hb.
      * intros Hg.
        pose proof (loop_body_preserves sp e w chosen c w2 Hsp Hinv Hob Hb) as Hinv2.
        apply loop_body_fills_one in Hb as (Hmin & Hs & Htr & _ & _); [|apply Hinv].
        assert (Hfills : fills (trace w2) = fills (trace w) ++ [c]).
        { rewrite Htr, fills_app. reflexivity. }
        destruct Hmin as [[_ (n & Hadj & Hn)] _].
        apply (inv_fills _ _ _ Hinv) in Hn.
        destruct (IH c w2 r w' Hsp Hinv2) as (Hch' & Hlast' & Hsh & Hval);
          try exact Hg.
        { rewrite Hfills. apply last_snoc. }
        { rewrite Hfills. eapply chained_snoc; eauto. }
        split; [exact Hch'|]. split; [exact Hlast'|]. split.
        { rewrite Hsh. destruct (setitem_shape _ _ _ _ Hs) as [Hx Hy].
          unfold shape. rewrite Hx, Hy. reflexivity. }
        intros l. destruct (Hval l) as [Heq|Hf]; [|auto].
        destruct (decide (c = l)) as [<-|Hne].
        -- right. unfold filled. rewrite Heq.
           apply (getitem_setitem_eq _ _ _ _ (inv_wf _ _ _ Hinv) Hs).
        -- left. rewrite Heq. apply (getitem_setitem_ne _ _ _ _ _ Hs Hne).
      * intros [= <- <-].
        apply loop_body_raise_inv in Hb as [Ha Ht]; [|apply Hinv].
        rewrite Ha, Ht. split; [exact Hch|]. split; [discriminate|auto].
      * exfalso. apply (loop_body_not_out_of_fuel e w); [apply Hinv|].
        rewrite Hb. reflexivity.
Qed.

(** What a run of the first notebook's [percolation] keeps, from the
    grid [make_grid] drew to the result. *)
Lemma original_run_facts fuel sz sp e g0 :
  make_grid sz sp e = Ok g0 ->
  let run := Original.percolation fuel sz sp e in
  let middle := (Z.to_nat (sz / 2), Z.to_nat (sz / 2)) in
  chained (fills (snd run)) /\
  (fills (snd run) = [] \/ fills (snd run) !! 0%nat = Some middle) /\
  forall g d, fst run = Ok (g, d) ->
    shape g = shape g0 /\
    fills (snd run) !! 0%nat = Some middle /\
    (forall l, getitem g l = getitem g0 l \/ filled g l) /\
    exists c, last (fills (snd run)) = Some c /\
              on_boundary g c = true /\ filled g c /\
              forall l, filled g l -> on_boundary g l = true -> l = c.
Proof.
  intros Hg. simpl. unfold Original.percolation. rewrite Hg.
  pose proof (make_grid_range _ _ _ _ Hg) as Hr.
  apply make_grid_inv in Hg as (_ & _ & Hx & Hy & Hwf & _).
  set (middle := (Z.to_nat (sz / 2), Z.to_nat (sz / 2))).
  unfold simulate. fold middle.
  destruct (fill middle (mk_world g0 0 [EvAlloc (dim_x g0) (dim_y g0)]))
    as [[[]| |] w1] eqn:Hf.
  - destruct (seed_invariant (Z.max sp 0) g0 middle w1) as (Hinv & _); try assumption;
      try lia; try congruence.
    pose proof Hf as Hf'.
    apply fill_inv in Hf' as [(_ & Hs & _ & Htr)|(Hx' & _)]; [|discriminate].
    simpl in Hs, Htr.
    assert (Hfills : fills (trace w1) = [middle]) by (rewrite Htr; reflexivity).
    destruct (grow Original.is_adjacent e fuel middle w1) as [r w2] eqn:Hgrow.
    destruct (grow_shape (Z.max sp 0) e fuel middle w1 r w2) as (Hch & Hlast & Hsh & Hval);
      try assumption; try lia.
    { rewrite Hfills. reflexivity. }
    { rewrite Hfills. apply chained_singleton. }
    destruct (grow_invariant (Z.max sp 0) e fuel middle w1 r w2)
      as (c' & Hinv' & Hr' & _ & more & Hmore); try assumption; try lia.
    assert (Hhead : fills (trace w2) !! 0%nat = Some middle).
    { rewrite Hmore, Hfills. reflexivity. }
    assert (Hgoal : chained (fills (trace w2)) /\
      (fills (trace w2) = [] \/ fills (trace w2) !! 0%nat = Some middle)) by auto.
    destruct r as [c| |]; simpl; (split; [apply Hgoal|]);
      (split; [apply Hgoal|]); try discriminate.
    intros g d [= <- _].
    pose proof (setitem_shape _ _ _ _ Hs) as [Hx1 Hy1].
    split; [rewrite Hsh; unfold shape; congruence|].
    split; [exact Hhead|]. split.
    { intros l. destruct (Hval l) as [Heq|Hfl]; [|auto].
      destruct (decide (middle = l)) as [<-|Hne].
      - right. unfold filled. rewrite Heq.
        apply (getitem_setitem_eq _ _ _ _ Hwf Hs).
      - left. rewrite Heq. apply (getitem_setitem_ne _ _ _ _ _ Hs Hne). }
    destruct (Hr' c eq_refl) as [<- Hob].
    exists c. split; [apply Hlast; reflexivity|]. split; [exact Hob|].
    split; [apply Hinv'|].
    intros l Hl Hlb. destruct (decide (l = c)) as [->|Hne]; [reflexivity|].
    pose proof (inv_interior _ _ _ Hinv' l Hl Hne). congruence.
  - apply fill_inv in Hf as [(Hx' & _)|(_ & _ & ->)]; [discriminate|].
    simpl. split; [intros i l Hi; discriminate|]. split; [auto|discriminate].
  - apply fill_inv in Hf as [(Hx' & _)|(Hx' & _)]; discriminate.
Qed.

(** A run of the second notebook's [percolation] is refused by an
    assertion or is the run of the first notebook's. *)
Lemma tested_run_cases fuel size spread e :
  (exists msg,
     Tested.percolation fuel size spread e = (Raise (AssertionError msg), [])) \/
  (exists sz sp, size = PyInt sz /\ spread = PyInt sp /\ 0 < sz /\ sz mod 2 = 1 /\
     Tested.percolation fuel size spread e = Original.percolation fuel sz sp e).
Proof.
  destruct (tested_percolation_cases fuel size spread e)
    as [H|(sz & sp & -> & -> & Hsz & Hodd & Hsp)]; [left; exact H|].
  right. exists sz, sp. repeat split; try assumption.
  apply tested_percolation_valid; assumption.
Qed.

Lemma original_run_make_grid fuel sz sp e r :
  fst (Original.percolation fuel sz sp e) = Ok r ->
  exists g0, make_grid sz sp e = Ok g0.
Proof.
  unfold Original.percolation. destruct (make_grid sz sp e); [eauto| |]; discriminate.
Qed.

Lemma original_stops_on_boundary fuel sz sp e g d :
  fst (Original.percolation fuel sz sp e) = Ok (g, d) ->
  exists c, last (fills (snd (Original.percolation fuel sz sp e))) = Some c /\
            on_boundary g c = true /\ filled g c /\
            forall l, filled g l -> on_boundary g l = true -> l = c.
Proof.
  intros Hok. destruct (original_run_make_grid _ _ _ _ _ Hok) as [g0 Hg0].
  destruct (original_run_facts fuel sz sp e g0 Hg0) as (_ & _ & H).
  destruct (H g d Hok) as (_ & _ & _ & Hc). exact Hc.
Qed.

(** X14. When [percolation] returns, the cell filled last lies on the
    boundary and is the only filled cell there: the run stops the
    moment the region touches the edge of the grid. *)
Theorem percolation_stops_on_boundary :
  (forall (fuel : nat) (sz sp : Z) (e : entropy) (g : ndarray) (d : float),
     fst (Original.percolation fuel sz sp e) = Ok (g, d) ->
     exists c, last (fills (snd (Original.percolation fuel sz sp e))) = Some c /\
               on_boundary g c = true /\ filled g c /\
               forall l, filled g l -> on_boundary g l = true -> l = c) /\
  (forall (fuel : nat) (size spread : pyobj) (e : entropy) (g : ndarray) (d : float),
     fst (Tested.percolation fuel size spread e) = Ok (g, d) ->
     exists c, last (fills (snd (Tested.percolation fuel size spread e))) = Some c /\
               on_boundary g c = true /\ filled g c /\
               forall l, filled g l -> on_boundary g l = true -> l = c).
Proof.
  split.
  - apply original_stops_on_boundary.
  - intros fuel size spread e g d.
    destruct (tested_run_cases fuel size spread e)
      as [[msg ->]|(sz & sp & _ & _ & _ & _ & ->)]; [discriminate|].
    apply original_stops_on_boundary.
Qed.

Lemma percolation_stops_on_boundary_witness :
  exists c, last (fills (snd (Original.percolation 8 3 9 zero_entropy))) = Some c /\
            on_boundary grid_ones_run c = true.
Proof.
  destruct (proj1 percolation_stops_on_boundary 8%nat 3 9 zero_entropy
              grid_ones_run
              (calculate_density grid_ones_run))
    as (c & Hl & Hb & _).
  - vm_compute. reflexivity.
  - exists c. split; [exact Hl|exact Hb].
Defined.

Lemma original_keeps_values fuel sz sp e g0 g d :
  make_grid sz sp e = Ok g0 ->
  fst (Original.percolation fuel sz sp e) = Ok (g, d) ->
  shape g = shape g0 /\
  forall l, filled g l \/ getitem g l = getitem g0 l.
Proof.
  intros Hg0 Hok.
  destruct (original_run_facts fuel sz sp e g0 Hg0) as (_ & _ & H).
  destruct (H g d Hok) as (Hsh & _ & Hval & _). split; [exact Hsh|].
  intros l. destruct (Hval l); auto.
Qed.

(** X15. [percolation] writes nothing but zeros: the grid it returns
    has the shape of the grid [make_grid] drew, and every cell of it is
    either filled or holds the value that was drawn for it. *)
Theorem percolation_keeps_values :
  forall (fuel : nat) (sz sp : Z) (e : entropy) (g0 g : ndarray) (d : float),
    make_grid sz sp e = Ok g0 ->
    fst (Original.percolation fuel sz sp e) = Ok (g, d) \/
    fst (Tested.percolation fuel (PyInt sz) (PyInt sp) e) = Ok (g, d) ->
    shape g = shape g0 /\
    forall l, filled g l \/ getitem g l = getitem g0 l.
Proof.
  intros fuel sz sp e g0 g d Hg0 [Hok|Hok].
  - apply (original_keeps_values fuel sz sp e g0 g d Hg0 Hok).
  - destruct (tested_run_cases fuel (PyInt sz) (PyInt sp) e)
      as [[msg Hm]|(sz' & sp' & [= <-] & [= <-] & _ & _ & Heq)].
    + rewrite Hm in Hok. discriminate.
    + rewrite Heq in Hok. apply (original_keeps_values fuel sz sp e g0 g d Hg0 Hok).
Qed.

Lemma percolation_keeps_values_witness :
  shape grid_ones_run = shape grid_ones /\
  (filled grid_ones_run (2, 2)%nat \/
   getitem grid_ones_run (2, 2)%nat = getitem grid_ones (2, 2)%nat).
Proof.
  destruct (percolation_keeps_values 8%nat 3 9 zero_entropy
              grid_ones
              grid_ones_run
              (calculate_density grid_ones_run)) as [Hs Hc];
    [| |split; [exact Hs|apply Hc]].
  - reflexivity.
  - left. vm_compute. reflexivity.
Defined.

Lemma original_grows_from_middle fuel sz sp e :
  chained (fills (snd (Original.percolation fuel sz sp e))) /\
  (fills (snd (Original.percolation fuel sz sp e)) = [] \/
   fills (snd (Original.percolation fuel sz sp e)) !! 0%nat
   = Some (Z.to_nat (sz / 2), Z.to_nat (sz / 2))).
Proof.
  destruct (make_grid sz sp e) as [g0| |] eqn:Hg0.
  - destruct (original_run_facts fuel sz sp e g0 Hg0) as (H1 & H2 & _). auto.
  - unfold Original.percolation. rewrite Hg0. simpl.
    split; [intros i l Hi; discriminate|auto].
  - unfold Original.percolation. rewrite Hg0. simpl.
    split; [intros i l Hi; discriminate|auto].
Qed.

(** X16. The filled region grows as one piece from the middle: in
    every run, however it ends, the first cell filled is the middle
    cell and every later one is an orthogonal neighbour of a cell
    filled before it. *)
Theorem percolation_grows_from_middle :
  forall (fuel : nat) (sz sp : Z) (e : entropy),
    (chained (fills (snd (Original.percolation fuel sz sp e))) /\
     (fills (snd (Original.percolation fuel sz sp e)) = [] \/
      fills (snd (Original.percolation fuel sz sp e)) !! 0%nat
      = Some (Z.to_nat (sz / 2), Z.to_nat (sz / 2)))) /\
    (chained (fills (snd (Tested.percolation fuel (PyInt sz) (PyInt sp) e))) /\
     (fills (snd (Tested.percolation fuel (PyInt sz) (PyInt sp) e)) = [] \/
      fills (snd (Tested.percolation fuel (PyInt sz) (PyInt sp) e)) !! 0%nat
      = Some (Z.to_nat (sz / 2), Z.to_nat (sz / 2)))).
Proof.
  intros fuel sz sp e. split; [apply original_grows_from_middle|].
  destruct (tested_run_cases fuel (PyInt sz) (PyInt sp) e)
    as [[msg ->]|(sz' & sp' & [= <-] & [= <-] & _ & _ & ->)].
  - simpl. split; [intros i l Hi; discriminate|auto].
  - apply original_grows_from_middle.
Qed.

Lemma original_fills_at_least fuel sz sp e g d :
  sz mod 2 = 1 ->
  fst (Original.percolation fuel sz sp e) = Ok (g, d) ->
  (Z.to_nat (sz / 2) + 1 <= count_zero g)%nat.
Proof.
  intros Hodd Hok. destruct (original_run_make_grid _ _ _ _ _ Hok) as [g0 Hg0].
  destruct (original_run_facts fuel sz sp e g0 Hg0) as (Hch & _ & H).
  destruct (H g d Hok) as (Hsh & Hhead & _ & c & Hlast & Hob & Hfc & _).
  destruct (original_percolation_growth fuel sz sp e) as [_ Hcnt].
  destruct (Hcnt g d Hok) as [Hlen _].
  apply make_grid_inv in Hg0 as (Hsz & _ & Hx & Hy & _).
  unfold shape in Hsh. injection Hsh as Hx' Hy'.
  rewrite last_lookup in Hlast.
  pose proof (chained_reach _ _ Hch Hhead _ _ Hlast) as Hreach.
  apply getitem_inv in Hfc as [Hb _]. apply in_bounds_spec in Hb.
  destruct c as [x y]. unfold on_boundary, shape in Hob.
  rewrite !orb_true_iff, !Z.eqb_eq in Hob.
  unfold reach, gap in Hreach. simpl in *.
  assert (Hdiv : sz = 2 * (sz / 2) + 1).
  { pose proof (Z.div_mod sz 2). lia. }
  assert (Hpos : 0 <= sz / 2) by lia.
  apply lookup_lt_Some in Hlast.
  set (m := Z.to_nat (sz / 2)) in *.
  assert (Hdx : dim_x g = (2 * m + 1)%nat) by (unfold m; lia).
  assert (Hdy : dim_y g = (2 * m + 1)%nat) by (unfold m; lia).
  rewrite Hdx, Hdy in *. rewrite Hlen. lia.
Qed.

(** X17. A run on an odd size fills at least (size + 1) / 2 cells: the
    region starts in the middle, grows by neighbours and stops on the
    boundary, which is size // 2 steps away. *)
Theorem percolation_fills_at_least :
  forall (fuel : nat) (sz sp : Z) (e : entropy) (g : ndarray) (d : float),
    sz mod 2 = 1 ->
    fst (Original.percolation fuel sz sp e) = Ok (g, d) \/
    fst (Tested.percolation fuel (PyInt sz) (PyInt sp) e) = Ok (g, d) ->
    (Z.to_nat (sz / 2) + 1 <= count_zero g)%nat.
Proof.
  intros fuel sz sp e g d Hodd [Hok|Hok].
  - apply (original_fills_at_least fuel sz sp e g d Hodd Hok).
  - destruct (tested_run_cases fuel (PyInt sz) (PyInt sp) e)
      as [[msg Hm]|(sz' & sp' & [= <-] & [= <-] & _ & _ & Heq)].
    + rewrite Hm in Hok. discriminate.
    + rewrite Heq in Hok. apply (original_fills_at_least fuel sz sp e g d Hodd Hok).
Qed.

Lemma percolation_fills_at_least_witness :
  (2 <= count_zero grid_ones_run)%nat.
Proof.
  apply (percolation_fills_at_least 8%nat 3 9 zero_entropy
           grid_ones_run
           (calculate_density grid_ones_run)).
  - reflexivity.
  - left. vm_compute. reflexivity.
Defined.

(** ** The tests and their runner *)

Lemma tested_scan_a :
  scan Tested.is_adjacent (array [[9; 1; 9]; [9; 0; 9]; [9; 9; 9]]) = Ok [(0, 1)%nat].
Proof. vm_compute. reflexivity. Qed.

Lemma tested_scan_b :
  scan Tested.is_adjacent (array [[9; 2; 9]; [9; 0; 9]; [9; 1; 9]]) = Ok [(2, 1)%nat].
Proof. vm_compute. reflexivity. Qed.

Lemma test_choose_next_passes is_adjacent e d :
  scan is_adjacent (array [[9; 1; 9]; [9; 0; 9]; [9; 9; 9]]) = Ok [(0, 1)%nat] ->
  scan is_adjacent (array [[9; 2; 9]; [9; 0; 9]; [9; 1; 9]]) = Ok [(2, 1)%nat] ->
  Tests.test_choose_next is_adjacent e d = (Ok tt, S (S d)).
Proof.
  intros Ha Hb.
  unfold Tests.test_choose_next, Tests.assert_choice, Tests.choose_next_of,
    rand_bind, pure_call, choose_next.
  cbn [arr draws trace]. rewrite Ha, random_choice_singleton. cbn [draws].
  simpl assert_. cbn iota. cbn [arr draws trace].
  rewrite Hb, random_choice_singleton. reflexivity.
Qed.

Lemma tests_pass e d :
  Tests.test_on_boundary = Ok tt /\
  Tests.test_is_adjacent Tested.is_adjacent = Ok tt /\
  Tests.test_is_adjacent Original.is_adjacent = Ok tt /\
  Tests.test_choose_next Tested.is_adjacent e d = (Ok tt, S (S d)) /\
  Tests.test_choose_next Original.is_adjacent e d = (Ok tt, S (S d)) /\
  Tests.test_all Tested.is_adjacent e d = (Ok tt, S (S d)) /\
  Tests.test_all Original.is_adjacent e d = (Ok tt, S (S d)).
Proof.
  assert (H1 : Tests.test_on_boundary = Ok tt) by reflexivity.
  assert (H2 : Tests.test_is_adjacent Tested.is_adjacent = Ok tt)
    by (vm_compute; reflexivity).
  assert (H3 : Tests.test_is_adjacent Original.is_adjacent = Ok tt)
    by (vm_compute; reflexivity).
  assert (H4 : Tests.test_choose_next Tested.is_adjacent e d = (Ok tt, S (S d))).
  { apply test_choose_next_passes; [apply tested_scan_a|apply tested_scan_b]. }
  assert (H5 : Tests.test_choose_next Original.is_adjacent e d = (Ok tt, S (S d))).
  { apply test_choose_next_passes; fold Original.scan; rewrite <- scan_agree;
      [apply tested_scan_a|apply tested_scan_b]. }
  split; [exact H1|]. split; [exact H2|]. split; [exact H3|].
  split; [exact H4|]. split; [exact H5|].
  unfold Tests.test_all, rand_bind, pure_call. rewrite H1, H2, H3. auto.
Qed.

(** X18. The notebook's tests cannot fail by chance: whatever
    [random.choice] draws, [test_on_boundary], [test_is_adjacent],
    [test_choose_next] and [test_all] pass, with two draws made by
    [test_choose_next]; they pass on the first notebook's [is_adjacent]
    and [choose_next] as well, so they do not tell the two apart. *)
Theorem notebook_tests_pass :
  forall (e : entropy) (d : nat),
    Tests.test_on_boundary = Ok tt /\
    Tests.test_is_adjacent Tested.is_adjacent = Ok tt /\
    Tests.test_is_adjacent Original.is_adjacent = Ok tt /\
    Tests.test_choose_next Tested.is_adjacent e d = (Ok tt, S (S d)) /\
    Tests.test_choose_next Original.is_adjacent e d = (Ok tt, S (S d)) /\
    Tests.test_all Tested.is_adjacent e d = (Ok tt, S (S d)) /\
    Tests.test_all Original.is_adjacent e d = (Ok tt, S (S d)).
Proof. intros e d. apply tests_pass. Qed.

Lemma collect_tests_length {St} stem (ev : list (string * pyglobal St)) :
  length (collect_tests stem ev) = length (List.filter (selected stem) ev).
Proof.
  induction ev as [|[name [call|]] ev IH]; simpl; [reflexivity| |exact IH].
  destruct (String.prefix stem name); simpl; rewrite IH; reflexivity.
Qed.

Lemma collect_tests_In {St} stem (ev : list (string * pyglobal St)) f :
  In f (collect_tests stem ev)
  <-> exists name, In (name, Function f) ev /\ String.prefix stem name = true.
Proof.
  induction ev as [|[name [call|]] ev IH]; simpl.
  - split; [tauto|intros (n & [] & _)].
  - destruct (String.prefix stem name) eqn:Hp; simpl; rewrite IH; split.
    + intros [<-|(n & Hn & Hpn)]; [exists name; auto|exists n; auto].
    + intros (n & [[= -> ->]|Hn] & Hpn); [auto|right; exists n; auto].
    + intros (n & Hn & Hpn). exists n. auto.
    + intros (n & [[= -> ->]|Hn] & Hpn); [congruence|exists n; auto].
  - rewrite IH. split; intros (n & Hn & Hpn); exists n; split; auto.
    destruct Hn as [Hn|Hn]; [discriminate|exact Hn].
Qed.

(** One turn of the second loop, by how the call ended. *)
Lemma count_tests_cons {St} (f : stateful St unit) funcs t s :
  goes_on (fst (f s)) = true ->
  count_tests (f :: funcs) t s
  = count_tests funcs (record (fst (f s)) t) (snd (f s)).
Proof.
  simpl. destruct (f s) as [[[]|ex|] s1]; simpl; intros H;
    [reflexivity| |discriminate].
  destruct ex; simpl in *; try reflexivity; discriminate.
Qed.

Lemma count_tests_stops {St} (f : stateful St unit) funcs t s :
  goes_on (fst (f s)) = false ->
  count_tests (f :: funcs) t s = (match fst (f s) with
                                  | Raise ex => Raise ex
                                  | _ => OutOfFuel
                                  end, snd (f s)).
Proof.
  simpl. destruct (f s) as [[[]|ex|] s1]; simpl; intros H;
    [discriminate| |reflexivity].
  destruct ex; simpl in *; try reflexivity; discriminate.
Qed.

(** The counters one call adds to. *)
Lemma record_counts r t :
  goes_on r = true ->
  (success (record r t) + failure (record r t) + error (record r t)
   = S (success t + failure t + error t))%nat /\
  (length (List.filter is_assertion (stderr (record r t))) + failure t
   = length (List.filter is_assertion (stderr t)) + failure (record r t))%nat /\
  (length (List.filter (fun ex => negb (is_assertion ex)) (stderr (record r t)))
   + error t
   = length (List.filter (fun ex => negb (is_assertion ex)) (stderr t))
     + error (record r t))%nat.
Proof.
  destruct r as [[]|ex|]; simpl; [lia| |discriminate].
  destruct ex; simpl; try discriminate; intros _;
    rewrite ?List.filter_app, ?length_app; simpl; lia.
Qed.

(** The counters after the second loop: each call adds one to one
    counter, and one line to [stderr] unless it passed. *)
Lemma count_tests_counts {St} (funcs : list (stateful St unit)) : forall t s t' s',
  count_tests funcs t s = (Ok t', s') ->
  (success t' + failure t' + error t'
   = success t + failure t + error t + length funcs)%nat /\
  (length (List.filter is_assertion (stderr t')) + failure t
   = length (List.filter is_assertion (stderr t)) + failure t')%nat /\
  (length (List.filter (fun ex => negb (is_assertion ex)) (stderr t')) + error t
   = length (List.filter (fun ex => negb (is_assertion ex)) (stderr t)) + error t')%nat.
Proof.
  induction funcs as [|f funcs IH]; intros t s t' s'.
  - simpl. intros [= <- <-]. lia.
  - destruct (goes_on (fst (f s))) eqn:Hgo.
    + rewrite (count_tests_cons f funcs t s Hgo). intros H.
      apply IH in H as (H1 & H2 & H3).
      destruct (record_counts (fst (f s)) t Hgo) as (R1 & R2 & R3).
      simpl length. lia.
    + rewrite (count_tests_stops f funcs t s Hgo).
      destruct (fst (f s)); discriminate.
Qed.

(** What leaves the runner is what a test raised and no handler caught;
    the tests before it were run and counted, those after it were not
    called. *)
Lemma count_tests_raises {St} (funcs : list (stateful St unit)) : forall t s ex s',
  count_tests funcs t s = (Raise ex, s') ->
  is_exception ex = false /\
  exists before f after t0 s0,
    funcs = before ++ f :: after /\
    count_tests before t s = (Ok t0, s0) /\
    f s0 = (Raise ex, s').
Proof.
  induction funcs as [|f funcs IH]; intros t s ex s'; [discriminate|].
  destruct (goes_on (fst (f s))) eqn:Hgo.
  - rewrite (count_tests_cons f funcs t s Hgo). intros H.
    apply IH in H as (Hex & before & g & after & t0 & s0 & -> & Hb & Hg).
    split; [exact Hex|].
    exists (f :: before), g, after, t0, s0. split; [reflexivity|].
    split; [|exact Hg]. rewrite (count_tests_cons f before t s Hgo). exact Hb.
  - rewrite (count_tests_stops f funcs t s Hgo).
    destruct (f s) as [[[]|ex'|] s1] eqn:Hf; simpl in *; try discriminate.
    intros [= -> ->]. split; [exact Hgo|].
    exists [], f, funcs, t, s. split; [reflexivity|]. split; [reflexivity|exact Hf].
Qed.

Lemma count_tests_returns {St} (funcs : list (stateful St unit)) : forall t s,
  (forall f s0, In f funcs -> goes_on (fst (f s0)) = true) ->
  exists t' s', count_tests funcs t s = (Ok t', s').
Proof.
  induction funcs as [|f funcs IH]; intros t s Hgo; [simpl; eauto|].
  rewrite (count_tests_cons f funcs t s (Hgo f s (or_introl eq_refl))).
  apply IH. intros g s0 Hg. apply Hgo. right. exact Hg.
Qed.

Lemma count_tests_step {St} (f : stateful St unit) funcs t s r s' :
  f s = (r, s') -> goes_on r = true ->
  count_tests (f :: funcs) t s = count_tests funcs (record r t) s'.
Proof.
  intros Hf Hgo. rewrite count_tests_cons by (rewrite Hf; exact Hgo).
  rewrite Hf. reflexivity.
Qed.

(** X22. Run on the notebook's four tests, [run_all_tests] prints what
    the notebook shows, whatever is drawn: 4 tests without failure or
    error; and once [test_to_prove_it_works] is defined, 5 tests and 1
    failure, with the message of its assertion on [stderr]. *)
Theorem run_all_tests_notebook_output :
  forall (e : entropy) (d : nat),
    fst (run_all_tests "test_" (notebook_tests e) d)
    = Ok ("4 tests, 0 failures, 0 errors"%string, mk_tally 4 0 0 []) /\
    fst (run_all_tests "test_"
           (notebook_tests e
            ++ [("test_to_prove_it_works"%string,
                 Function (pure_call test_to_prove_it_works))]) d)
    = Ok ("5 tests, 1 failures, 0 errors"%string,
          mk_tally 4 1 0 [AssertionError "just to prove the point"]).
Proof.
  intros e d.
  destruct (tests_pass e d) as (H1 & H2 & _ & H4 & _ & _ & _).
  destruct (tests_pass e (S (S d))) as (_ & _ & _ & _ & _ & H6 & _).
  assert (Hfour : forall rest t,
    count_tests (pure_call Tests.test_on_boundary
                 :: Tests.test_choose_next Tested.is_adjacent e
                 :: pure_call (Tests.test_is_adjacent Tested.is_adjacent)
                 :: Tests.test_all Tested.is_adjacent e :: rest) t d
    = count_tests rest
        (mk_tally (4 + success t) (failure t) (error t) (stderr t))
        (S (S (S (S d))))).
  { intros rest t.
    rewrite (count_tests_step _ _ _ _ (Ok tt) d)
      by (unfold pure_call; rewrite ?H1; reflexivity).
    rewrite (count_tests_step _ _ _ _ (Ok tt) (S (S d))) by (exact H4 || reflexivity).
    rewrite (count_tests_step _ _ _ _ (Ok tt) (S (S d)))
      by (unfold pure_call; rewrite ?H2; reflexivity).
    rewrite (count_tests_step _ _ _ _ (Ok tt) (S (S (S (S d)))))
      by (exact H6 || reflexivity).
    reflexivity. }
  unfold run_all_tests, notebook_tests, rand_bind. simpl collect_tests. split.
  - match goal with
    | |- context [count_tests ?l ?t d] =>
        rewrite (Hfour [] t : count_tests l t d = _)
    end.
    reflexivity.
  - match goal with
    | |- context [count_tests ?l ?t d] =>
        rewrite (Hfour [pure_call test_to_prove_it_works] t
                 : count_tests l t d = _)
    end.
    reflexivity.
Qed.

(** X19. [run_all_tests] calls the functions of [globals()] whose names
    start with the stem, each once and no other. When it prints its
    report, the three counters add up to the number of those functions,
    each [AssertionError] was counted as a failure and each other
    [Exception] as an error, each with one line on [stderr], and the
    line printed is the report of the counters: an [Exception] in one
    test does not keep the later ones from running. The runner raises
    only what a test raised and no handler caught, an exception that
    is not an [Exception] ([SystemExit], [KeyboardInterrupt]): the
    tests before it were run, those after it are not, and no report is
    printed. It prints its report whenever every test it calls returns
    or raises an [Exception]. *)
Theorem run_all_tests_counts :
  forall (St : Type) (stem : string) (everything : list (string * pyglobal St))
         (s : St),
    (forall out t s', run_all_tests stem everything s = (Ok (out, t), s') ->
       out = report t /\
       (success t + failure t + error t
        = length (List.filter (selected stem) everything))%nat /\
       length (List.filter is_assertion (stderr t)) = failure t /\
       length (List.filter (fun ex => negb (is_assertion ex)) (stderr t)) = error t) /\
    (forall ex s', run_all_tests stem everything s = (Raise ex, s') ->
       is_exception ex = false /\
       exists before f after t0 s0,
         collect_tests stem everything = before ++ f :: after /\
         count_tests before (mk_tally 0 0 0 []) s = (Ok t0, s0) /\
         f s0 = (Raise ex, s')) /\
    ((forall name call s0, In (name, Function call) everything ->
        String.prefix stem name = true -> goes_on (fst (call s0)) = true) ->
     exists out t s', run_all_tests stem everything s = (Ok (out, t), s')).
Proof.
  intros St stem ev s. unfold run_all_tests, rand_bind, pure_call.
  split; [|split].
  - intros out t s'.
    destruct (count_tests _ _ s) as [[t1| |] s1] eqn:Hc; try discriminate.
    intros [= <- <- <-]. apply count_tests_counts in Hc as (H1 & H2 & H3).
    rewrite collect_tests_length in H1. simpl in *.
    split; [reflexivity|]. split; [lia|]. split; lia.
  - intros ex s'.
    destruct (count_tests _ _ s) as [[t1| |] s1] eqn:Hc; try discriminate.
    intros [= <- <-]. apply (count_tests_raises _ _ _ _ _ Hc).
  - intros Hgo.
    destruct (count_tests_returns (collect_tests stem ev) (mk_tally 0 0 0 []) s)
      as (t & s' & Hc).
    { intros f s0 Hf. apply collect_tests_In in Hf as (name & Hin & Hp).
      apply (Hgo name f s0 Hin Hp). }
    rewrite Hc. eauto.
Qed.

Lemma run_all_tests_counts_witness :
  "3 tests, 1 failures, 1 errors"%string
  = report (mk_tally 1 1 1 [AssertionError "always fail";
                            ZeroDivisionError "not really dividing by zero"]) /\
  exists out t s', run_all_tests "always_" always_tests 0%nat = (Ok (out, t), s').
Proof.
  split.
  - apply (proj1 (run_all_tests_counts nat "always_" always_tests 0%nat)
             "3 tests, 1 failures, 1 errors"%string
             (mk_tally 1 1 1 [AssertionError "always fail";
                              ZeroDivisionError "not really dividing by zero"])
             0%nat).
    reflexivity.
  - apply (proj2 (proj2 (run_all_tests_counts nat "always_" always_tests 0%nat))).
    intros name call s0 [[= <- <-]|[[= <- <-]|[[= <- <-]|[]]]] _; reflexivity.
Defined.

Lemma same_counts_refl t : same_counts t t.
Proof. unfold same_counts. auto. Qed.

Lemma same_counts_trans a b c :
  same_counts a b -> same_counts b c -> same_counts a c.
Proof.
  unfold same_counts. intros (H1 & H2 & H3 & H4) (H5 & H6 & H7 & H8).
  repeat split; try congruence. etransitivity; eassumption.
Qed.

Lemma same_outcome_trans a b c :
  same_outcome a b -> same_outcome b c -> same_outcome a c.
Proof.
  destruct a as [ta| |], b as [tb| |], c as [tc| |]; simpl; try tauto.
  apply same_counts_trans.
Qed.

Lemma same_outcome_stops (a b : res tally) :
  (forall t, a <> Ok t) -> (forall t, b <> Ok t) -> same_outcome a b.
Proof.
  destruct a as [ta| |], b as [tb| |]; simpl; intros Ha Hb; try exact I;
    try (exfalso; apply (Ha ta); reflexivity);
    exfalso; apply (Hb tb); reflexivity.
Qed.

Lemma count_tests_stops_not_ok {St} (f : stateful St unit) funcs t s t' :
  goes_on (fst (f s)) = false -> fst (count_tests (f :: funcs) t s) <> Ok t'.
Proof.
  intros Hgo. rewrite (count_tests_stops f funcs t s Hgo). simpl.
  destruct (fst (f s)); discriminate.
Qed.

Lemma record_same r t t' :
  same_counts t t' -> same_counts (record r t) (record r t').
Proof.
  intros (H1 & H2 & H3 & H4).
  destruct r as [[]|ex|]; [| |repeat split; assumption].
  - unfold same_counts; simpl. repeat split; try congruence; assumption.
  - destruct ex; unfold same_counts; simpl;
      repeat split; try congruence; try assumption;
      apply Permutation_app_tail; exact H4.
Qed.

Lemma record_swap r1 r2 t :
  same_counts (record r1 (record r2 t)) (record r2 (record r1 t)).
Proof.
  assert (Hsw : forall (l : list exn) a b, Permutation ((l ++ [a]) ++ [b]) ((l ++ [b]) ++ [a])).
  { intros l a b. rewrite <- !app_assoc. apply Permutation_app_head. apply perm_swap. }
  destruct r1 as [[]|e1|], r2 as [[]|e2|]; try apply same_counts_refl;
    try (destruct e1; apply same_counts_refl);
    try (destruct e2; apply same_counts_refl).
  destruct e1, e2; unfold same_counts; simpl;
    repeat split; try reflexivity; apply Hsw.
Qed.

Lemma count_tests_same {St} (funcs : list (stateful St unit)) :
  Forall state_independent funcs ->
  forall t t' s s', same_counts t t' ->
    same_outcome (fst (count_tests funcs t s)) (fst (count_tests funcs t' s')).
Proof.
  induction 1 as [|f funcs Hf _ IH]; intros t t' s s' Ht; [exact Ht|].
  destruct (goes_on (fst (f s))) eqn:Hgo.
  - rewrite !count_tests_cons by (rewrite ?(Hf s' s); exact Hgo).
    apply IH. rewrite (Hf s' s). apply record_same, Ht.
  - apply same_outcome_stops; intros t0; apply count_tests_stops_not_ok;
      rewrite ?(Hf s' s); exact Hgo.
Qed.

(** The counters do not depend on the order of the calls, when no call
    depends on the state the calls before it left. *)
Lemma count_tests_permutation {St} (funcs funcs' : list (stateful St unit)) :
  Permutation funcs funcs' -> Forall state_independent funcs ->
  forall t t' s s', same_counts t t' ->
    same_outcome (fst (count_tests funcs t s)) (fst (count_tests funcs' t' s')).
Proof.
  induction 1 as [|f l l' Hp IH|f g l|l l' l'' Hp1 IH1 Hp2 IH2];
    intros Hall t t' s s' Ht.
  - exact Ht.
  - apply Forall_cons in Hall as [Hf Hl].
    destruct (goes_on (fst (f s))) eqn:Hgo.
    + rewrite !count_tests_cons by (rewrite ?(Hf s' s); exact Hgo).
      apply IH; [exact Hl|]. rewrite (Hf s' s). apply record_same, Ht.
    + apply same_outcome_stops; intros t0; apply count_tests_stops_not_ok;
        rewrite ?(Hf s' s); exact Hgo.
  - apply Forall_cons in Hall as [Hg Hall]. apply Forall_cons in Hall as [Hf Hl].
    set (rf := fst (f s)). set (rg := fst (g s)).
    assert (Hf2 : forall k, fst (f k) = rf) by (intros k; apply Hf).
    assert (Hg2 : forall k, fst (g k) = rg) by (intros k; apply Hg).
    destruct (goes_on rg) eqn:Eg.
    2: { apply same_outcome_stops; intros t0.
         - apply count_tests_stops_not_ok. rewrite Hg2. exact Eg.
         - destruct (goes_on rf) eqn:Ef.
           + rewrite (count_tests_cons f) by (rewrite Hf2; exact Ef).
             apply count_tests_stops_not_ok. rewrite Hg2. exact Eg.
           + apply count_tests_stops_not_ok. rewrite Hf2. exact Ef. }
    rewrite (count_tests_cons g) by (rewrite Hg2; exact Eg).
    destruct (goes_on rf) eqn:Ef.
    2: { apply same_outcome_stops; intros t0;
           apply count_tests_stops_not_ok; rewrite Hf2; exact Ef. }
    rewrite !(count_tests_cons f) by (rewrite Hf2; exact Ef).
    rewrite (count_tests_cons g) by (rewrite Hg2; exact Eg).
    rewrite !Hf2, !Hg2. apply count_tests_same; [exact Hl|].
    eapply same_counts_trans; [apply record_swap|].
    apply record_same, record_same, Ht.
  - eapply same_outcome_trans.
    + apply (IH1 Hall t t s s). apply same_counts_refl.
    + apply IH2; [|exact Ht]. eapply Permutation_Forall; [|exact Hall].
      exact Hp1.
Qed.

Lemma collect_tests_permutation {St} stem (ev ev' : list (string * pyglobal St)) :
  Permutation ev ev' ->
  Permutation (collect_tests stem ev) (collect_tests stem ev').
Proof.
  induction 1 as [|[n [c|]] l l' Hp IH|[n1 [c1|]] [n2 [c2|]] l|l l' l'' Hp1 IH1 Hp2 IH2];
    simpl; try reflexivity; try assumption.
  - destruct (String.prefix stem n); [apply perm_skip|]; exact IH.
  - destruct (String.prefix stem n1), (String.prefix stem n2);
      try reflexivity. apply perm_swap.
  - etransitivity; eassumption.
Qed.

(** X20. The report of [run_all_tests] does not depend on the order in
    which [globals()] lists the functions, as long as how each test it
    calls ends is independent of the state it is called in (the draws
    made so far and whatever else the tests before it changed): another
    order, from any state, gives the same three counters, the same
    printed line and the same lines on [stderr] in another order. *)
Theorem run_all_tests_order :
  forall (St : Type) (stem : string)
         (everything everything' : list (string * pyglobal St))
         (s s' : St) (out : string) (t : tally) (s1 : St),
    Permutation everything everything' ->
    (forall name call, In (name, Function call) everything ->
       String.prefix stem name = true -> state_independent call) ->
    run_all_tests stem everything s = (Ok (out, t), s1) ->
    exists t' s1', run_all_tests stem everything' s' = (Ok (out, t'), s1') /\
                   same_counts t t'.
Proof.
  intros St stem ev ev' s s' out t s1 Hp Hind.
  unfold run_all_tests, rand_bind, pure_call.
  assert (Hall : Forall state_independent (collect_tests stem ev)).
  { apply List.Forall_forall. intros f Hf.
    apply collect_tests_In in Hf as (name & Hin & Hpre).
    apply (Hind name f Hin Hpre). }
  pose proof (count_tests_permutation _ _ (collect_tests_permutation stem _ _ Hp)
                Hall (mk_tally 0 0 0 []) (mk_tally 0 0 0 []) s s'
                (same_counts_refl _)) as Hperm.
  destruct (count_tests (collect_tests stem ev) _ s) as [[t1| |] k1];
    try discriminate.
  intros [= <- <- <-].
  destruct (count_tests (collect_tests stem ev') _ s') as [[t2| |] k2];
    simpl in Hperm; try contradiction.
  exists t2, k2. split; [|exact Hperm].
  destruct Hperm as (H1 & H2 & H3 & _). unfold report. rewrite H1, H2, H3.
  reflexivity.
Qed.

Lemma run_all_tests_order_witness :
  exists t' s1',
    run_all_tests "always_"
      [("always_error"%string, Function (pure_call always_error));
       ("always_succeed"%string, Function (pure_call always_succeed));
       ("always_fail"%string, Function (pure_call always_fail))] 7%nat
    = (Ok ("3 tests, 1 failures, 1 errors"%string, t'), s1').
Proof.
  destruct (run_all_tests_order nat "always_" always_tests
    [("always_error"%string, Function (pure_call always_error));
     ("always_succeed"%string, Function (pure_call always_succeed));
     ("always_fail"%string, Function (pure_call always_fail))]
    0%nat 7%nat "3 tests, 1 failures, 1 errors"%string
    (mk_tally 1 1 1 [AssertionError "always fail";
                     ZeroDivisionError "not really dividing by zero"]) 0%nat)
    as (t' & s1' & H & _).
  - unfold always_tests.
    eapply perm_trans; [apply perm_skip, perm_swap|apply perm_swap].
  - intros name call [[= <- <-]|[[= <- <-]|[[= <- <-]|[]]]] _ k k'; reflexivity.
  - reflexivity.
  - exists t', s1'. exact H.
Defined.

(** ** An upper bound on the filled region *)

Lemma interior_length n : length (interior n) = ((n - 2) * (n - 2))%nat.
Proof.
  assert (H : forall xs ys : list nat,
             length (flat_map (fun x => map (pair x) ys) xs)
             = (length xs * length ys)%nat).
  { intros xs ys. induction xs as [|x xs IH]; [reflexivity|].
    cbn [flat_map]. rewrite length_app, length_map, IH. reflexivity. }
  unfold interior. rewrite H, length_seq. reflexivity.
Qed.

Lemma interior_In g l :
  dim_x g = dim_y g -> in_bounds g l = true -> on_boundary g l = false ->
  In l (interior (dim_x g)).
Proof.
  intros Hsq Hb Hob. apply in_bounds_spec in Hb. destruct l as [x y].
  unfold on_boundary, shape in Hob.
  rewrite !orb_false_iff, !Z.eqb_neq in Hob. simpl in *.
  unfold interior. apply in_flat_map. exists x. split.
  - apply in_seq. lia.
  - apply in_map. apply in_seq. lia.
Qed.

Lemma original_fills_at_most fuel sz sp e g d :
  fst (Original.percolation fuel sz sp e) = Ok (g, d) ->
  (count_zero g <= (Z.to_nat sz - 2) * (Z.to_nat sz - 2) + 1)%nat.
Proof.
  intros Hok. destruct (original_run_make_grid _ _ _ _ _ Hok) as [g0 Hg0].
  destruct (original_run_facts fuel sz sp e g0 Hg0) as (_ & _ & H).
  destruct (H g d Hok) as (Hsh & _ & _ & c & Hlast & Hob & Hfc & Huniq).
  destruct (original_percolation_growth fuel sz sp e) as [Hnd Hcnt].
  destruct (Hcnt g d Hok) as [Hlen Hin].
  apply make_grid_inv in Hg0 as (_ & _ & Hx & Hy & _).
  unfold shape in Hsh. injection Hsh as Hx' Hy'.
  apply last_Some in Hlast as [init Hinit].
  rewrite Hlen, Hinit in *. clear Hlen.
  apply List.NoDup_remove in Hnd as [Hnd Hc]. rewrite app_nil_r in Hnd, Hc.
  rewrite length_app. simpl.
  rewrite <- (interior_length (Z.to_nat sz)), <- Hx, <- Hx'.
  apply Nat.add_le_mono_r. apply List.NoDup_incl_length; [exact Hnd|].
  intros l Hl.
  assert (Hfl : filled g l) by (apply Hin, in_or_app; left; exact Hl).
  apply interior_In.
  - congruence.
  - apply getitem_inv in Hfl as [Hb _]. exact Hb.
  - destruct (on_boundary g l) eqn:Hbl; [|reflexivity].
    exfalso. apply Hc. rewrite <- (Huniq l Hfl Hbl). exact Hl.
Qed.

(** X21. A run fills at most (size - 2)^2 + 1 cells: every filled cell
    but the last is off the boundary, and each cell is filled once. So
    the loop body runs at most (size - 2)^2 times. *)
Theorem percolation_fills_at_most :
  forall (fuel : nat) (sz sp : Z) (e : entropy) (g : ndarray) (d : float),
    fst (Original.percolation fuel sz sp e) = Ok (g, d) \/
    fst (Tested.percolation fuel (PyInt sz) (PyInt sp) e) = Ok (g, d) ->
    (count_zero g <= (Z.to_nat sz - 2) * (Z.to_nat sz - 2) + 1)%nat.
Proof.
  intros fuel sz sp e g d [Hok|Hok].
  - apply (original_fills_at_most fuel sz sp e g d Hok).
  - destruct (tested_run_cases fuel (PyInt sz) (PyInt sp) e)
      as [[msg Hm]|(sz' & sp' & [= <-] & [= <-] & _ & _ & Heq)].
    + rewrite Hm in Hok. discriminate.
    + rewrite Heq in Hok. apply (original_fills_at_most fuel sz sp e g d Hok).
Qed.

Lemma percolation_fills_at_most_witness :
  (count_zero grid_ones_run <= 2)%nat.
Proof.
  apply (percolation_fills_at_most 8%nat 3 9 zero_entropy
           grid_ones_run
           (calculate_density grid_ones_run)).
  left. vm_compute. reflexivity.
Defined.
